(** * dbmp: the [Parallel] worker pool and the [locker] decorator

    A shallow embedding of [src/dbmp/utils.py] (class [Parallel], lines
    35-155, and [locker], lines 257-264; [src/utils.py] carries a second,
    textually identical copy of [Parallel]).

    The code is Python 2 ([xrange], [unicode]) and is read as such.

    The program is multi-threaded.  Each thread is a small automaton whose
    program counter names the source line it is about to execute; one step
    of a thread is one access to the shared object ([self.queue],
    [self.exceptions], [self.keep_running], [self.threads]).  A schedule
    picks which thread moves next, so a run is the interleaving of the
    threads' steps. *)

From Stdlib Require Import Ascii.
From stdpp Require Import base list strings numbers gmap.

(** ** Python data that reaches [Parallel] *)

(** Atoms passed through to the task callables. *)
Inductive pyval :=
  | VInt (n : Z)
  | VStr (s : string)
  | VNone.

(** An entry of [args_list] or [kwargs_list]: a text value ([str] or
    [unicode]), a tuple or list, or a dict.  [ODict []] is the [{}] that
    [zip_longest] receives as [fillvalue]. *)
Inductive pyobj :=
  | OStr (s : string)
  | OSeq (xs : list pyval)
  | ODict (kvs : list (string * pyval)).

(** The first component of a queued triple: one of the callables of
    [funcs], or the fill value when [funcs] is the shorter list. *)
Inductive callee :=
  | Func (name : string)
  | NotFunc (o : pyobj).

(** Exception classes, as far as the code tells them apart: [except
    Exception] (line 94) and [except queue.Empty] (lines 81, 138, 154). *)
Inductive eclass :=
  | QueueEmpty
  | ValueError
  | AttributeError
  | TypeError
  | KeyboardInterrupt
  | SystemExit
  | OtherError (name : string).

(** What [sys.exc_info()] captures and [six.reraise] raises again. *)
Record exc := Exc { ekind : eclass; emsg : string }.

Inductive outcome :=
  | Return
  | Raise (e : exc).

(** How a call of [run_threads] ends for its caller. *)
Inductive result :=
  | Returned
  | Raised (e : exc).

(** A queued triple [(func, args, kwargs)]. *)
Abbreviation task := (callee * pyobj * pyobj)%type.

(** One observed execution [func( *args, **kwargs)]. *)
Record call := Call {
  cfunc : string;
  cargs : list pyval;
  ckwargs : list (string * pyval)
}.

Global Instance pyval_eq_dec : EqDecision pyval.
Proof. solve_decision. Defined.
Global Instance pyobj_eq_dec : EqDecision pyobj.
Proof. solve_decision. Defined.
Global Instance callee_eq_dec : EqDecision callee.
Proof. solve_decision. Defined.
Global Instance eclass_eq_dec : EqDecision eclass.
Proof. solve_decision. Defined.
Global Instance exc_eq_dec : EqDecision exc.
Proof. solve_decision. Defined.
Global Instance outcome_eq_dec : EqDecision outcome.
Proof. solve_decision. Defined.
Global Instance result_eq_dec : EqDecision result.
Proof. solve_decision. Defined.
Global Instance call_eq_dec : EqDecision call.
Proof. solve_decision. Defined.

(** [isinstance(e, Exception)]: everything but the two classes that derive
    from [BaseException] directly. *)
Definition is_Exception (e : exc) : bool :=
  match ekind e with
  | KeyboardInterrupt | SystemExit => false
  | _ => true
  end.

(** [isinstance(e, queue.Empty)]. *)
Definition is_queue_Empty (e : exc) : bool :=
  match ekind e with
  | QueueEmpty => true
  | _ => false
  end.

(** [isinstance(args, str) or isinstance(args, unicode)] (line 112). *)
Definition is_text (o : pyobj) : bool :=
  match o with
  | OStr _ => true
  | _ => false
  end.

(** [*args]: the elements of a sequence, the keys of a dict, the
    characters of a text value. *)
Definition star (o : pyobj) : list pyval :=
  match o with
  | OSeq xs => xs
  | ODict kvs => (λ kv, VStr (fst kv)) <$> kvs
  | OStr s => (λ c, VStr (String c EmptyString)) <$> String.list_ascii_of_string s
  end.

(** [**kwargs]: only a mapping unpacks; anything else is a [TypeError]. *)
Definition starstar (o : pyobj) : option (list (string * pyval)) :=
  match o with
  | ODict kvs => Some kvs
  | _ => None
  end.

Definition fillvalue : pyobj := ODict [].

(** [six.moves.zip_longest(a, b, c, fillvalue=...)]: as long as the longest
    argument, shorter ones padded. *)
Definition zip_longest {A B C} (da : A) (db : B) (dc : C)
    (la : list A) (lb : list B) (lc : list C) : list (A * B * C) :=
  (λ i, (default da (la !! i), default db (lb !! i), default dc (lc !! i)))
    <$> seq 0 (length la `max` (length lb `max` length lc)).

Definition msg_text : string :=
  "args_list must be list of lists not list of strings".

Definition msg_length : string :=
  "List of functions passed into a Parallel object must be longer or equal in length to the list of args and/or kwargs passed to the object.".

Definition text_error : exc := Exc ValueError msg_text.
Definition length_error : exc := Exc ValueError msg_length.

(** ** The [Parallel] object *)

(** The arguments of [__init__] (lines 44-66).  [args_list=None] and
    [kwargs_list=None] are stored as [[]].  [timeout] only bounds
    [thread.join]; its expiry is the scheduler's [Timer] action below. *)
Record Parallel := {
  funcs : list string;
  args_list : list pyobj;
  kwargs_list : list pyobj;
  max_workers : nat
}.

(** Where a worker thread stands inside [_wrapped] (lines 75-100). *)
Inductive wpc :=
  | WLoop                 (* line 78: while self.keep_running *)
  | WGet                  (* line 80: self.queue.get(block=False) *)
  | WRun (d : task)       (* lines 86-93: the task is dequeued and running *)
  | WStop (e : exc)       (* line 95: self.keep_running = False *)
  | WPut (e : exc)        (* lines 96-98: log, self.exceptions.put *)
  | WTaskDone             (* line 100: self.queue.task_done() *)
  | WExit.                (* the thread has ended *)

(** Where the calling thread stands inside [run_threads] (lines 102-155).
    [pend] is the exception in flight while the [finally] block runs. *)
Inductive mpc :=
  | MEnqueue                                      (* lines 108-115 *)
  | MSpawn (k : nat)                              (* lines 117-121, [k] to go *)
  | MCheck                                        (* lines 123-129 *)
  | MWhile                                        (* line 131 *)
  | MPoll                                         (* line 135 *)
  | MStop (e : exc)                               (* lines 136-140 *)
  | MFinally (pend : option exc)                  (* line 147 *)
  | MFStop (pend : option exc) (e : exc)          (* line 148 *)
  | MJoin (pend : option exc) (e : exc) (i : nat) (* lines 151-155 *)
  | MDone (r : result).

Global Instance wpc_eq_dec : EqDecision wpc.
Proof. solve_decision. Defined.
Global Instance mpc_eq_dec : EqDecision mpc.
Proof. solve_decision. Defined.

(** The shared object [self] together with the threads' control state.
    [calls], [recorded], [joined] and [timed_out] are histories: the calls
    made so far, every exception put on [self.exceptions], and the
    [thread.join] calls that returned because the thread had ended or
    because the timeout expired. *)
Record state := State {
  queue : list task;
  unfinished_tasks : nat;
  exceptions : list exc;
  keep_running : bool;
  threads : list wpc;
  main : mpc;
  calls : list call;
  recorded : list exc;
  joined : list nat;
  timed_out : list nat
}.

Global Instance state_eq_dec : EqDecision state.
Proof. solve_decision. Defined.

(** The object after [__init__], with [run_threads] about to start. *)
Definition init : state :=
  State [] 0 [] true [] MEnqueue [] [] [] [].

Definition set_main (m : mpc) (s : state) : state :=
  State (queue s) (unfinished_tasks s) (exceptions s) (keep_running s)
        (threads s) m (calls s) (recorded s) (joined s) (timed_out s).

Definition set_thread (i : nat) (w : wpc) (s : state) : state :=
  State (queue s) (unfinished_tasks s) (exceptions s) (keep_running s)
        (<[i:=w]> (threads s)) (main s) (calls s) (recorded s) (joined s)
        (timed_out s).

Definition set_keep_running (b : bool) (s : state) : state :=
  State (queue s) (unfinished_tasks s) (exceptions s) b
        (threads s) (main s) (calls s) (recorded s) (joined s) (timed_out s).

Definition set_exceptions (es : list exc) (s : state) : state :=
  State (queue s) (unfinished_tasks s) es (keep_running s)
        (threads s) (main s) (calls s) (recorded s) (joined s) (timed_out s).

(** [self.queue.put(d)]: append and count one more unfinished task. *)
Definition queue_put (d : task) (s : state) : state :=
  State (queue s ++ [d]) (S (unfinished_tasks s)) (exceptions s)
        (keep_running s) (threads s) (main s) (calls s) (recorded s)
        (joined s) (timed_out s).

Definition set_queue (q : list task) (s : state) : state :=
  State q (unfinished_tasks s) (exceptions s) (keep_running s)
        (threads s) (main s) (calls s) (recorded s) (joined s) (timed_out s).

Definition set_unfinished (n : nat) (s : state) : state :=
  State (queue s) n (exceptions s) (keep_running s)
        (threads s) (main s) (calls s) (recorded s) (joined s) (timed_out s).

Definition log_call (c : option call) (s : state) : state :=
  State (queue s) (unfinished_tasks s) (exceptions s) (keep_running s)
        (threads s) (main s) (calls s ++ option_list c) (recorded s)
        (joined s) (timed_out s).

(** [self.exceptions.put(sys.exc_info())]. *)
Definition exceptions_put (e : exc) (s : state) : state :=
  State (queue s) (unfinished_tasks s) (exceptions s ++ [e]) (keep_running s)
        (threads s) (main s) (calls s) (recorded s ++ [e]) (joined s)
        (timed_out s).

(** [thread.start(); self.threads.append(thread)]. *)
Definition spawn (s : state) : state :=
  State (queue s) (unfinished_tasks s) (exceptions s) (keep_running s)
        (threads s ++ [WLoop]) (main s) (calls s) (recorded s) (joined s)
        (timed_out s).

Definition log_join (i : nat) (s : state) : state :=
  State (queue s) (unfinished_tasks s) (exceptions s) (keep_running s)
        (threads s) (main s) (calls s) (recorded s) (joined s ++ [i])
        (timed_out s).

Definition log_timeout (i : nat) (s : state) : state :=
  State (queue s) (unfinished_tasks s) (exceptions s) (keep_running s)
        (threads s) (main s) (calls s) (recorded s) (joined s)
        (timed_out s ++ [i]).

(** The triples the first loop of [run_threads] iterates over (lines
    108-110). *)
Definition triples (p : Parallel) : list task :=
  zip_longest (NotFunc fillvalue) fillvalue fillvalue
              (Func <$> funcs p) (args_list p) (kwargs_list p).

(** Lines 108-115: each triple is checked and then put on the queue; a
    text value in the place of [args] raises before its triple is put.  No
    other thread exists yet, so the loop is one step of the caller. *)
Fixpoint enqueue (ds : list task) (s : state) : state * option exc :=
  match ds with
  | [] => (s, None)
  | d :: ds' =>
      if is_text (snd (fst d)) then (s, Some text_error)
      else enqueue ds' (queue_put d s)
  end.

(** Lines 123-124. *)
Definition too_few_funcs (p : Parallel) : bool :=
  (length (funcs p) <? length (args_list p))
  || (length (funcs p) <? length (kwargs_list p)).

Definition result_of (pend : option exc) : result :=
  match pend with
  | None => Returned
  | Some e => Raised e
  end.

(** Who moves next: the caller of [run_threads], the [i]-th thread of
    [self.threads], or the clock that makes a pending [join] give up. *)
Inductive actor :=
  | Main
  | Worker (i : nat)
  | Timer.

Global Instance actor_eq_dec : EqDecision actor.
Proof. solve_decision. Defined.

Section Semantics.

(** What each callable does when called: it returns or it raises. *)
Variable body : string → list pyval → list (string * pyval) → outcome.

Variable p : Parallel.

(** Lines 86-93 for one dequeued triple.  Renaming the thread reads
    [func.__module__] and [func.__name__], which the fill value does not
    have; [**kwargs] needs a mapping.  Both failures happen before
    [func] is entered. *)
Definition invoke (d : task) : outcome * option call :=
  match d with
  | (NotFunc _, _, _) => (Raise (Exc AttributeError "'dict' object has no attribute '__module__'"), None)
  | (Func f, a, k) =>
      match starstar k with
      | None => (Raise (Exc TypeError "argument after ** must be a mapping"), None)
      | Some kw => (body f (star a) kw, Some (Call f (star a) kw))
      end
  end.

(** One step of worker [i] inside [_wrapped]. *)
Definition _wrapped (i : nat) (s : state) : option state :=
  match threads s !! i with
  | None => None
  | Some WLoop =>
      Some (set_thread i (if keep_running s then WGet else WExit) s)
  | Some WGet =>
      match queue s with
      | [] => Some (set_thread i WExit s)
      | d :: q => Some (set_thread i (WRun d) (set_queue q s))
      end
  | Some (WRun d) =>
      let next :=
        match fst (invoke d) with
        | Return => WTaskDone
        | Raise e => if is_Exception e then WStop e else WExit
        end in
      Some (set_thread i next (log_call (snd (invoke d)) s))
  | Some (WStop e) =>
      Some (set_thread i (WPut e) (set_keep_running false s))
  | Some (WPut e) =>
      Some (set_thread i WTaskDone (exceptions_put e s))
  | Some WTaskDone =>
      match unfinished_tasks s with
      | 0 => Some (set_thread i WExit s)
      | S n => Some (set_thread i WLoop (set_unfinished n s))
      end
  | Some WExit => None
  end.

(** One step of the caller inside [run_threads].  [join] on a thread
    that is still running is not enabled: the caller waits. *)
Definition run_threads (s : state) : option state :=
  match main s with
  | MEnqueue =>
      let '(s', r) := enqueue (triples p) s in
      match r with
      | None => Some (set_main (MSpawn (max_workers p)) s')
      | Some e => Some (set_main (MFinally (Some e)) s')
      end
  | MSpawn 0 => Some (set_main MCheck s)
  | MSpawn (S k) => Some (set_main (MSpawn k) (spawn s))
  | MCheck =>
      if too_few_funcs p
      then Some (set_main (MFinally (Some length_error)) s)
      else Some (set_main MWhile s)
  | MWhile =>
      match unfinished_tasks s with
      | 0 => Some (set_main (MFinally None) s)
      | S _ => Some (set_main MPoll s)
      end
  | MPoll =>
      match exceptions s with
      | [] => Some (set_main MWhile s)
      | e :: es => Some (set_main (MStop e) (set_exceptions es s))
      end
  | MStop e =>
      Some (set_main (if is_queue_Empty e then MWhile else MFinally (Some e))
                     (set_keep_running false s))
  | MFinally pend =>
      match exceptions s with
      | [] => Some (set_main (MDone (result_of pend)) s)
      | e :: es => Some (set_main (MFStop pend e) (set_exceptions es s))
      end
  | MFStop pend e =>
      Some (set_main (MJoin pend e 0) (set_keep_running false s))
  | MJoin pend e i =>
      match threads s !! i with
      | None =>
          Some (set_main
                  (MDone (if is_queue_Empty e then result_of pend else Raised e))
                  s)
      | Some WExit => Some (set_main (MJoin pend e (S i)) (log_join i s))
      | Some _ => None
      end
  | MDone _ => None
  end.

(** [thread.join(self.timeout)] gives up on a thread that is still
    running. *)
Definition join_timeout (s : state) : option state :=
  match main s with
  | MJoin pend e i =>
      match threads s !! i with
      | None | Some WExit => None
      | Some _ => Some (set_main (MJoin pend e (S i)) (log_timeout i s))
      end
  | _ => None
  end.

Definition step (a : actor) (s : state) : option state :=
  match a with
  | Main => run_threads s
  | Worker i => _wrapped i s
  | Timer => join_timeout s
  end.

(** A scheduled actor that cannot move leaves the state as it is. *)
Definition next (a : actor) (s : state) : state :=
  default s (step a s).

Fixpoint exec (sch : list actor) (s : state) : state :=
  match sch with
  | [] => s
  | a :: sch' => exec sch' (next a s)
  end.

(** The first [n] choices of an unending schedule. *)
Definition prefix (sch : nat → actor) (n : nat) : list actor :=
  sch <$> seq 0 n.

Definition finished (s : state) : option result :=
  match main s with
  | MDone r => Some r
  | _ => None
  end.

(** *** Vocabulary of the properties *)

(** The states a schedule leads to from the fresh object. *)
Definition run (sch : nat → actor) (n : nat) : state :=
  exec (prefix sch n) init.

(** A queued triple whose execution returns normally. *)
Definition succeeds (d : task) : Prop :=
  fst (invoke d) = Return.

(** The task a worker has dequeued and not yet finished. *)
Definition held (w : wpc) : list task :=
  match w with
  | WRun d => [d]
  | _ => []
  end.

(** Whether a worker accounts for one unit of [unfinished_tasks]: it has
    taken a task and has not called [task_done] yet. *)
Definition busy (w : wpc) : nat :=
  match w with
  | WRun _ | WStop _ | WPut _ | WTaskDone => 1
  | _ => 0
  end.

(** Steps a worker can still take without dequeuing again. *)
Definition rank (w : wpc) : nat :=
  match w with
  | WExit => 0
  | WGet => 1
  | WLoop => 2
  | WTaskDone => 3
  | WPut _ => 4
  | WStop _ => 5
  | WRun _ => 6
  end.

Definition main_rank (s : state) : nat :=
  match main s with
  | MEnqueue => 6 * length (triples p) + 3 * max_workers p + 6
  | MSpawn k => 3 * k + 5
  | MCheck => 4
  | MWhile => match unfinished_tasks s with 0 => 2 | S _ => 3 end
  | MPoll => 3
  | MFinally _ => 1
  | _ => 0
  end.

(** A bound on the steps that are left, not counting the caller's idle
    turns around its polling loop. *)
Definition work_left (s : state) : nat :=
  6 * length (queue s) + sum_list_with rank (threads s) + main_rank s.

(** What holds of every reachable state when no task fails. *)
Definition quiet (s : state) : Prop :=
  exceptions s = [] ∧ keep_running s = true ∧ recorded s = []
  ∧ joined s = [] ∧ timed_out s = [].

Definition worker_ok (w : wpc) : Prop :=
  match w with
  | WRun d => succeeds d
  | WStop _ | WPut _ => False
  | _ => True
  end.

Definition phase_ok (s : state) : Prop :=
  match main s with
  | MEnqueue => s = init
  | MSpawn k => length (threads s) + k = max_workers p
  | MCheck | MWhile | MPoll => length (threads s) = max_workers p
  | MFinally None | MDone Returned =>
      length (threads s) = max_workers p ∧ unfinished_tasks s = 0
  | _ => False
  end.

Definition accounted (s : state) : Prop :=
  main s ≠ MEnqueue →
  unfinished_tasks s = length (queue s) + sum_list_with busy (threads s)
  ∧ calls s ++ omap (λ d, snd (invoke d)) ((threads s ≫= held) ++ queue s)
      ≡ₚ omap (λ d, snd (invoke d)) (triples p).

Definition inv (s : state) : Prop :=
  quiet s ∧ phase_ok s ∧ accounted s
  ∧ Forall worker_ok (threads s) ∧ Forall succeeds (queue s)
  ∧ (WExit ∈ threads s → queue s = []).

(** The call the [i]-th callable is meant to receive: its own entry of
    [args_list] and of [kwargs_list], or nothing where a list is
    shorter. *)
Definition paired_call (i : nat) (f : string) : call :=
  Call f (star (default fillvalue (args_list p !! i)))
         (default [] (starstar (default fillvalue (kwargs_list p !! i)))).

Definition paired_calls : list call :=
  imap paired_call (funcs p).

(** The actors of this invocation. *)
Definition live (a : actor) : Prop :=
  match a with
  | Main => True
  | Worker i => i < max_workers p
  | Timer => False
  end.

(** Every live actor is scheduled again and again. *)
Definition fair (sch : nat → actor) : Prop :=
  ∀ a n, live a → ∃ m, n ≤ m ∧ sch m = a.

(** An actor whose next step brings the run closer to its end. *)
Definition helpful (a : actor) (s : state) : Prop :=
  match a with
  | Main =>
      match main s with
      | MDone _ => False
      | MWhile | MPoll => unfinished_tasks s = 0
      | _ => True
      end
  | Worker i => ∃ w, threads s !! i = Some w ∧ w ≠ WExit
  | Timer => False
  end.

(** *** Exhaustive exploration of small instances *)

Definition actors_upto (n : nat) : list actor :=
  Main :: Timer :: (Worker <$> seq 0 n).

(** One round of exploration: every state together with its successors
    under the first [n] workers, the caller and the timer. *)
Definition expand (n : nat) (ss : list state) : list state :=
  remove_dups (ss ++ (ss ≫= λ s, (λ a, next a s) <$> actors_upto n)).

(** [ss] has at most [n] workers in each state and is closed under every
    step. *)
Definition closed (n : nat) (ss : list state) : bool :=
  forallb (λ s,
    (length (threads s) <=? n)
    && forallb (λ a, bool_decide (next a s ∈ ss)) (actors_upto n)) ss.

(** The states found after [k] rounds from the fresh object. *)
Definition reach (n k : nat) : list state :=
  Nat.iter k (expand n) [init].


End Semantics.

(** ** What holds of every run *)

Section Reachable.

Variable body : string → list pyval → list (string * pyval) → outcome.
Variable p : Parallel.

(** The call a queued triple leads to, if its callable is entered. *)
Definition call_of (d : task) : option call :=
  snd (invoke body d).

(** The calls of the triples, in queue order. *)
Definition due_calls : list call :=
  omap call_of (triples p).

(** Threads are started by the second loop of [run_threads] only. *)
Definition started_ok (s : state) : Prop :=
  match main s with
  | MEnqueue => s = init
  | MSpawn k => length (threads s) + k = max_workers p
  | _ => length (threads s) ≤ max_workers p
  end.

(** [unfinished_tasks] covers what is queued and what workers hold. *)
Definition counted (s : state) : Prop :=
  length (queue s) + sum_list_with busy (threads s) ≤ unfinished_tasks s.

(** The calls made, those in progress and those still queued are calls of
    the triples, none of them twice. *)
Definition once (s : state) : Prop :=
  calls s ++ omap call_of ((threads s ≫= held) ++ queue s) ⊆+ due_calls.

Definition sound (s : state) : Prop :=
  started_ok s ∧ counted s ∧ once s.

(** The two errors [run_threads] raises of its own. *)
Definition own_error (e : exc) : Prop :=
  e = text_error ∨ e = length_error.

(** Where the exception the caller holds comes from, and what the caller
    knows when it holds none. *)
Definition traced (s : state) : Prop :=
  exceptions s ⊆ recorded s
  ∧ match main s with
  | MEnqueue | MSpawn _ | MCheck | MWhile | MPoll =>
      exceptions s = recorded s
  | MStop e | MFStop _ e | MJoin _ e _ => e ∈ recorded s
  | MFinally None => exceptions s = recorded s ∧ unfinished_tasks s = 0
  | MFinally (Some e) => e ∈ recorded s ∨ own_error e
  | MDone Returned => recorded s = [] ∧ unfinished_tasks s = 0
  | MDone (Raised e) => e ∈ recorded s ∨ own_error e
    end.

Definition no_Empty (l : list exc) : Prop :=
  Forall (λ e, is_queue_Empty e = false) l.

(** Workers that can still complete a call once [keep_running] is false:
    those past the test of line 78. *)
Definition may_still_call (w : wpc) : nat :=
  match w with
  | WGet | WRun _ => 1
  | _ => 0
  end.

(** Workers that stand between the test of line 78 and the [get] of
    line 80: they dequeue without looking at [keep_running] again. *)
Definition past_test (w : wpc) : nat :=
  match w with
  | WGet => 1
  | _ => 0
  end.

(** With one worker the order is that of the queue. *)
Definition in_order (s : state) : Prop :=
  calls s ++ omap call_of ((threads s ≫= held) ++ queue s)
    `prefix_of` due_calls.

End Reachable.

(** ** Runs in which tasks may fail *)

Section Ending.

Variable body : string → list pyval → list (string * pyval) → outcome.
Variable p : Parallel.

(** A task that [_wrapped] can deal with: it returns, or it raises an
    [Exception] that is not a [queue.Empty]. *)
Definition handled (d : task) : Prop :=
  match fst (invoke body d) with
  | Return => True
  | Raise e => is_Exception e = true ∧ is_queue_Empty e = false
  end.

Definition worker_handled (w : wpc) : Prop :=
  match w with
  | WRun d => handled d
  | WStop e | WPut e => is_queue_Empty e = false
  | _ => True
  end.

(** The caller has not taken an exception from [self.exceptions] yet. *)
Definition polling (m : mpc) : Prop :=
  match m with
  | MEnqueue | MSpawn _ | MCheck | MWhile | MPoll => True
  | _ => False
  end.

(** The threads are started by the second loop, all of them before the
    caller polls; the exception the caller has taken from the queue is not
    a [queue.Empty]; with no exception in flight the caller is past its
    loop only when no task is unfinished. *)
Definition all_started (s : state) : Prop :=
  match main s with
  | MEnqueue => s = init
  | MSpawn k => length (threads s) + k = max_workers p
  | MCheck | MWhile | MPoll => length (threads s) = max_workers p
  | MStop e | MFStop _ e | MJoin _ e _ =>
      is_queue_Empty e = false ∧ length (threads s) ≤ max_workers p
  | MFinally None | MDone Returned =>
      unfinished_tasks s = 0 ∧ length (threads s) ≤ max_workers p
  | MFinally (Some _) | MDone (Raised _) =>
      length (threads s) ≤ max_workers p
  end.

(** What holds of every reachable state when every task is [handled]:
    [unfinished_tasks] is exactly what is queued or held, no
    [queue.Empty] is recorded, the stop signal is explained by an
    exception that the caller can still find, and a worker only ends when
    the queue is empty or the stop signal is set. *)
Definition steady (s : state) : Prop :=
  all_started s
  ∧ unfinished_tasks s = length (queue s) + sum_list_with busy (threads s)
  ∧ Forall worker_handled (threads s)
  ∧ Forall handled (queue s)
  ∧ Forall (λ e, is_queue_Empty e = false) (exceptions s)
  ∧ (keep_running s = false → polling (main s) →
     exceptions s ≠ [] ∨ ∃ e, WPut e ∈ threads s)
  ∧ (WExit ∈ threads s → queue s = [] ∨ keep_running s = false).

(** Steps a worker can still take without dequeuing again, with room for
    what its [exceptions.put] adds to the caller's way. *)
Definition steps (w : wpc) : nat :=
  match w with
  | WExit => 0
  | WGet => 1
  | WLoop => 2
  | WTaskDone => 3
  | WPut _ => 5
  | WStop _ => 6
  | WRun _ => 7
  end.

(** Steps the caller can still take, not counting its idle turns around
    the polling loop and its waiting in [join]. *)
Definition caller_steps (s : state) : nat :=
  match main s with
  | MEnqueue => 7 * length (triples p) + 4 * max_workers p + 9
  | MSpawn k => 3 * k + max_workers p + 8
  | MCheck => max_workers p + 7
  | MWhile =>
      match unfinished_tasks s, exceptions s with
      | 0, _ => max_workers p + 4
      | S _, [] => max_workers p + 5
      | S _, _ :: _ => max_workers p + 6
      end
  | MPoll => max_workers p + 5
  | MStop _ => max_workers p + 4
  | MFinally _ => max_workers p + 3
  | MFStop _ _ => max_workers p + 2
  | MJoin _ _ i => max_workers p - i + 1
  | MDone _ => 0
  end.

Definition steps_left (s : state) : nat :=
  7 * length (queue s) + sum_list_with steps (threads s) + caller_steps s.

(** An actor whose next step brings the run closer to its end: a worker
    that has not ended; the caller unless it polls in vain or waits for a
    thread. *)
Definition can_help (a : actor) (s : state) : Prop :=
  match a with
  | Main =>
      match main s with
      | MDone _ => False
      | MWhile | MPoll => unfinished_tasks s = 0 ∨ exceptions s ≠ []
      | MJoin _ _ i => threads s !! i = None ∨ threads s !! i = Some WExit
      | _ => True
      end
  | Worker i => ∃ w, threads s !! i = Some w ∧ w ≠ WExit
  | Timer => False
  end.

End Ending.

(** ** Schedules and instances used in the examples *)

(** How often a schedule lets the caller of [run_threads] move. *)
Definition caller_turns (sch : list actor) : nat :=
  length (filter (λ a, a = Main) sch).

(** The caller and the first [k] workers take turns. *)
Definition round_robin (k : nat) (n : nat) : actor :=
  match n mod (S k) with
  | 0 => Main
  | S i => Worker i
  end.

(** Callables that return whatever they are called with. *)
Definition returns : string → list pyval → list (string * pyval) → outcome :=
  λ _ _ _, Return.

(** What the callables of the examples do, by name; every other name
    returns normally. *)
Definition demo (f : string) (_ : list pyval) (_ : list (string * pyval))
    : outcome :=
  if String.eqb f "first" then Raise (Exc (OtherError "RuntimeError") "first")
  else if String.eqb f "second" then Raise (Exc (OtherError "RuntimeError") "second")
  else if String.eqb f "boom" then Raise (Exc (OtherError "RuntimeError") "boom")
  else if String.eqb f "empty" then Raise (Exc QueueEmpty "")
  else Return.

(** Two callables that both fail, two workers. *)
Definition two_failures : Parallel :=
  {| funcs := ["first"; "second"]; args_list := []; kwargs_list := [];
     max_workers := 2 |}.

(** Both workers have dequeued and failed, in this order, before the
    caller polls; then the caller runs to its end. *)
Definition both_fail_before_poll : list actor :=
  replicate 5 Main
  ++ [Worker 0; Worker 0; Worker 1; Worker 1]
  ++ [Worker 0; Worker 0; Worker 0; Worker 1; Worker 1; Worker 1]
  ++ replicate 5 Main
  ++ [Worker 0; Worker 0; Worker 1; Worker 1]
  ++ replicate 3 Main.

(** One callable that returns, one worker. *)
Definition one_task : Parallel :=
  {| funcs := ["f1"]; args_list := []; kwargs_list := []; max_workers := 1 |}.

(** The same callable and no worker at all. *)
Definition no_workers : Parallel :=
  {| funcs := ["f1"]; args_list := []; kwargs_list := []; max_workers := 0 |}.

(** The worker completes the task, the caller then runs to its end. *)
Definition task_then_caller : list actor :=
  replicate 4 Main ++ replicate 4 (Worker 0) ++ replicate 2 Main.

(** A callable that fails and one that is still running, two workers. *)
Definition boom_and_slow : Parallel :=
  {| funcs := ["boom"; "slow"]; args_list := []; kwargs_list := [];
     max_workers := 2 |}.

(** Both tasks are dequeued, the first fails, the caller polls and runs
    to its end while the second task is still running. *)
Definition fail_while_running : list actor :=
  replicate 5 Main
  ++ [Worker 0; Worker 0; Worker 1; Worker 1]
  ++ [Worker 0; Worker 0; Worker 0]
  ++ replicate 4 Main.

(** Both tasks are dequeued, the first fails and its worker clears
    [keep_running]. *)
Definition failure_sets_stop : list actor :=
  replicate 5 Main
  ++ [Worker 0; Worker 0; Worker 1; Worker 1]
  ++ [Worker 0; Worker 0].

(** A failing callable, a slow one and a third, two workers. *)
Definition boom_slow_extra : Parallel :=
  {| funcs := ["boom"; "slow"; "extra"]; args_list := []; kwargs_list := [];
     max_workers := 2 |}.

(** The two workers dequeue [boom] and [slow]; [boom] fails and its
    worker clears [keep_running] while [slow] is running and [extra] is
    still queued. *)
Definition stop_with_work_left : list actor :=
  replicate 4 Main
  ++ [Worker 0; Worker 0; Worker 1; Worker 1]
  ++ [Worker 0; Worker 0].

(** One callable that raises [queue.Empty], one worker. *)
Definition raises_empty : Parallel :=
  {| funcs := ["empty"]; args_list := []; kwargs_list := [];
     max_workers := 1 |}.

(** The worker runs the task to its failure and ends, the caller follows. *)
Definition worker_then_caller : list actor :=
  replicate 4 Main ++ replicate 7 (Worker 0) ++ replicate 6 Main.

(** The same callable followed by one that returns, one worker. *)
Definition empty_then_more : Parallel :=
  {| funcs := ["empty"; "f2"]; args_list := []; kwargs_list := [];
     max_workers := 1 |}.

(** One callable, two argument sets, one worker. *)
Definition too_many_args : Parallel :=
  {| funcs := ["f1"];
     args_list := [OSeq [VInt 1]; OSeq [VInt 2]];
     kwargs_list := [];
     max_workers := 1 |}.

(** The worker is started and calls [f1] before the caller reaches the
    length check. *)
Definition call_before_check : list actor :=
  replicate 3 Main ++ replicate 3 (Worker 0) ++ replicate 2 Main.

(** The worker goes on to the padded triple, fails on it and records the
    failure before the caller reaches the length check. *)
Definition fail_before_check : list actor :=
  replicate 3 Main ++ replicate 9 (Worker 0) ++ replicate 4 Main
  ++ replicate 2 (Worker 0) ++ replicate 2 Main.

(** A text value as the second argument set. *)
Definition text_args : Parallel :=
  {| funcs := ["f1"; "f2"];
     args_list := [OSeq [VInt 1]; OStr "abc"];
     kwargs_list := [];
     max_workers := 2 |}.

(** Three callables, one argument set. *)
Definition one_arg_set : Parallel :=
  {| funcs := ["f1"; "f2"; "f3"];
     args_list := [OSeq [VInt 1]];
     kwargs_list := [];
     max_workers := 3 |}.

(** The worker has run the task and is about to mark it done. *)
Definition before_task_done : list actor :=
  replicate 4 Main ++ replicate 3 (Worker 0).

(** Three callables, one argument each, a single worker. *)
Definition serial_tasks : Parallel :=
  {| funcs := ["f1"; "f2"; "f3"];
     args_list := [OSeq [VInt 1]; OSeq [VInt 2]; OSeq [VInt 3]];
     kwargs_list := [];
     max_workers := 1 |}.

(** Three callables, one argument each, two workers. *)
Definition three_tasks : Parallel :=
  {| funcs := ["f1"; "f2"; "f3"];
     args_list := [OSeq [VInt 1]; OSeq [VInt 2]; OSeq [VInt 3]];
     kwargs_list := [];
     max_workers := 2 |}.

(** ** The [locker] decorator *)

Module Locker.

(** How a call of the wrapped function ends. *)
Inductive ended :=
  | Returns (v : pyval)
  | Raises (e : exc).

(** Where a thread stands inside [_wrapper] (lines 258-263).  Locks are
    named by the order of their creation. *)
Inductive pc :=
  | Check                        (* line 260: n not in LOCKS *)
  | Create                       (* line 261: LOCKS[n] = threading.Lock() *)
  | Lookup                       (* line 262: LOCKS[n] *)
  | Acquire (l : nat)            (* line 262: with ...: entry *)
  | Body (l : nat)               (* line 263: func is running *)
  | Release (l : nat) (r : ended) (* line 262: with ...: exit *)
  | Done (r : ended).            (* [_wrapper] has returned or raised *)

(** A thread that calls the wrapper of a function named [fname] whose
    body ends with [fends]. *)
Record thread := Thread {
  fname : string;
  fends : ended;
  at_pc : pc
}.

(** The module-level dict [LOCKS] (line 32), the locks created so far
    with [true] for a held lock, and the threads. *)
Record state := State {
  LOCKS : gmap string nat;
  locks : list bool;
  threads : list thread
}.

Definition move (i : nat) (t : thread) (to : pc) (s : state) : state :=
  State (LOCKS s) (locks s) (<[i := Thread (fname t) (fends t) to]> (threads s)).

(** One step of thread [i] inside [_wrapper].  Acquiring a held lock is
    not enabled: the thread waits. *)
Definition _wrapper (i : nat) (s : state) : option state :=
  match threads s !! i with
  | None => None
  | Some t =>
      match at_pc t with
      | Check =>
          match LOCKS s !! fname t with
          | None => Some (move i t Create s)
          | Some _ => Some (move i t Lookup s)
          end
      | Create =>
          Some (move i t Lookup
                  (State (<[fname t := length (locks s)]> (LOCKS s))
                         (locks s ++ [false]) (threads s)))
      | Lookup =>
          match LOCKS s !! fname t with
          | None => Some (move i t (Done (Raises (Exc (OtherError "KeyError") (fname t)))) s)
          | Some l => Some (move i t (Acquire l) s)
          end
      | Acquire l =>
          match locks s !! l with
          | Some false =>
              Some (move i t (Body l)
                      (State (LOCKS s) (<[l := true]> (locks s)) (threads s)))
          | _ => None
          end
      | Body l => Some (move i t (Release l (fends t)) s)
      | Release l r =>
          Some (move i t (Done r)
                  (State (LOCKS s) (<[l := false]> (locks s)) (threads s)))
      | Done _ => None
      end
  end.

Fixpoint exec (sch : list nat) (s : state) : state :=
  match sch with
  | [] => s
  | i :: sch' => exec sch' (default s (_wrapper i s))
  end.

(** Threads whose wrapped function is running. *)
Definition in_body (s : state) : list nat :=
  omap (λ '(i, t), match at_pc t with Body _ => Some i | _ => None end)
       (imap pair (threads s)).

(** Two first calls of wrappers of functions named ["mount"], with an
    empty registry. *)
Definition two_first_calls : state :=
  State ∅ [] [Thread "mount" (Returns (VInt 1)) Check;
              Thread "mount" (Returns (VInt 2)) Check].

(** Both threads find the name missing before either stores a lock. *)
Definition both_check_first : list nat :=
  [0; 1; 0; 0; 0; 1; 1; 1].

(** One call after the other. *)
Definition one_after_the_other : list nat :=
  replicate 6 0 ++ replicate 6 1.

End Locker.

(** ** What holds of every run through [locker] *)

(** Whether a thread is inside the [with] block of lock [l]. *)
Definition holds (l : nat) (t : Locker.thread) : nat :=
  match Locker.at_pc t with
  | Locker.Body l' | Locker.Release l' _ => if decide (l' = l) then 1 else 0
  | _ => 0
  end.

(** Whether the wrapped function of a thread is running. *)
Definition in_its_body (t : Locker.thread) : Prop :=
  ∃ l, Locker.at_pc t = Locker.Body l.

(** A thread that has not entered [_wrapper] yet, or has left it with
    what its function did. *)
Definition at_rest (t : Locker.thread) : Prop :=
  Locker.at_pc t = Locker.Check
  ∨ Locker.at_pc t = Locker.Done (Locker.fends t).

(** A state between calls: every thread at rest, every lock free, every
    entry of [LOCKS] an existing lock. *)
Definition between_calls (s : Locker.state) : Prop :=
  Forall at_rest (Locker.threads s)
  ∧ Forall (λ b, b = false) (Locker.locks s)
  ∧ ∀ n l, Locker.LOCKS s !! n = Some l → l < length (Locker.locks s).

Definition thread_ok (s : Locker.state) (t : Locker.thread) : Prop :=
  match Locker.at_pc t with
  | Locker.Check | Locker.Create => True
  | Locker.Lookup => is_Some (Locker.LOCKS s !! Locker.fname t)
  | Locker.Acquire l | Locker.Body l => l < length (Locker.locks s)
  | Locker.Release l r => l < length (Locker.locks s) ∧ r = Locker.fends t
  | Locker.Done r => r = Locker.fends t
  end.

Definition locker_inv (s : Locker.state) : Prop :=
  (∀ n l, Locker.LOCKS s !! n = Some l → l < length (Locker.locks s))
  ∧ (∀ (l : nat) (b : bool), Locker.locks s !! l = Some b →
       sum_list_with (holds l) (Locker.threads s) = if b then 1 else 0)
  ∧ Forall (thread_ok s) (Locker.threads s).

(** With every name already in [LOCKS]: the registry does not change and
    each thread uses the lock of its name. *)
Definition uses_registry (reg : gmap string nat) (t : Locker.thread) : Prop :=
  is_Some (reg !! Locker.fname t)
  ∧ match Locker.at_pc t with
    | Locker.Create => False
    | Locker.Acquire l | Locker.Body l | Locker.Release l _ =>
        reg !! Locker.fname t = Some l
    | _ => True
    end.

Definition registry_kept (reg : gmap string nat) (n : nat)
    (s : Locker.state) : Prop :=
  Locker.LOCKS s = reg ∧ length (Locker.locks s) = n
  ∧ Forall (uses_registry reg) (Locker.threads s).

(** Two calls of wrappers of functions named ["mount"] when an earlier
    call has left the lock of that name in [LOCKS]. *)
Definition registry_filled : Locker.state :=
  Locker.State {["mount" := 0]} [false]
    [Locker.Thread "mount" (Locker.Returns (VInt 1)) Locker.Check;
     Locker.Thread "mount" (Locker.Returns (VInt 2)) Locker.Check].

(** ** Thread names *)

(** Whether a name contains ["-"]. *)
Fixpoint has_dash (s : string) : bool :=
  match s with
  | EmptyString => false
  | String c s' => Ascii.eqb c "-"%char || has_dash s'
  end.

(** [s.split('-')[-1]]: what follows the last ["-"], or all of [s]. *)
Fixpoint last_field (s : string) : string :=
  match s with
  | EmptyString => EmptyString
  | String c s' =>
      if has_dash s' then last_field s'
      else if Ascii.eqb c "-"%char then s' else String c s'
  end.

(** Lines 68-73: the name given to the current thread while it runs a
    function of module [modl] and name [fname]. *)
Definition _set_current_thread_name_from_func_name
    (modl fname current : string) : string :=
  String.append "Parallel-"
    (String.append modl
       (String.append "."
          (String.append fname (String.append "-" (last_field current))))).

(** Lines 76-77: the name a worker thread gives itself when it starts. *)
Definition worker_name (current : string) : string :=
  String.append "Parallel-Worker-" current.

Section Names.

Variable body : string → list pyval → list (string * pyval) → outcome.

(** [func.__module__] of each callable. *)
Variable modl : string → string.

(** Line 89: the name of the thread once the renaming for the dequeued
    triple is over.  The fill value has no [__module__]: the renaming
    raises before it assigns, and the name stays. *)
Definition renamed (d : task) (name : string) : string :=
  match d with
  | (Func f, _, _) => _set_current_thread_name_from_func_name (modl f) f name
  | (NotFunc _, _, _) => name
  end.

(** Lines 78-100 for the name of the thread that runs them: the names
    it has, one after the other, while it works through the triples [ds]
    that it dequeues.  [orig_name] (line 88) is the name at the head of
    the loop; line 93 puts it back after a call that returned.  A call
    that raised does not reach line 93, and the thread runs no further
    triple: either [keep_running] is cleared (line 95) or the thread has
    died. *)
Fixpoint names_in_loop (name : string) (ds : list task) : list string :=
  match ds with
  | [] => []
  | d :: ds' =>
      match fst (invoke body d) with
      | Return => renamed d name :: name :: names_in_loop name ds'
      | Raise _ => [renamed d name]
      end
  end.

(** Lines 75-100: the names of a thread that starts [_wrapped] under the
    name [current]. *)
Definition _wrapped_names (current : string) (ds : list task) : list string :=
  worker_name current :: names_in_loop (worker_name current) ds.

End Names.

(** ** The command line: [src/dbmp/main.py] and [exe] of [utils.py] *)

Module Cli.

(** What the program prints, runs and asks of its collaborators
    ([dfs_sdk], [dbmp.volume], [dbmp.mount], [dbmp.fio], [dbmp.metrics]),
    in the order in which it does so. *)
Inductive event :=
  | Print (s : string)
  | PrintConfig
  | Shell (cmd : string)
  | ApiListAppInstances
  | ApiGetAccessVip
  | ListVolumes (host vol : string) (detail : bool)
  | ListTemplates (detail : bool)
  | ListMounts (host vol : string) (detail multipath : bool)
  | CleanMounts (vol dir : string) (workers : Z)
  | CleanMountsRemote (host vol dir : string) (workers : Z)
  | CleanVolumes (vol : string) (workers : Z)
  | CreateVolumes (host vol : string) (workers : Z)
  | MountVolumes (vols : list string) (multipath : bool)
      (fstype fsargs dir : string) (workers : Z) (login_only : bool)
  | MountVolumesRemote (host : string) (vols : list string) (multipath : bool)
      (fstype fsargs dir : string) (workers : Z) (login_only : bool)
  | GenFio (workload : option string) (devs : list string)
  | GenFioRemote (host : string) (workload : option string) (devs : list string)
  | GetMetrics (mtypes vols : list string) (interval timeout : Z)
      (op : option string)
  | WriteMetrics (data file : string).

(** One entry of [av['network_paths']]. *)
Record path := Path { pname : option string; pip : option string }.

(** What the collaborators answer.  [sh] is
    [subprocess.check_output(cmd, shell=True)]: the output, or the text of
    the [CalledProcessError].  [api_list] is the error of
    [api.app_instances.list()], if it raises.  A falsy value of
    [create_volumes] is the empty list, a falsy value of [get_metrics] is
    [None].  [int_of] is [int]: [None] where it raises [ValueError]. *)
Record world := World {
  sh : string → string + string;
  verbose : bool;
  mgmt_ip : string;
  api_list : option string;
  network_paths : list path;
  create_volumes : string → string → list string;
  mount_volumes : list string → list string;
  mount_volumes_remote : string → list string → list string;
  get_metrics : list string → list string → Z → Z → option string
                → option string;
  int_of : string → option Z
}.

(** The parsed arguments (lines 157-229). *)
Record args := Args {
  run_host : string;
  health : bool;
  list_ : string;
  volume : list string;
  login : bool;
  logout : bool;
  mount : bool;
  unmount : bool;
  clean : bool;
  workers : Z;
  no_multipath : bool;
  fstype : string;
  fsargs : string;
  directory : string;
  fio : bool;
  fio_workload : option string;
  metrics : option string;
  metrics_type : list string;
  metrics_op : option string;
  metrics_out_file : string
}.

Inductive ended :=
  | Exit (code : Z)
  | Crash (e : exc).

Definition SUCCESS : Z := 0.
Definition FAILURE : Z := 1.

(** [needle in hay] for two strings. *)
Fixpoint contains (needle hay : string) : bool :=
  String.prefix needle hay
  || match hay with
     | EmptyString => false
     | String _ hay' => contains needle hay'
     end.

(** [s.split(',')]. *)
Fixpoint split_comma (s : string) : list string :=
  match s with
  | EmptyString => [EmptyString]
  | String c s' =>
      if Ascii.eqb c ","%char then EmptyString :: split_comma s'
      else match split_comma s' with
           | [] => [String c EmptyString]
           | x :: xs => String c x :: xs
           end
  end.

(** Truth value of a string or [None]. *)
Definition truthy (o : option string) : bool :=
  match o with
  | None | Some EmptyString => false
  | Some _ => true
  end.

(** [dprint] ([utils.py], lines 252-254). *)
Definition dprint (w : world) (s : string) : list event :=
  if verbose w then [Print s] else [].

(** [exe] ([utils.py], lines 158-169): the events, and the output,
    [None], or the [EnvironmentError]. *)
Definition wrapped (cmd : string) : string :=
  String.append "{ " (String.append cmd "; } 2>/dev/null").

Definition exe (w : world) (cmd : string) (fail_ok : bool)
    : list event * (option string + exc) :=
  let cmd' := wrapped cmd in
  let start := dprint w (String.append "Running command: " cmd') ++ [Shell cmd'] in
  match sh w cmd' with
  | inl out => (start, inl (Some out))
  | inr err =>
      if fail_ok then (start ++ dprint w err, inl None)
      else (start,
            inr (Exc (OtherError "EnvironmentError")
                   (String.append "Encountered error running command: "
                      (String.append cmd' (String.append ", error : " err)))))
  end.

Definition ping (ip : string) : string :=
  String.append "ping -c 1 -w 1 " ip.

(** Lines 50-57: one round of the loop over the network paths. *)
Definition check_path (w : world) (np : path) : list event * bool :=
  if truthy (pip np) then
    let ip := default EmptyString (pip np) in
    match exe w (ping ip) false with
    | (ev, inl _) => (ev, true)
    | (ev, inr _) =>
        (ev ++ [Print (String.append "Could not ping: "
                         (String.append (default "None" (pname np))
                            (String.append " " ip)))],
         false)
    end
  else ([], true).

(** Lines 48-57: [npass] after the loop. *)
Fixpoint check_paths (w : world) (nps : list path) (npass : bool)
    : list event * bool :=
  match nps with
  | [] => ([], npass)
  | np :: nps' =>
      let '(ev, ok) := check_path w np in
      let '(ev', r) := check_paths w nps' (npass && ok) in
      (ev ++ ev', r)
  end.

(** [run_health] (lines 36-61). *)
Definition run_health (w : world) : list event * bool :=
  match exe w (ping (mgmt_ip w)) false with
  | (ev1, inr _) =>
      (ev1 ++ [Print (String.append "Could not ping mgmt_ip: " (mgmt_ip w))],
       false)
  | (ev1, inl _) =>
      match api_list w with
      | Some e =>
          (ev1 ++ [ApiListAppInstances;
                   Print (String.append "Could not connect to cluster " e)],
           false)
      | None =>
          let '(ev2, npass) := check_paths w (network_paths w) true in
          let ev := ev1 ++ [ApiListAppInstances; ApiGetAccessVip] ++ ev2 in
          if npass
          then (ev ++ [Print "Health Check Completed Successfully"], true)
          else (ev, false)
      end
  end.

(** Lines 128-149: the [--metrics] part, reached with a truthy
    [args.metrics]. *)
Definition metrics_part (w : world) (a : args) (m : string)
    : list event * ended :=
  let bad :=
    ([Print "--metrics argument must be in format '--metrics i,t' where'i' is the interval in seconds and 't' is the timeout in seconds.  Both must be positive integers >= 1"],
     Exit FAILURE) in
  match int_of w <$> split_comma m with
  | [Some interval; Some timeout] =>
      if (interval <? 1)%Z || (timeout <? 1)%Z then bad
      else
        let mtypes :=
          match metrics_type a with
          | [] => ["iops_write"]
          | ts => ts
          end in
        let ev := [GetMetrics mtypes (volume a) interval timeout (metrics_op a)] in
        match get_metrics w mtypes (volume a) interval timeout (metrics_op a) with
        | Some data => (ev ++ [WriteMetrics data (metrics_out_file a)], Exit SUCCESS)
        | None => (ev ++ [Print "No data recieved from metrics"], Exit FAILURE)
        end
  | _ => bad
  end.

(** Lines 102-104: [vols] is what [create_volumes] returned for the last
    [--volume]; the volumes of the earlier ones are created and
    forgotten.  Without a [--volume], [vols] stays [None]. *)
Definition created (w : world) (a : args) : list string :=
  default [] (create_volumes w (run_host a) <$> last (volume a)).

Definition create_events (a : args) : list event :=
  (λ vol, CreateVolumes (run_host a) vol (workers a)) <$> volume a.

Definition is_local (a : args) : bool :=
  String.eqb (run_host a) "local".

(** Lines 107 and 111: [(args.mount or args.login) and vols]. *)
Definition wanted (w : world) (a : args) : bool :=
  (mount a || login a) && negb (bool_decide (created w a = [])).

(** Lines 106-114. *)
Definition mount_events (w : world) (a : args) : list event :=
  let login_only := negb (mount a) && login a in
  if wanted w a then
    if is_local a
    then [MountVolumes (created w a) (negb (no_multipath a)) (fstype a)
            (fsargs a) (directory a) (workers a) login_only]
    else [MountVolumesRemote (run_host a) (created w a)
            (negb (no_multipath a)) (fstype a) (fsargs a) (directory a)
            (workers a) login_only]
  else [].

(** [dev_or_folders], bound only when one of the two branches of lines
    107-114 is taken. *)
Definition dev_or_folders (w : world) (a : args) : option (list string) :=
  if wanted w a then
    Some (if is_local a then mount_volumes w (created w a)
          else mount_volumes_remote w (run_host a) (created w a))
  else None.

(** Lines 116-120. *)
Definition which_events (w : world) (a : args) : list event :=
  if fio a then
    match exe w "which fio" false with
    | (ev, inl _) => ev
    | (ev, inr _) => ev ++ [Print "FIO is not installed"]
    end
  else [].

Definition unbound : exc :=
  Exc (OtherError "UnboundLocalError")
      "local variable 'dev_or_folders' referenced before assignment".

(** Lines 121-126: the events, and the error if the name is unbound. *)
Definition fio_stage (w : world) (a : args) : list event * option exc :=
  if fio a then
    if negb (mount a) && negb (login a)
    then ([Print "--mount or --login MUST be specified when using --fio"], None)
    else match dev_or_folders w a with
         | None => ([], Some unbound)
         | Some d =>
             if is_local a then ([GenFio (fio_workload a) d], None)
             else ([GenFioRemote (run_host a) (fio_workload a) d], None)
         end
  else ([], None).

(** Lines 128-150. *)
Definition metrics_stage (w : world) (a : args) : list event * ended :=
  if truthy (metrics a)
  then metrics_part w a (default EmptyString (metrics a))
  else ([], Exit SUCCESS).

(** Lines 102-150: creating, mounting, fio and metrics. *)
Definition work_part (w : world) (a : args) : list event * ended :=
  let before := create_events a ++ mount_events w a ++ which_events w a in
  match fio_stage w a with
  | (ev, Some e) => (before ++ ev, Crash e)
  | (ev, None) =>
      (before ++ ev ++ fst (metrics_stage w a), snd (metrics_stage w a))
  end.

(** Lines 86-100: unmounting, logging out and cleaning. *)
Definition clean_mounts_of (a : args) (vol : string) : event :=
  if String.eqb (run_host a) "local"
  then CleanMounts vol (directory a) (workers a)
  else CleanMountsRemote (run_host a) vol (directory a) (workers a).

Definition clean_part (w : world) (a : args) : list event * ended :=
  let any := unmount a || logout a || clean a in
  let ev_mounts : list event * bool :=
    if any then
      if unmount a then
        match volume a with
        | [] => ([], false)
        | vol :: _ => ([clean_mounts_of a vol], true)
        end
      else (clean_mounts_of a <$> volume a, false)
    else ([], false) in
  match ev_mounts with
  | (ev, true) => (ev, Exit SUCCESS)
  | (ev, false) =>
      if clean a
      then (ev ++ ((λ vol, CleanVolumes vol (workers a)) <$> volume a),
            Exit SUCCESS)
      else if logout a then (ev, Exit SUCCESS)
      else let '(ev', r) := work_part w a in (ev ++ ev', r)
  end.

(** [main] (lines 64-150). *)
Definition main (w : world) (a : args) : list event * ended :=
  let start := [Print "Using Config:"; PrintConfig] in
  let detail := contains "detail" (list_ a) in
  if health a then
    let '(ev, ok) := run_health w in
    (start ++ ev, Exit (if ok then SUCCESS else FAILURE))
  else if contains "volumes" (list_ a) then
    (start ++ ((λ vol, ListVolumes (run_host a) vol detail) <$> volume a),
     Exit SUCCESS)
  else
    let ev_list : list event * bool :=
      if contains "templates" (list_ a) then ([ListTemplates detail], false)
      else if contains "mounts" (list_ a)
      then ((λ vol, ListMounts (run_host a) vol detail (negb (no_multipath a)))
              <$> volume a, true)
      else ([], false) in
    match ev_list with
    | (ev, true) => (start ++ ev, Exit SUCCESS)
    | (ev, false) =>
        let '(ev', r) := clean_part w a in (start ++ ev ++ ev', r)
    end.

(** *** Vocabulary of the properties *)

(** The commands run, in order. *)
Definition shells (ev : list event) : list string :=
  omap (λ e, match e with Shell c => Some c | _ => None end) ev.

(** Whether [ping] of an address succeeds. *)
Definition reachable (w : world) (ip : string) : Prop :=
  ∃ out, sh w (wrapped (ping ip)) = inl out.

(** The addresses of the network paths that have one. *)
Definition path_ips (w : world) : list string :=
  omap (λ np, if truthy (pip np) then pip np else None) (network_paths w).

(** Events of creating, mounting, running fio and taking metrics. *)
Definition is_work (e : event) : bool :=
  match e with
  | CreateVolumes _ _ _ | MountVolumes _ _ _ _ _ _ _
  | MountVolumesRemote _ _ _ _ _ _ _ _ | GenFio _ _ | GenFioRemote _ _ _
  | GetMetrics _ _ _ _ _ | WriteMetrics _ _ => true
  | _ => false
  end.

Definition is_clean_mounts (e : event) : bool :=
  match e with
  | CleanMounts _ _ _ | CleanMountsRemote _ _ _ _ => true
  | _ => false
  end.

Definition is_clean_volumes (e : event) : bool :=
  match e with
  | CleanVolumes _ _ => true
  | _ => false
  end.

(** Unmounting and deleting. *)
Definition cleaning (e : event) : bool :=
  is_clean_mounts e || is_clean_volumes e.

(** Printing, shell commands and the two API calls of the health check. *)
Definition is_talk (e : event) : bool :=
  match e with
  | Print _ | PrintConfig | Shell _ | ApiListAppInstances | ApiGetAccessVip =>
      true
  | _ => false
  end.

(** Whether [main] returns before it comes to unmounting: after the
    health check, after listing volumes or mounts. *)
Definition stops_before_clean (a : args) : bool :=
  health a
  || contains "volumes" (list_ a)
  || (negb (contains "templates" (list_ a)) && contains "mounts" (list_ a)).

(** Whether [main] returns before it comes to creating volumes: after the
    health check, after listing volumes or mounts, after unmounting the
    first volume, after cleaning, after logging out. *)
Definition stops_early (a : args) : bool :=
  health a
  || contains "volumes" (list_ a)
  || (negb (contains "templates" (list_ a)) && contains "mounts" (list_ a))
  || (unmount a && negb (bool_decide (volume a = [])))
  || clean a
  || logout a.

(** What [main] does before it comes to creating volumes, when it does
    not return before. *)
Definition events_before_work (a : args) : list event :=
  [Print "Using Config:"; PrintConfig]
  ++ (if contains "templates" (list_ a)
      then [ListTemplates (contains "detail" (list_ a))] else []).

(** What is asked of the metrics collaborator and what is written. *)
Definition metrics_ok (w : world) (a : args) (e : event) : Prop :=
  match e with
  | GetMetrics mt vs i t op =>
      (1 ≤ i)%Z ∧ (1 ≤ t)%Z ∧ vs = volume a ∧ op = metrics_op a
      ∧ mt ≠ []
      ∧ ∃ m si st, metrics a = Some m ∧ split_comma m = [si; st]
                   ∧ int_of w si = Some i ∧ int_of w st = Some t
  | WriteMetrics d f =>
      f = metrics_out_file a
      ∧ ∃ mt i t, get_metrics w mt (volume a) i t (metrics_op a) = Some d
  | _ => True
  end.

(** What is mounted and what fio runs on. *)
Definition mount_ok (w : world) (a : args) (e : event) : Prop :=
  match e with
  | MountVolumes vols _ _ _ _ _ login_only =>
      vols = created w a ∧ vols ≠ [] ∧ run_host a = "local"
      ∧ login_only = (negb (mount a) && login a)
  | MountVolumesRemote host vols _ _ _ _ _ login_only =>
      vols = created w a ∧ vols ≠ [] ∧ host = run_host a
      ∧ run_host a ≠ "local"
      ∧ login_only = (negb (mount a) && login a)
  | GenFio _ devs =>
      devs = mount_volumes w (created w a) ∧ created w a ≠ []
      ∧ MountVolumes (created w a) (negb (no_multipath a)) (fstype a)
          (fsargs a) (directory a) (workers a) (negb (mount a) && login a)
        ∈ mount_events w a
  | GenFioRemote host _ devs =>
      host = run_host a
      ∧ devs = mount_volumes_remote w (run_host a) (created w a)
      ∧ created w a ≠ []
  | _ => True
  end.

End Cli.

(** *** Instances *)

(** A host where every command succeeds and prints nothing, one network
    path, one created volume per [--volume], numbers of one digit. *)
Definition calm : Cli.world :=
  {| Cli.sh := λ _, inl EmptyString;
     Cli.verbose := false;
     Cli.mgmt_ip := "172.19.1.41";
     Cli.api_list := None;
     Cli.network_paths :=
       [Cli.Path (Some "access-1") (Some "172.28.41.9")];
     Cli.create_volumes := λ _ vol, [vol];
     Cli.mount_volumes := λ vols, vols;
     Cli.mount_volumes_remote := λ _ vols, vols;
     Cli.get_metrics := λ _ _ _ _ _, Some "{}";
     Cli.int_of := λ s,
       if String.eqb s "5" then Some 5%Z
       else if String.eqb s "9" then Some 9%Z else None |}.

(** The defaults of the argument parser (lines 157-228). *)
Definition defaults : Cli.args :=
  {| Cli.run_host := "local"; Cli.health := false; Cli.list_ := EmptyString;
     Cli.volume := []; Cli.login := false; Cli.logout := false;
     Cli.mount := false; Cli.unmount := false; Cli.clean := false;
     Cli.workers := 5; Cli.no_multipath := false; Cli.fstype := "xfs";
     Cli.fsargs := EmptyString; Cli.directory := "/mnt"; Cli.fio := false;
     Cli.fio_workload := None; Cli.metrics := None; Cli.metrics_type := [];
     Cli.metrics_op := None; Cli.metrics_out_file := "metrics-out.json" |}.

Definition with_flags (a : Cli.args) (vols : list string)
    (unmount clean mount fio : bool) : Cli.args :=
  {| Cli.run_host := Cli.run_host a; Cli.health := Cli.health a;
     Cli.list_ := Cli.list_ a; Cli.volume := vols; Cli.login := Cli.login a;
     Cli.logout := Cli.logout a; Cli.mount := mount; Cli.unmount := unmount;
     Cli.clean := clean; Cli.workers := Cli.workers a;
     Cli.no_multipath := Cli.no_multipath a; Cli.fstype := Cli.fstype a;
     Cli.fsargs := Cli.fsargs a; Cli.directory := Cli.directory a;
     Cli.fio := fio; Cli.fio_workload := Cli.fio_workload a;
     Cli.metrics := Cli.metrics a; Cli.metrics_type := Cli.metrics_type a;
     Cli.metrics_op := Cli.metrics_op a;
     Cli.metrics_out_file := Cli.metrics_out_file a |}.

(** [--volume prefix=a --volume prefix=b --unmount --clean]. *)
Definition unmount_and_clean : Cli.args :=
  with_flags defaults ["prefix=a"; "prefix=b"] true true false false.

(** [--mount --fio] without a [--volume]. *)
Definition fio_without_volume : Cli.args :=
  with_flags defaults [] false false true true.

(** * Proofs *)

(** ** Lists updated in place *)

Lemma insert_middle {A} (l : list A) i x y :
  l !! i = Some x →
  l = take i l ++ x :: drop (S i) l
  ∧ <[i:=y]> l = take i l ++ y :: drop (S i) l.
Proof.
  intros Hi. split.
  - symmetry. by apply take_drop_middle.
  - apply insert_take_drop. by eapply lookup_lt_Some.
Qed.

Lemma sum_list_with_insert {A} (f : A → nat) (l : list A) i x y :
  l !! i = Some x →
  sum_list_with f (<[i:=y]> l) + f x = sum_list_with f l + f y.
Proof.
  intros Hi. destruct (insert_middle l i x y Hi) as [Hl Hins].
  rewrite Hins. rewrite Hl at 3.
  rewrite !sum_list_with_app. simpl. lia.
Qed.

Lemma bind_insert_perm {A B} (f : A → list B) (l : list A) i x y :
  l !! i = Some x →
  f x ++ (<[i:=y]> l ≫= f) ≡ₚ f y ++ (l ≫= f).
Proof.
  intros Hi. destruct (insert_middle l i x y Hi) as [Hl Hins].
  rewrite Hins. rewrite Hl at 3.
  rewrite !bind_app, !bind_cons.
  rewrite !(Permutation_app_swap_app _ (take i l ≫= f)).
  apply Permutation_app_head. apply Permutation_app_swap_app.
Qed.

Lemma elem_of_insert_inv {A} (l : list A) i x y :
  y ∈ <[i:=x]> l → y = x ∨ y ∈ l.
Proof.
  intros Hy. destruct (decide (i < length l)) as [Hlt|Hge].
  - destruct (lookup_lt_is_Some_2 l i Hlt) as [w Hw].
    destruct (insert_middle l i w x Hw) as [Hl Hins].
    rewrite Hins in Hy. rewrite Hl.
    apply elem_of_app in Hy as [Hy|Hy]; [right; apply elem_of_app; by left|].
    apply elem_of_cons in Hy as [Hy|Hy]; [by left|].
    right. apply elem_of_app. right. apply elem_of_cons. by right.
  - rewrite list_insert_ge in Hy by lia. by right.
Qed.

Lemma sum_list_with_zero {A} (f : A → nat) (l : list A) x :
  sum_list_with f l = 0 → x ∈ l → f x = 0.
Proof.
  intros Hs Hx. pose proof (sum_list_with_in x f l Hx). lia.
Qed.

(** ** The queue that [run_threads] builds *)

Lemma zip_longest_length {A B C} (da : A) (db : B) (dc : C) la lb lc :
  length (zip_longest da db dc la lb lc)
  = length la `max` (length lb `max` length lc).
Proof. unfold zip_longest. by rewrite length_fmap, length_seq. Qed.

Lemma zip_longest_lookup {A B C} (da : A) (db : B) (dc : C) la lb lc i :
  i < length la `max` (length lb `max` length lc) →
  zip_longest da db dc la lb lc !! i
  = Some (default da (la !! i), default db (lb !! i), default dc (lc !! i)).
Proof.
  intros Hi. unfold zip_longest. rewrite list_lookup_fmap.
  by rewrite (lookup_seq_lt _ _ _ Hi).
Qed.

Lemma triples_lookup p i :
  i < length (funcs p) `max` (length (args_list p) `max` length (kwargs_list p)) →
  triples p !! i
  = Some (default (NotFunc fillvalue) (Func <$> funcs p !! i),
          default fillvalue (args_list p !! i),
          default fillvalue (kwargs_list p !! i)).
Proof.
  intros Hi. unfold triples. rewrite zip_longest_lookup.
  - by rewrite list_lookup_fmap.
  - by rewrite length_fmap.
Qed.

Lemma triples_length p :
  length (triples p)
  = length (funcs p) `max` (length (args_list p) `max` length (kwargs_list p)).
Proof. unfold triples. by rewrite zip_longest_length, length_fmap. Qed.

Lemma triples_args p d :
  d ∈ triples p → snd (fst d) = fillvalue ∨ snd (fst d) ∈ args_list p.
Proof.
  intros Hd. apply list_elem_of_lookup in Hd as [i Hi].
  pose proof (lookup_lt_Some _ _ _ Hi) as Hlt. rewrite triples_length in Hlt.
  rewrite triples_lookup in Hi by done. injection Hi as <-. simpl.
  destruct (args_list p !! i) as [a|] eqn:Ha; simpl; [right|by left].
  apply list_elem_of_lookup. eauto.
Qed.

Lemma triples_no_text p :
  Forall (λ a, is_text a = false) (args_list p) →
  Forall (λ d : task, is_text (snd (fst d)) = false) (triples p).
Proof.
  intros Hall. apply Forall_forall. intros d Hd.
  destruct (triples_args p d Hd) as [->|Ha]; [done|].
  by eapply (proj1 (Forall_forall _ _) Hall).
Qed.

Lemma enqueue_ok ds s :
  Forall (λ d : task, is_text (snd (fst d)) = false) ds →
  enqueue ds s
  = (State (queue s ++ ds) (unfinished_tasks s + length ds) (exceptions s)
           (keep_running s) (threads s) (main s) (calls s) (recorded s)
           (joined s) (timed_out s), None).
Proof.
  intros Hall. revert s. induction Hall as [|d ds Hd _ IH]; intros s; simpl.
  - rewrite app_nil_r, Nat.add_0_r. by destruct s.
  - rewrite Hd, IH. simpl. f_equal. f_equal; [by rewrite <- app_assoc|lia].
Qed.

(** Enqueuing touches the queue and its counter, nothing else. *)
Lemma enqueue_frame ds s :
  let s' := fst (enqueue ds s) in
  threads s' = threads s ∧ keep_running s' = keep_running s
  ∧ calls s' = calls s ∧ exceptions s' = exceptions s ∧ main s' = main s.
Proof.
  revert s. induction ds as [|d ds IH]; intros s; simpl; [done|].
  destruct (is_text _); [done|]. apply (IH (queue_put d s)).
Qed.

(** ** Runs *)

Section Runs.

Variable body : string → list pyval → list (string * pyval) → outcome.
Variable p : Parallel.

Lemma exec_app sch1 sch2 s :
  exec body p (sch1 ++ sch2) s = exec body p sch2 (exec body p sch1 s).
Proof. revert s. induction sch1 as [|a sch1 IH]; intros s; simpl; [done|apply IH]. Qed.

Lemma run_S sch n :
  run body p sch (S n) = next body p (sch n) (run body p sch n).
Proof.
  unfold run, prefix. rewrite seq_S, fmap_app, exec_app. reflexivity.
Qed.

Lemma worker_out_of_range i s :
  length (threads s) ≤ i → _wrapped body i s = None.
Proof.
  intros Hi. unfold _wrapped. by rewrite (lookup_ge_None_2 _ _ Hi).
Qed.

(** No step of another actor moves the caller out of [MDone]. *)
Lemma next_finished a s r :
  finished s = Some r → finished (next body p a s) = Some r.
Proof.
  unfold finished, next, step. intros Hr.
  destruct (main s) eqn:Hm; try discriminate.
  destruct a as [|i|]; simpl.
  - unfold run_threads. by rewrite Hm; simpl; rewrite Hm.
  - unfold _wrapped.
    destruct (threads s !! i) as [[]|]; simpl; rewrite ?Hm; try done.
    + destruct (queue s); simpl; by rewrite Hm.
    + destruct (unfinished_tasks s); simpl; by rewrite Hm.
  - unfold join_timeout. by rewrite Hm; simpl; rewrite Hm.
Qed.

Lemma exec_finished sch s r :
  finished s = Some r → finished (exec body p sch s) = Some r.
Proof.
  revert s. induction sch as [|a sch IH]; intros s Hr; simpl; [done|].
  apply IH. by apply next_finished.
Qed.

End Runs.

(** ** Runs in which no task fails *)

Section AllSucceed.

Variable body : string → list pyval → list (string * pyval) → outcome.
Variable p : Parallel.

Hypothesis Hworkers : 1 ≤ max_workers p.
Hypothesis Hnotext : Forall (λ a, is_text a = false) (args_list p).
Hypothesis Hok : Forall (succeeds body) (triples p).

(** A padded callable would fail, so [funcs] is the longest list. *)
Lemma funcs_longest :
  length (args_list p) ≤ length (funcs p)
  ∧ length (kwargs_list p) ≤ length (funcs p).
Proof.
  assert (Hlen : length (triples p) ≤ length (funcs p)).
  { destruct (decide (length (triples p) ≤ length (funcs p))) as [|Hgt]; [done|].
    exfalso. assert (Hi : length (funcs p) < length (triples p)) by lia.
    destruct (lookup_lt_is_Some_2 _ _ Hi) as [d Hd].
    assert (Hs : succeeds body d).
    { eapply (proj1 (Forall_forall _ _) Hok), list_elem_of_lookup; eauto. }
    rewrite triples_length in Hi. rewrite triples_lookup in Hd by done.
    rewrite (lookup_ge_None_2 (funcs p)) in Hd by lia.
    simpl in Hd. injection Hd as <-. discriminate Hs. }
  rewrite triples_length in Hlen. lia.
Qed.

Lemma check_passes : too_few_funcs p = false.
Proof.
  destruct funcs_longest as [Ha Hk]. unfold too_few_funcs.
  apply orb_false_intro; apply Nat.ltb_ge; lia.
Qed.

Lemma inv_init : inv body p init.
Proof.
  repeat split; simpl; try done.
Qed.

Local Ltac show_inv :=
  unfold inv, quiet, phase_ok, accounted; simpl;
  repeat split; simpl; try done; try (by intros ?%elem_of_nil).

Lemma inv_main s : inv body p s → inv body p (next body p Main s).
Proof.
  intros (Hq & Hph & Hacc & Hw & Hqs & Hex).
  unfold next, step, run_threads.
  destruct s as [q u ex kr th m cs rc jn to].
  destruct Hq as (Hq1 & Hq2 & Hq3 & Hq4 & Hq5). simpl in *. subst.
  unfold phase_ok, accounted in *; simpl in *.
  destruct m as [|k| | | |e|pend|pend e|pend e i|r]; simpl; try done.
  - injection Hph as -> -> -> ->.
    rewrite enqueue_ok by (by apply triples_no_text). simpl.
    show_inv.
  - assert (Hacc' := Hacc ltac:(done)). destruct Hacc' as [Hu Hc].
    destruct k as [|k]; simpl.
    + show_inv. lia.
    + show_inv.
      * rewrite length_app. simpl. lia.
      * rewrite sum_list_with_app. simpl. lia.
      * rewrite bind_app. simpl. by rewrite app_nil_r.
      * apply Forall_app. split; [done|]. by apply Forall_singleton.
      * intros H. apply Hex. apply elem_of_app in H as [H|H]; [done|].
        apply list_elem_of_singleton in H. discriminate.
  - assert (Hacc' := Hacc ltac:(done)). rewrite check_passes. simpl.
    show_inv; by destruct Hacc'.
  - assert (Hacc' := Hacc ltac:(done)). destruct Hacc' as [Hu Hc].
    destruct u as [|u]; simpl; show_inv.
  - assert (Hacc' := Hacc ltac:(done)). destruct Hacc' as [Hu Hc].
    show_inv.
  - destruct pend as [e|]; [done|]. destruct Hph as [Hlen ->].
    assert (Hacc' := Hacc ltac:(done)). destruct Hacc' as [Hu Hc].
    show_inv.
Qed.

Lemma phase_ok_worker s s' :
  phase_ok p s → main s ≠ MEnqueue → main s' = main s →
  length (threads s') = length (threads s) →
  (unfinished_tasks s = 0 → unfinished_tasks s' = 0) →
  phase_ok p s'.
Proof.
  unfold phase_ok. intros Hph Hne -> -> Hu.
  destruct (main s) as [|k| | | |e|[e|]|pend e|pend e i|[|e]]; try done.
  - split; [apply Hph|apply Hu, Hph].
  - split; [apply Hph|apply Hu, Hph].
Qed.

Lemma omap_cons_list {A B} (f : A → option B) (x : A) (l : list A) :
  omap f (x :: l) = option_list (f x) ++ omap f l.
Proof. simpl. by destruct (f x). Qed.

Lemma inv_worker i s : inv body p s → inv body p (next body p (Worker i) s).
Proof.
  intros (Hq & Hph & Hacc & Hw & Hqs & Hex).
  unfold next, step, _wrapped.
  destruct (threads s !! i) as [w|] eqn:Hi; [|done].
  assert (Hne : main s ≠ MEnqueue).
  { intros Hm. unfold phase_ok in Hph. rewrite Hm in Hph.
    rewrite Hph in Hi. discriminate. }
  destruct (Hacc Hne) as [Hu Hc].
  assert (Hwi : worker_ok body w).
  { eapply (proj1 (Forall_forall _ _) Hw), list_elem_of_lookup; eauto. }
  destruct s as [q u ex kr th m cs rc jn to].
  destruct Hq as (Hq1 & Hq2 & Hq3 & Hq4 & Hq5). simpl in *. subst.
  destruct w as [| |d|e|e| |]; simpl; try done.
  - (* WLoop *)
    split; [done|]. split; [|split; [|split; [|split]]]; simpl.
    + eapply phase_ok_worker; eauto; simpl. by rewrite length_insert.
    + intros _. simpl. split.
      * pose proof (sum_list_with_insert busy th i WLoop WGet Hi). simpl in *. lia.
      * pose proof (bind_insert_perm held th i WLoop WGet Hi) as Hp.
        simpl in Hp. by rewrite Hp.
    + by apply Forall_insert.
    + done.
    + intros [?|?]%elem_of_insert_inv; [done|auto].
  - (* WGet *)
    destruct q as [|d q]; simpl.
    + split; [done|]. split; [|split; [|split; [|split]]]; simpl; try done.
      * eapply phase_ok_worker; eauto; simpl. by rewrite length_insert.
      * intros _. simpl. split.
        -- pose proof (sum_list_with_insert busy th i WGet WExit Hi).
           simpl in *. lia.
        -- pose proof (bind_insert_perm held th i WGet WExit Hi) as Hp.
           simpl in Hp. by rewrite Hp.
      * by apply Forall_insert.
    + apply Forall_cons in Hqs as [Hd Hqs].
      split; [done|]. split; [|split; [|split; [|split]]]; simpl; try done.
      * eapply phase_ok_worker; eauto; simpl. by rewrite length_insert.
      * intros _. simpl. split.
        -- pose proof (sum_list_with_insert busy th i WGet (WRun d) Hi).
           simpl in *. lia.
        -- pose proof (bind_insert_perm held th i WGet (WRun d) Hi) as Hp.
           simpl in Hp. rewrite Hp. rewrite <- Hc.
           apply Permutation_app_head. simpl.
           rewrite !omap_app, !omap_cons_list.
           rewrite !(Permutation_app_swap_app _ (option_list _)).
           by destruct (snd (invoke body d)).
      * by apply Forall_insert.
      * intros [?|Hin]%elem_of_insert_inv; [done|]. by specialize (Hex Hin).
  - (* WRun *)
    unfold worker_ok, succeeds in Hwi. rewrite Hwi.
    split; [done|]. split; [|split; [|split; [|split]]]; simpl; try done.
    + eapply phase_ok_worker; eauto; simpl. by rewrite length_insert.
    + intros _. simpl. split.
      * pose proof (sum_list_with_insert busy th i (WRun d) WTaskDone Hi).
        simpl in *. lia.
      * pose proof (bind_insert_perm held th i (WRun d) WTaskDone Hi) as Hp.
        simpl in Hp. rewrite <- Hc, <- Hp.
        rewrite <- app_comm_cons, omap_cons_list. by rewrite app_assoc.
    + by apply Forall_insert.
    + intros [?|?]%elem_of_insert_inv; [done|auto].
  - (* WTaskDone *)
    assert (Hpos : 1 ≤ sum_list_with busy th).
    { apply (sum_list_with_in WTaskDone busy), list_elem_of_lookup. eauto. }
    destruct (length q + sum_list_with busy th) as [|u] eqn:Hu; [lia|].
    simpl. split; [done|]. split; [|split; [|split; [|split]]]; simpl; try done.
    + eapply phase_ok_worker; eauto; simpl; [by rewrite length_insert|lia].
    + intros _. simpl. split.
      * pose proof (sum_list_with_insert busy th i WTaskDone WLoop Hi).
        simpl in *. lia.
      * pose proof (bind_insert_perm held th i WTaskDone WLoop Hi) as Hp.
        simpl in Hp. by rewrite Hp.
    + by apply Forall_insert.
    + intros [?|?]%elem_of_insert_inv; [done|auto].
Qed.

Lemma timer_idle s : inv body p s → next body p Timer s = s.
Proof.
  intros (_ & Hph & _). unfold next, step, join_timeout, phase_ok in *.
  by destruct (main s).
Qed.

Lemma inv_next a s : inv body p s → inv body p (next body p a s).
Proof.
  intros Hinv. destruct a as [|i|].
  - by apply inv_main.
  - by apply inv_worker.
  - by rewrite timer_idle.
Qed.

Lemma inv_exec sch s : inv body p s → inv body p (exec body p sch s).
Proof.
  revert s. induction sch as [|a sch IH]; intros s Hinv; simpl; [done|].
  by apply IH, inv_next.
Qed.

Lemma inv_run sch n : inv body p (run body p sch n).
Proof. apply inv_exec, inv_init. Qed.

Lemma omap_total {A B} (f : A → option B) (g : A → B) (l : list A) :
  Forall (λ x, f x = Some (g x)) l → omap f l = g <$> l.
Proof.
  induction 1 as [|x l Hx _ IH]; [done|].
  rewrite omap_cons_list, Hx, fmap_cons. simpl. by f_equal.
Qed.

Lemma expected_calls :
  omap (λ d, snd (invoke body d)) (triples p) = paired_calls p.
Proof.
  destruct funcs_longest as [Ha Hk].
  assert (Hlen : length (triples p) = length (funcs p)).
  { rewrite triples_length. lia. }
  rewrite (omap_total _
    (λ d : task, match d with
                 | (Func f, a, k) => Call f (star a) (default [] (starstar k))
                 | (NotFunc _, a, k) => Call "" (star a) []
                 end)).
  - apply list_eq. intros i. unfold paired_calls.
    rewrite list_lookup_fmap, list_lookup_imap.
    destruct (decide (i < length (funcs p))) as [Hi|Hi].
    + rewrite triples_lookup by lia.
      destruct (lookup_lt_is_Some_2 _ _ Hi) as [f Hf]. by rewrite Hf.
    + rewrite (lookup_ge_None_2 (triples p)) by lia.
      by rewrite (lookup_ge_None_2 (funcs p)) by lia.
  - eapply Forall_impl; [exact Hok|]. intros [[[f|o] a] k]; unfold succeeds; simpl.
    + by destruct (starstar k).
    + discriminate.
Qed.

Lemma idle_workers_hold_nothing (l : list wpc) :
  sum_list_with busy l = 0 → l ≫= held = [].
Proof.
  induction l as [|w l IH]; [done|]. rewrite bind_cons. simpl. intros Hs.
  rewrite IH by lia. destruct w; simpl in *; done.
Qed.

(** What the caller finds when [run_threads] has ended. *)
Lemma inv_finished s r :
  inv body p s → finished s = Some r →
  r = Returned ∧ calls s ≡ₚ paired_calls p
  ∧ unfinished_tasks s = 0 ∧ queue s = [].
Proof.
  intros (Hq & Hph & Hacc & Hw & Hqs & Hex) Hr.
  unfold finished, phase_ok, accounted in *.
  destruct (main s) as [| | | | | | | | |r'] eqn:Hm; try discriminate.
  injection Hr as ->. destruct r as [|e]; [|done].
  destruct Hph as [Hlen Hu]. destruct (Hacc ltac:(done)) as [Hu' Hc].
  assert (Hq0 : queue s = []).
  { apply length_zero_iff_nil. lia. }
  rewrite Hq0 in *. simpl in *.
  rewrite idle_workers_hold_nothing in Hc by lia. simpl in Hc.
  rewrite app_nil_r in Hc. rewrite expected_calls in Hc. done.
Qed.


(** Without a failure the caller never reaches [thread.join]. *)
Lemma no_join_without_failure sch n :
  joined (run body p sch n) = [] ∧ timed_out (run body p sch n) = [].
Proof. by destruct (inv_run sch n) as ((_ & _ & _ & Hj & Ht) & _). Qed.

(** *** Progress *)

Lemma main_rank_le s s' :
  main s' = main s → unfinished_tasks s' ≤ unfinished_tasks s →
  main_rank p s' ≤ main_rank p s.
Proof.
  unfold main_rank. intros -> Hu. destruct (main s); try lia.
  destruct (unfinished_tasks s'), (unfinished_tasks s); lia.
Qed.

(** A worker that has not ended can always move, and its move brings the
    run closer to its end. *)
Lemma worker_strict i s :
  inv body p s → helpful (Worker i) s →
  work_left p (next body p (Worker i) s) < work_left p s.
Proof.
  intros (Hq & Hph & Hacc & Hw & Hqs & Hex) (w & Hi & Hne).
  assert (Hm : main s ≠ MEnqueue).
  { intros Hm. unfold phase_ok in Hph. rewrite Hm in Hph.
    rewrite Hph in Hi. discriminate. }
  destruct (Hacc Hm) as [Hu _].
  assert (Hwi : worker_ok body w).
  { eapply (proj1 (Forall_forall _ _) Hw), list_elem_of_lookup; eauto. }
  destruct Hq as (_ & Hkr & _).
  unfold next, step, _wrapped. rewrite Hi.
  destruct w as [| |d|e|e| |]; simpl; try done.
  - rewrite Hkr.
    pose proof (sum_list_with_insert rank _ i _ WGet Hi) as Hs.
    pose proof (main_rank_le s (set_thread i WGet s) eq_refl (le_n _)).
    unfold work_left. simpl in *. lia.
  - destruct (queue s) as [|d q] eqn:Hqueue; simpl.
    + pose proof (sum_list_with_insert rank _ i _ WExit Hi) as Hs.
      pose proof (main_rank_le s (set_thread i WExit s) eq_refl (le_n _)).
      unfold work_left. simpl. rewrite ?Hqueue. simpl in *. lia.
    + pose proof (sum_list_with_insert rank _ i _ (WRun d) Hi) as Hs.
      pose proof (main_rank_le s (set_thread i (WRun d) (set_queue q s))
                    eq_refl (le_n _)).
      unfold work_left. simpl. rewrite ?Hqueue. simpl in *. lia.
  - unfold worker_ok, succeeds in Hwi. rewrite Hwi.
    pose proof (sum_list_with_insert rank _ i _ WTaskDone Hi) as Hs.
    pose proof (main_rank_le s
      (set_thread i WTaskDone (log_call (snd (invoke body d)) s))
      eq_refl (le_n _)).
    unfold work_left. simpl in *. lia.
  - assert (Hpos : 1 ≤ sum_list_with busy (threads s)).
    { apply (sum_list_with_in WTaskDone busy), list_elem_of_lookup. eauto. }
    destruct (unfinished_tasks s) as [|u] eqn:Hun; [lia|]. simpl.
    pose proof (sum_list_with_insert rank _ i _ WLoop Hi) as Hs.
    assert (main_rank p (set_thread i WLoop (set_unfinished u s)) ≤ main_rank p s).
    { apply main_rank_le; simpl; [done|lia]. }
    unfold work_left. simpl in *. lia.
Qed.

Lemma worker_idle i s :
  ¬ helpful (Worker i) s → next body p (Worker i) s = s.
Proof.
  intros Hn. unfold next, step, _wrapped.
  destruct (threads s !! i) as [w|] eqn:Hi; [|done].
  destruct (decide (w = WExit)) as [->|Hne]; [done|].
  exfalso. apply Hn. by exists w.
Qed.

Lemma main_strict s :
  inv body p s → helpful Main s →
  work_left p (next body p Main s) < work_left p s.
Proof.
  intros (Hq & Hph & Hacc & Hw & Hqs & Hex) Hh.
  unfold next, step, run_threads.
  destruct s as [q u ex kr th m cs rc jn to].
  destruct Hq as (Hq1 & Hq2 & Hq3 & Hq4 & Hq5). simpl in *. subst.
  unfold phase_ok, work_left, main_rank in *; simpl in *.
  destruct m as [|k| | | |e|pend|pend e|pend e i|r]; simpl; try done.
  - injection Hph as -> -> -> ->.
    rewrite enqueue_ok by (by apply triples_no_text). simpl. lia.
  - destruct k as [|k]; simpl; [lia|].
    rewrite sum_list_with_app. simpl. lia.
  - rewrite check_passes. simpl. destruct u; lia.
  - subst u. simpl. lia.
  - subst u. simpl. lia.
  - lia.
Qed.

Lemma main_idle s :
  inv body p s → ¬ helpful Main s →
  work_left p (next body p Main s) = work_left p s
  ∧ threads (next body p Main s) = threads s.
Proof.
  intros (Hq & Hph & Hacc & Hw & Hqs & Hex) Hh.
  unfold next, step, run_threads.
  destruct s as [q u ex kr th m cs rc jn to].
  destruct Hq as (Hq1 & Hq2 & Hq3 & Hq4 & Hq5). simpl in *. subst.
  unfold work_left, main_rank in *; simpl in *.
  destruct m as [|k| | | |e|pend|pend e|pend e i|r]; simpl in *; try done.
  - destruct u as [|u]; [done|]. simpl. done.
  - destruct u as [|u]; [done|]. simpl. done.
Qed.


Lemma helpful_dec a s : helpful a s ∨ ¬ helpful a s.
Proof.
  destruct a as [|i|]; simpl.
  - destruct (main s); auto; destruct (decide (unfinished_tasks s = 0)); auto.
  - destruct (threads s !! i) as [w|] eqn:Hi.
    + destruct (decide (w = WExit)) as [->|Hne].
      * right. intros (w & Hw & Hne). congruence.
      * left. eauto.
    + right. intros (w & Hw & _). congruence.
  - auto.
Qed.

(** One turn of any actor: either the run gets closer to its end, or
    nothing is lost and whoever could help still can. *)
Lemma turn a s :
  inv body p s →
  (helpful a s ∧ work_left p (next body p a s) < work_left p s)
  ∨ (¬ helpful a s
     ∧ work_left p (next body p a s) = work_left p s
     ∧ ∀ b, helpful b s → helpful b (next body p a s)).
Proof.
  intros Hinv. destruct (helpful_dec a s) as [Hh|Hn].
  - left. split; [done|]. destruct a as [|i|]; [|by apply worker_strict|done].
    by apply main_strict.
  - right. split; [done|]. destruct a as [|i|].
    + destruct (main_idle s Hinv Hn) as [Hwl Hth]. split; [done|].
      intros [|j|] Hb; [done| |done]. simpl in *. by rewrite Hth.
    + by rewrite worker_idle.
    + by rewrite timer_idle.
Qed.

(** While the caller is not done, some live actor can help. *)
Lemma exists_helpful s :
  inv body p s → finished s = None → ∃ a, live p a ∧ helpful a s.
Proof.
  intros (Hq & Hph & Hacc & Hw & Hqs & Hex) Hfin.
  destruct (helpful_dec Main s) as [Hh|Hn]; [by exists Main|].
  assert (Hloop : (main s = MWhile ∨ main s = MPoll) ∧ unfinished_tasks s ≠ 0).
  { unfold finished in Hfin. simpl in Hn. destruct (main s); try done; auto. }
  destruct Hloop as [Hm Hu].
  assert (Hlen : length (threads s) = max_workers p).
  { unfold phase_ok in Hph. by destruct Hm as [Hm|Hm]; rewrite Hm in Hph. }
  assert (Hne : main s ≠ MEnqueue) by (destruct Hm; congruence).
  destruct (Hacc Hne) as [Hun _].
  destruct (decide (Forall (λ w, w = WExit) (threads s))) as [Hall|Hsome].
  - exfalso. apply Hu. rewrite Hun.
    assert (Hin : WExit ∈ threads s).
    { destruct (threads s) as [|w l] eqn:Hth; [simpl in Hlen; lia|].
      apply Forall_cons in Hall as [-> _]. apply elem_of_cons. by left. }
    rewrite (Hex Hin). simpl.
    clear -Hall. induction Hall as [|w l -> _ IH]; [done|]. simpl. done.
  - apply not_Forall_Exists in Hsome; [|apply _].
    apply Exists_exists in Hsome as (w & Hin & Hne').
    apply list_elem_of_lookup in Hin as [i Hi].
    exists (Worker i). split.
    + simpl. rewrite <- Hlen. by eapply lookup_lt_Some.
    + simpl. eauto.
Qed.

Section Fair.

Variable sch : nat → actor.
Hypothesis Hfair : fair p sch.

Lemma run_add n d :
  run body p sch (n + d) = exec body p (sch <$> seq n d) (run body p sch n).
Proof.
  unfold run, prefix. by rewrite seq_app, fmap_app, exec_app.
Qed.

Lemma decrease a d : ∀ n,
  sch (n + d) = a → helpful a (run body p sch n) →
  ∃ n', n < n'
        ∧ work_left p (run body p sch n') < work_left p (run body p sch n).
Proof.
  induction d as [|d IH]; intros n Hsch Hh.
  - rewrite Nat.add_0_r in Hsch. exists (S n). split; [lia|].
    rewrite run_S, Hsch.
    destruct (turn a _ (inv_run sch n)) as [[_ Hlt]|[Hn _]]; done.
  - destruct (turn (sch n) _ (inv_run sch n)) as [[_ Hlt]|(_ & Heq & Hkeep)].
    + exists (S n). split; [lia|]. by rewrite run_S.
    + destruct (IH (S n)) as (n' & Hn' & Hlt).
      * by replace (S n + d) with (n + S d) by lia.
      * rewrite run_S. by apply Hkeep.
      * exists n'. split; [lia|]. rewrite run_S, Heq in Hlt. done.
Qed.

Lemma eventually_finished k : ∀ n,
  work_left p (run body p sch n) < k →
  ∃ m, n ≤ m ∧ is_Some (finished (run body p sch m)).
Proof.
  induction k as [|k IH]; intros n Hk; [lia|].
  destruct (finished (run body p sch n)) as [r|] eqn:Hfin.
  { exists n. split; [done|]. rewrite Hfin. eauto. }
  destruct (exists_helpful _ (inv_run sch n) Hfin) as (a & Hlive & Hh).
  destruct (Hfair a n Hlive) as (m & Hm & Hsch).
  destruct (decrease a (m - n) n) as (n' & Hn' & Hlt); [|done|].
  { by replace (n + (m - n)) with m by lia. }
  destruct (IH n') as (m' & Hm' & Hdone); [lia|].
  exists m'. split; [lia|done].
Qed.

(** C4.  When every queued callable returns normally (and the call is
    well formed: at least one worker, no text value in [args_list]),
    then under every fair schedule [run_threads] returns to its caller
    without an exception, and from then on the calls that were made are
    exactly the callables with their paired arguments, each once, and
    the queue is empty with no unfinished task. *)
Theorem all_tasks_succeed :
  ∃ n, ∀ m, n ≤ m →
    finished (run body p sch m) = Some Returned
    ∧ calls (run body p sch m) ≡ₚ paired_calls p
    ∧ unfinished_tasks (run body p sch m) = 0
    ∧ queue (run body p sch m) = [].
Proof.
  destruct (eventually_finished (S (work_left p (run body p sch 0))) 0)
    as (n & _ & [r Hr]); [lia|].
  exists n. intros m Hm.
  assert (Hfin : finished (run body p sch m) = Some r).
  { replace m with (n + (m - n)) by lia. rewrite run_add.
    by apply exec_finished. }
  destruct (inv_finished _ r (inv_run sch m) Hfin) as (-> & Hc & Hu & Hq).
  done.
Qed.

End Fair.


End AllSucceed.

Lemma round_robin_fair p : fair p (round_robin (max_workers p)).
Proof.
  intros a n Hlive. unfold round_robin.
  destruct a as [|i|]; simpl in Hlive; [| |done].
  - exists (n * S (max_workers p)). split; [lia|].
    by rewrite Nat.Div0.mod_mul.
  - exists (S i + n * S (max_workers p)). split; [lia|].
    rewrite Nat.Div0.mod_add, Nat.mod_small by lia. done.
Qed.

Lemma all_tasks_succeed_witness :
  1 ≤ max_workers three_tasks
  ∧ Forall (λ a, is_text a = false) (args_list three_tasks)
  ∧ Forall (succeeds returns) (triples three_tasks)
  ∧ fair three_tasks (round_robin 2)
  ∧ ∃ n, ∀ m, n ≤ m →
      finished (run returns three_tasks (round_robin 2) m) = Some Returned
      ∧ calls (run returns three_tasks (round_robin 2) m)
          ≡ₚ paired_calls three_tasks
      ∧ unfinished_tasks (run returns three_tasks (round_robin 2) m) = 0
      ∧ queue (run returns three_tasks (round_robin 2) m) = [].
Proof.
  assert (H1 : 1 ≤ max_workers three_tasks) by (simpl; lia).
  assert (H2 : Forall (λ a, is_text a = false) (args_list three_tasks))
    by (simpl; repeat constructor).
  assert (H3 : Forall (succeeds returns) (triples three_tasks))
    by (vm_compute; repeat constructor).
  assert (H4 : fair three_tasks (round_robin 2))
    by apply (round_robin_fair three_tasks).
  repeat split; try assumption.
  exact (all_tasks_succeed returns three_tasks H1 H2 H3 (round_robin 2) H4).
Defined.

(** ** The stop signal *)

Section StopSignal.

Variable body : string → list pyval → list (string * pyval) → outcome.
Variable p : Parallel.

Lemma keep_running_next a s :
  keep_running s = false → keep_running (next body p a s) = false.
Proof.
  intros Hk. unfold next, step. destruct a as [|i|]; simpl.
  - unfold run_threads.
    destruct (main s) as [|[|k]| | | |e|pend|pend e|pend e i|r]; simpl; try done.
    + pose proof (enqueue_frame (triples p) s) as (_ & Hk' & _).
      destruct (enqueue (triples p) s) as [s' [e|]]; simpl in *; congruence.
    + by destruct (too_few_funcs p).
    + by destruct (unfinished_tasks s).
    + by destruct (exceptions s).
    + by destruct (exceptions s).
    + by destruct (threads s !! i) as [[]|].
  - unfold _wrapped. destruct (threads s !! i) as [[]|]; simpl; try done.
    + by destruct (queue s).
    + by destruct (unfinished_tasks s).
  - unfold join_timeout.
    destruct (main s) as [| | | | | | | |pend e j|]; simpl; try done.
    by destruct (threads s !! j) as [[]|].
Qed.

Lemma keep_running_exec sch s :
  keep_running s = false → keep_running (exec body p sch s) = false.
Proof.
  revert s. induction sch as [|a sch IH]; intros s Hk; simpl; [done|].
  by apply IH, keep_running_next.
Qed.

(** Only a worker's own steps move it. *)
Lemma threads_other a i w s :
  a ≠ Worker i → threads s !! i = Some w →
  threads (next body p a s) !! i = Some w.
Proof.
  intros Ha Hi. unfold next, step. destruct a as [|j|]; simpl.
  - unfold run_threads.
    destruct (main s) as [|[|k]| | | |e|pend|pend e|pend e j|r]; simpl; try done.
    + pose proof (enqueue_frame (triples p) s) as (Hth & _).
      destruct (enqueue (triples p) s) as [s' [e|]]; simpl in *; congruence.
    + by apply lookup_app_l_Some.
    + by destruct (too_few_funcs p).
    + by destruct (unfinished_tasks s).
    + by destruct (exceptions s).
    + by destruct (exceptions s).
    + by destruct (threads s !! j) as [[]|].
  - assert (j ≠ i) by congruence. unfold _wrapped.
    destruct (threads s !! j) as [[]|]; simpl; try done;
      rewrite ?list_lookup_insert_ne by done; try done.
    + destruct (queue s); simpl; by rewrite list_lookup_insert_ne.
    + destruct (unfinished_tasks s); simpl; by rewrite list_lookup_insert_ne.
  - unfold join_timeout.
    destruct (main s) as [| | | | | | | |pend e j|]; simpl; try done.
    by destruct (threads s !! j) as [[]|].
Qed.

Lemma enqueue_grows ds s :
  length (queue s) ≤ length (queue (fst (enqueue ds s))).
Proof.
  revert s. induction ds as [|d ds IH]; intros s; simpl; [done|].
  destruct (is_text _); [done|]. specialize (IH (queue_put d s)).
  simpl in IH. rewrite length_app in IH. simpl in IH. lia.
Qed.

(** Once [keep_running] is false, no step brings a worker between the
    test and the [get], a worker that takes a task was there before, and
    the queue loses no more than those workers take. *)
Lemma stopped_next a s :
  keep_running s = false →
  (∀ i, threads (next body p a s) !! i = Some WGet →
        threads s !! i = Some WGet)
  ∧ (∀ i d, threads (next body p a s) !! i = Some (WRun d) →
        threads s !! i = Some (WRun d) ∨ threads s !! i = Some WGet)
  ∧ length (queue s) + sum_list_with past_test (threads (next body p a s))
    ≤ length (queue (next body p a s)) + sum_list_with past_test (threads s).
Proof.
  intros Hk. unfold next, step. destruct a as [|i|]; simpl.
  - unfold run_threads.
    destruct (main s) as [|[|k]| | | |e|pend|pend e|pend e i|r]; simpl;
      try (split; [done|split; [by left|lia]]).
    + pose proof (enqueue_frame (triples p) s) as (Hth & _).
      pose proof (enqueue_grows (triples p) s) as Hq.
      destruct (enqueue (triples p) s) as [s' [e|]]; simpl in *;
        rewrite Hth; (split; [done|split; [by left|lia]]).
    + rewrite sum_list_with_app. simpl. split; [|split; [|lia]].
      * intros i [?|[_ Hi]]%lookup_app_Some; [done|].
        by destruct (i - length (threads s)) as [|[|?]].
      * intros i d [?|[_ Hi]]%lookup_app_Some; [by left|].
        by destruct (i - length (threads s)) as [|[|?]].
    + destruct (too_few_funcs p); simpl; (split; [done|split; [by left|lia]]).
    + destruct (unfinished_tasks s); simpl;
        (split; [done|split; [by left|lia]]).
    + destruct (exceptions s); simpl; (split; [done|split; [by left|lia]]).
    + destruct (exceptions s); simpl; (split; [done|split; [by left|lia]]).
    + destruct (threads s !! i) as [[]|]; simpl;
        (split; [done|split; [by left|lia]]).
  - unfold _wrapped. destruct (threads s !! i) as [w|] eqn:Hi; simpl;
      [|split; [done|split; [by left|lia]]].
    assert (Hstep : ∀ w' s0,
      threads s0 = threads s → (w' = WGet → w = WGet) →
      (∀ d, w' = WRun d → w = WRun d ∨ w = WGet) →
      length (queue s) + past_test w' ≤ length (queue s0) + past_test w →
      (∀ j, threads (set_thread i w' s0) !! j = Some WGet →
            threads s !! j = Some WGet)
      ∧ (∀ j d, threads (set_thread i w' s0) !! j = Some (WRun d) →
            threads s !! j = Some (WRun d) ∨ threads s !! j = Some WGet)
      ∧ length (queue s)
        + sum_list_with past_test (threads (set_thread i w' s0))
        ≤ length (queue (set_thread i w' s0))
          + sum_list_with past_test (threads s)).
    { intros w' s0 Hth Hget Hrun Hlen. simpl. rewrite Hth.
      pose proof (sum_list_with_insert past_test _ i _ w' Hi) as Hs.
      pose proof (lookup_lt_Some _ _ _ Hi) as Hlt.
      split; [|split; [|lia]].
      - intros j. destruct (decide (j = i)) as [->|Hne].
        + rewrite list_lookup_insert_eq by done. intros [= ->].
          by rewrite Hi, Hget.
        + by rewrite list_lookup_insert_ne.
      - intros j d. destruct (decide (j = i)) as [->|Hne].
        + rewrite list_lookup_insert_eq by done. intros [= ->].
          rewrite Hi. destruct (Hrun d eq_refl) as [-> | ->]; auto.
        + rewrite list_lookup_insert_ne by done. by left. }
    destruct w as [| |d|e|e| |]; simpl.
    + rewrite Hk. apply (Hstep WExit s); simpl; try done; lia.
    + destruct (queue s) as [|d q] eqn:Hq; simpl.
      * apply (Hstep WExit s); simpl; rewrite ?Hq; try done; simpl; lia.
      * apply (Hstep (WRun d) (set_queue q s)); simpl; try done; try lia.
        by right.
    + apply (Hstep _ (log_call (snd (invoke body d)) s)); simpl; try done.
      * by destruct (fst (invoke body d)) as [|e]; [|destruct (is_Exception e)].
      * intros d'.
        by destruct (fst (invoke body d)) as [|e]; [|destruct (is_Exception e)].
      * destruct (fst (invoke body d)) as [|e]; [|destruct (is_Exception e)];
          simpl; lia.
    + apply (Hstep (WPut e) (set_keep_running false s)); simpl; try done; lia.
    + apply (Hstep WTaskDone (exceptions_put e s)); simpl; try done; lia.
    + destruct (unfinished_tasks s) as [|u]; simpl.
      * apply (Hstep WExit s); simpl; try done; lia.
      * apply (Hstep WLoop (set_unfinished u s)); simpl; try done; lia.
    + split; [done|split; [by left|lia]].
  - unfold join_timeout.
    destruct (main s) as [| | | | | | | |pend e j|]; simpl;
      try (split; [done|split; [by left|lia]]).
    destruct (threads s !! j) as [[]|]; simpl;
      (split; [done|split; [by left|lia]]).
Qed.

Lemma stopped_exec sch : ∀ s,
  keep_running s = false →
  (∀ i, threads (exec body p sch s) !! i = Some WGet →
        threads s !! i = Some WGet)
  ∧ (∀ i d, threads (exec body p sch s) !! i = Some (WRun d) →
        threads s !! i = Some (WRun d) ∨ threads s !! i = Some WGet)
  ∧ length (queue s) + sum_list_with past_test (threads (exec body p sch s))
    ≤ length (queue (exec body p sch s)) + sum_list_with past_test (threads s).
Proof.
  induction sch as [|a sch IH]; intros s Hk; simpl.
  { split; [done|split; [by left|lia]]. }
  destruct (stopped_next a s Hk) as (Hg & Hr & Hl).
  destruct (IH (next body p a s)) as (Hg' & Hr' & Hl');
    [by apply keep_running_next|].
  split; [|split; [|lia]].
  - intros i Hi. by apply Hg, Hg'.
  - intros i d Hi. destruct (Hr' i d Hi) as [?|?]; [by apply Hr|].
    right. by apply Hg.
Qed.

(** C7.  Once [keep_running] is false it stays false however the run
    goes on.  From then on no worker comes to dequeue again: a worker that
    holds a task later on either held that task already or stood, when the
    signal was set, between the test of line 78 and the [get] of line 80;
    the queue loses no more triples than there were such workers; and a
    worker that comes to the head of its loop ends without dequeuing
    anything.  A task that was already dequeued stays with its worker
    whatever the other threads do, and the worker's own next step is the
    completion of that call, with the callable's own outcome. *)
Theorem stop_signal_one_way sch s :
  keep_running s = false →
  let s' := exec body p sch s in
  keep_running s' = false
  ∧ (∀ i, threads s' !! i = Some WGet → threads s !! i = Some WGet)
  ∧ (∀ i d, threads s' !! i = Some (WRun d) →
       threads s !! i = Some (WRun d) ∨ threads s !! i = Some WGet)
  ∧ length (queue s) ≤ length (queue s') + sum_list_with past_test (threads s)
  ∧ (∀ i, threads s' !! i = Some WLoop →
       threads (next body p (Worker i) s') !! i = Some WExit
       ∧ queue (next body p (Worker i) s') = queue s'
       ∧ calls (next body p (Worker i) s') = calls s')
  ∧ (∀ i d, threads s' !! i = Some (WRun d) →
       (∀ a, a ≠ Worker i → threads (next body p a s') !! i = Some (WRun d))
       ∧ calls (next body p (Worker i) s')
         = calls s' ++ option_list (snd (invoke body d))
       ∧ threads (next body p (Worker i) s') !! i
         = Some match fst (invoke body d) with
                | Return => WTaskDone
                | Raise e => if is_Exception e then WStop e else WExit
                end).
Proof.
  intros Hk s'. assert (Hk' : keep_running s' = false).
  { by apply keep_running_exec. }
  destruct (stopped_exec sch s Hk) as (Hg & Hr & Hl).
  split; [done|]. split; [exact Hg|]. split; [exact Hr|].
  split; [unfold s'; lia|]. split.
  - intros i Hi. unfold next, step, _wrapped. rewrite Hi, Hk'. simpl.
    split; [|done]. apply list_lookup_insert_eq. by eapply lookup_lt_Some.
  - intros i d Hi. split; [|split].
    + intros a Ha. by apply threads_other.
    + unfold next, step, _wrapped. by rewrite Hi.
    + unfold next, step, _wrapped. rewrite Hi. simpl.
      apply list_lookup_insert_eq. by eapply lookup_lt_Some.
Qed.

End StopSignal.

(** ** Validation of [args_list] *)

Section Validation.

Variable body : string → list pyval → list (string * pyval) → outcome.
Variable p : Parallel.

(** A text value among the triples stops the first loop: what was put
    before it stays on the queue, the triple itself and the ones after
    it are never put. *)
Lemma enqueue_text ds s :
  Exists (λ d : task, is_text (snd (fst d)) = true) ds →
  ∃ ds1 ds2,
    ds = ds1 ++ ds2
    ∧ Forall (λ d : task, is_text (snd (fst d)) = false) ds1
    ∧ enqueue ds s
      = (State (queue s ++ ds1) (unfinished_tasks s + length ds1)
               (exceptions s) (keep_running s) (threads s) (main s)
               (calls s) (recorded s) (joined s) (timed_out s),
         Some text_error).
Proof.
  intros Hex. revert s. induction ds as [|d ds IH]; intros s.
  { by apply Exists_nil in Hex. }
  simpl. destruct (is_text (snd (fst d))) eqn:Hd.
  - exists [], (d :: ds). repeat split; [constructor|].
    rewrite app_nil_r, Nat.add_0_r. by destruct s.
  - apply Exists_cons in Hex as [Hex|Hex]; [congruence|].
    destruct (IH Hex (queue_put d s)) as (ds1 & ds2 & -> & Hall & Heq).
    exists (d :: ds1), ds2. repeat split; [by constructor|].
    rewrite Heq. simpl. f_equal. f_equal; [by rewrite <- app_assoc|lia].
Qed.

Lemma triples_text :
  Exists (λ a, is_text a = true) (args_list p) →
  Exists (λ d : task, is_text (snd (fst d)) = true) (triples p).
Proof.
  intros (a & Ha & Ht)%Exists_exists. apply list_elem_of_lookup in Ha as [i Hi].
  apply Exists_exists.
  pose proof (lookup_lt_Some _ _ _ Hi) as Hlt.
  assert (Hd := triples_lookup p i ltac:(lia)).
  eexists. split; [by eapply list_elem_of_lookup_2|].
  simpl. by rewrite Hi.
Qed.

Lemma no_threads_idle i s : threads s = [] → next body p (Worker i) s = s.
Proof. intros Hth. unfold next, step, _wrapped. by rewrite Hth. Qed.

(** As long as no thread has been started, only the caller's turns
    count. *)
Lemma exec_no_threads sch s :
  (∀ k, threads (Nat.iter k (next body p Main) s) = []) →
  exec body p sch s = Nat.iter (caller_turns sch) (next body p Main) s.
Proof.
  revert s. induction sch as [|a sch IH]; intros s Hth; [done|].
  simpl. destruct a as [|i|].
  - unfold caller_turns. rewrite filter_cons_True by done.
    change (length (Main :: ?l)) with (S (length l)).
    rewrite Nat.iter_succ_r. apply IH.
    intros k. rewrite <- Nat.iter_succ_r. apply (Hth (S k)).
  - unfold caller_turns. rewrite filter_cons_False by done.
    rewrite no_threads_idle by apply (Hth 0). by apply IH.
  - unfold caller_turns. rewrite filter_cons_False by done.
    assert (Hn : next body p Timer s = s).
    { unfold next, step, join_timeout. specialize (Hth 0). simpl in Hth.
      destruct (main s); try done. by rewrite Hth. }
    rewrite Hn. by apply IH.
Qed.

Section Rejected.

Hypothesis Htext : Exists (λ a, is_text a = true) (args_list p).

Lemma rejected_turns :
  ∃ ds1 ds2,
    triples p = ds1 ++ ds2
    ∧ Forall (λ d : task, is_text (snd (fst d)) = false) ds1
    ∧ ∀ k, Nat.iter k (next body p Main) init
           = State ds1 (length ds1) [] true []
                   match k with
                   | 0 => MEnqueue
                   | 1 => MFinally (Some text_error)
                   | _ => MDone (Raised text_error)
                   end [] [] [] []
             ∨ (k = 0 ∧ Nat.iter k (next body p Main) init = init).
Proof.
  destruct (enqueue_text (triples p) init (triples_text Htext))
    as (ds1 & ds2 & Hds & Hall & Heq).
  exists ds1, ds2. split; [done|]. split; [done|].
  assert (H1 : next body p Main init
               = State ds1 (length ds1) [] true []
                       (MFinally (Some text_error)) [] [] [] []).
  { unfold next, step, run_threads. simpl. by rewrite Heq. }
  intros [|[|k]]; [by right|left; simpl; by rewrite H1|left].
  induction k as [|k IH].
  - simpl. by rewrite H1.
  - rewrite Nat.iter_succ, IH. reflexivity.
Qed.

(** C6.  If some entry of [args_list] is a text value, then however
    the run is scheduled no thread is ever started and no callable is
    ever called, no triple with a text value in the place of [args] is
    ever on the queue, [run_threads] can only end by raising the
    [ValueError] with the descriptive message, and it has done so once
    the caller has had two turns. *)
Theorem text_entry_rejected sch :
  let s := exec body p sch init in
  threads s = [] ∧ calls s = []
  ∧ Forall (λ d : task, is_text (snd (fst d)) = false) (queue s)
  ∧ (∀ r, finished s = Some r → r = Raised text_error)
  ∧ (2 ≤ caller_turns sch → finished s = Some (Raised text_error)).
Proof.
  destruct rejected_turns as (ds1 & ds2 & Hds & Hall & Hiter).
  intros s. unfold s. rewrite exec_no_threads.
  - destruct (Hiter (caller_turns sch)) as [Hk|[Hk Hk']].
    + rewrite Hk. simpl. repeat split; try done.
      * unfold finished. simpl. intros r.
        destruct (caller_turns sch) as [|[|k]]; congruence.
      * unfold finished. simpl. intros Hge.
        destruct (caller_turns sch) as [|[|k]]; [lia|lia|done].
    + rewrite Hk'. simpl. repeat split; try done; lia.
  - intros k. destruct (Hiter k) as [Hk|[_ Hk]]; by rewrite Hk.
Qed.

End Rejected.

End Validation.

(** ** Padding of the shorter lists *)

Section Padding.

Variable body : string → list pyval → list (string * pyval) → outcome.
Variable p : Parallel.

Lemma run_step_calls w d s :
  threads s !! w = Some (WRun d) →
  calls (next body p (Worker w) s)
  = calls s ++ option_list (snd (invoke body d)).
Proof. intros Hw. unfold next, step, _wrapped. by rewrite Hw. Qed.

(** What the first loop leaves on the queue for the [i]-th callable. *)
Lemma queued_triple i f :
  Forall (λ a, is_text a = false) (args_list p) →
  funcs p !! i = Some f →
  queue (next body p Main init) !! i
  = Some (Func f, default fillvalue (args_list p !! i),
          default fillvalue (kwargs_list p !! i)).
Proof.
  intros Hnotext Hf.
  assert (Hn : next body p Main init
               = State (triples p) (length (triples p)) [] true []
                       (MSpawn (max_workers p)) [] [] [] []).
  { unfold next, step, run_threads. simpl.
    rewrite enqueue_ok by (by apply triples_no_text). reflexivity. }
  rewrite Hn. simpl. pose proof (lookup_lt_Some _ _ _ Hf).
  rewrite triples_lookup by lia. by rewrite Hf.
Qed.

Section Shorter.

Hypothesis Hworkers : 1 ≤ max_workers p.
Hypothesis Hargs : length (args_list p) ≤ length (funcs p).
Hypothesis Hkwargs : length (kwargs_list p) ≤ length (funcs p).
Hypothesis Hnotext : Forall (λ a, is_text a = false) (args_list p).
Hypothesis Hmaps : Forall (λ k, is_Some (starstar k)) (kwargs_list p).
Hypothesis Hbody :
  Forall (λ c, body (cfunc c) (cargs c) (ckwargs c) = Return) (paired_calls p).

Variable sch : nat → actor.
Hypothesis Hfair : fair p sch.

Lemma given_or_padded i :
  is_Some (starstar (default fillvalue (kwargs_list p !! i))).
Proof.
  destruct (kwargs_list p !! i) as [k|] eqn:Hk; simpl; [|by eexists].
  eapply (proj1 (Forall_lookup _ _) Hmaps); eauto.
Qed.

(** Padding makes no task fail: a triple fails only if its callable
    does. *)
Lemma padded_succeed : Forall (succeeds body) (triples p).
Proof.
  apply Forall_lookup. intros i d Hd.
  assert (Hi : i < length (funcs p)).
  { apply lookup_lt_Some in Hd. rewrite triples_length in Hd. lia. }
  rewrite triples_lookup in Hd by lia.
  destruct (lookup_lt_is_Some_2 _ _ Hi) as [f Hf].
  rewrite Hf in Hd. injection Hd as <-. unfold succeeds, invoke. simpl.
  destruct (given_or_padded i) as [kw Hkw]. rewrite Hkw. simpl.
  assert (Hc : paired_calls p !! i = Some (paired_call p i f)).
  { unfold paired_calls. by rewrite list_lookup_imap, Hf. }
  pose proof (proj1 (Forall_lookup _ _) Hbody i _ Hc) as Hret.
  unfold paired_call in Hret. simpl in Hret. by rewrite Hkw in Hret.
Qed.

(** C8.  Let [funcs] be at least as long as [args_list] and
    [kwargs_list], with at least one worker, no text value in
    [args_list], mappings in [kwargs_list], and callables that return
    when called with their own arguments.  Then under every fair schedule
    [run_threads] returns normally, having made as many calls as there
    are callables; and every callable [f] beyond the end of [args_list]
    was queued with the fill value as its arguments and has been called
    with no positional argument, every callable beyond the end of
    [kwargs_list] was queued with the fill value as its keywords and has
    been called with no keyword argument.  Padding adds no failure. *)
Theorem shorter_lists_padded :
  ∃ n, ∀ m, n ≤ m →
    finished (run body p sch m) = Some Returned
    ∧ length (calls (run body p sch m)) = length (funcs p)
    ∧ ∀ i f, funcs p !! i = Some f →
        (length (args_list p) ≤ i →
           queue (next body p Main init) !! i
           = Some (Func f, fillvalue, default fillvalue (kwargs_list p !! i))
           ∧ ∃ kw,
               starstar (default fillvalue (kwargs_list p !! i)) = Some kw
               ∧ Call f [] kw ∈ calls (run body p sch m))
        ∧ (length (kwargs_list p) ≤ i →
           queue (next body p Main init) !! i
           = Some (Func f, default fillvalue (args_list p !! i), fillvalue)
           ∧ Call f (star (default fillvalue (args_list p !! i))) []
             ∈ calls (run body p sch m)).
Proof.
  pose proof padded_succeed as Hok.
  destruct (eventually_finished body p Hworkers Hnotext Hok sch Hfair
              (S (work_left p (run body p sch 0))) 0)
    as (n & _ & [r Hr]); [lia|].
  exists n. intros m Hm.
  assert (Hfin : finished (run body p sch m) = Some r).
  { replace m with (n + (m - n)) by lia. rewrite run_add.
    by apply exec_finished. }
  destruct (inv_finished body p Hworkers Hok _ r
              (inv_run body p Hworkers Hnotext Hok sch m) Hfin)
    as (-> & Hcalls & _ & _).
  split; [done|]. split.
  { rewrite Hcalls. unfold paired_calls. by rewrite length_imap. }
  intros i f Hf.
  assert (Hc : paired_call p i f ∈ calls (run body p sch m)).
  { rewrite Hcalls. apply list_elem_of_lookup. exists i.
    unfold paired_calls. by rewrite list_lookup_imap, Hf. }
  pose proof (queued_triple i f Hnotext Hf) as Hq.
  destruct (given_or_padded i) as [kw Hkw].
  unfold paired_call in Hc. rewrite Hkw in Hc. simpl in Hc.
  split; intros Hlen.
  - rewrite (lookup_ge_None_2 (args_list p)) in Hq, Hc by done.
    simpl in Hq, Hc. split; [done|]. by exists kw.
  - rewrite (lookup_ge_None_2 (kwargs_list p)) in Hq, Hkw by done.
    simpl in Hq, Hkw. injection Hkw as <-. done.
Qed.

End Shorter.

End Padding.

(** ** Exhaustive exploration *)

Section Exploration.

Variable body : string → list pyval → list (string * pyval) → outcome.
Variable p : Parallel.

Lemma closed_next n ss a s :
  closed body p n ss = true → s ∈ ss → next body p a s ∈ ss.
Proof.
  unfold closed. rewrite forallb_forall. intros Hc Hs.
  specialize (Hc s (proj1 (list_elem_of_In _ _) Hs)).
  apply andb_prop in Hc as [Hlen Hall]. apply Nat.leb_le in Hlen.
  rewrite forallb_forall in Hall.
  assert (Hin : ∀ b, b ∈ actors_upto n → next body p b s ∈ ss).
  { intros b Hb. apply list_elem_of_In in Hb.
    specialize (Hall b Hb). by apply bool_decide_eq_true in Hall. }
  destruct a as [|i|].
  - apply Hin. unfold actors_upto. apply elem_of_cons. by left.
  - destruct (decide (i < n)) as [Hi|Hi].
    + apply Hin. unfold actors_upto. do 2 (apply elem_of_cons; right).
      apply list_elem_of_fmap. exists i. split; [done|].
      apply elem_of_seq. lia.
    + unfold next, step. rewrite worker_out_of_range by lia. done.
  - apply Hin. unfold actors_upto. apply elem_of_cons. right.
    apply elem_of_cons. by left.
Qed.

(** A closed set that holds the start holds every state of every run. *)
Lemma closed_exec n ss sch s :
  closed body p n ss = true → s ∈ ss → exec body p sch s ∈ ss.
Proof.
  intros Hc. revert s. induction sch as [|a sch IH]; intros s Hs; [done|].
  simpl. apply IH. by apply closed_next with n.
Qed.

Lemma closed_all n ss (P : state → bool) sch :
  closed body p n ss = true → bool_decide (init ∈ ss) = true →
  forallb P ss = true →
  P (exec body p sch init) = true.
Proof.
  intros Hc Hi%bool_decide_eq_true HP. rewrite forallb_forall in HP.
  apply HP, list_elem_of_In. by apply closed_exec with n.
Qed.

End Exploration.

(** Why the statement about runs without failure asks for a worker: with
    [max_workers = 0] nothing ever takes the task and the caller polls
    for ever. *)
Remark no_workers_no_end sch :
  finished (exec demo no_workers sch init) = None.
Proof.
  pose proof (closed_all demo no_workers 0 (reach demo no_workers 0 8)
    (λ s, bool_decide (finished s = None)) sch) as Hall.
  apply bool_decide_eq_true in Hall; [done|by vm_compute..].
Qed.

(** ** Runs that end otherwise than the documentation says *)

(** C1.  Two callables fail and both failures are recorded, ["first"]
    before ["second"], before the caller polls.  The caller takes
    ["first"] from [self.exceptions] and raises it (line 137); the
    [finally] block then takes ["second"] (line 147) and raises that one
    (line 153) in its place. *)
Theorem second_failure_replaces_first :
  let s := exec demo two_failures both_fail_before_poll init in
  recorded s = [Exc (OtherError "RuntimeError") "first";
                Exc (OtherError "RuntimeError") "second"]
  ∧ finished s = Some (Raised (Exc (OtherError "RuntimeError") "second")).
Proof. vm_compute. done. Qed.

(** C2.  [thread.join] (line 152) is reached only when the [finally]
    block finds an exception on [self.exceptions].  After a run without
    failure, and after a failure that the polling loop has already taken,
    [run_threads] ends without a single [join] while a worker has not
    ended: in the first run the worker is back at the head of its loop, in
    the second a task is still running. *)
Theorem ends_without_join :
  (let s := exec demo one_task task_then_caller init in
   finished s = Some Returned
   ∧ threads s = [WLoop] ∧ joined s = [] ∧ timed_out s = [])
  ∧ (let s := exec demo boom_and_slow fail_while_running init in
     finished s = Some (Raised (Exc (OtherError "RuntimeError") "boom"))
     ∧ threads s = [WTaskDone; WRun (Func "slow", fillvalue, fillvalue)]
     ∧ joined s = [] ∧ timed_out s = []).
Proof. vm_compute. done. Qed.

(** C3.  The only callable raises [queue.Empty].  [raise_( *exc)] stands
    inside [try ... except queue.Empty: pass] (lines 134-139 and 146-155),
    so the failure is caught again: under every schedule [run_threads] can
    only return normally, and there is a run in which it does so after the
    callable was called and its failure was recorded. *)
Theorem queue_empty_is_swallowed :
  (∀ sch, finished (exec demo raises_empty sch init) = None
          ∨ finished (exec demo raises_empty sch init) = Some Returned)
  ∧ (let s := exec demo raises_empty worker_then_caller init in
     finished s = Some Returned
     ∧ calls s = [Call "empty" [] []]
     ∧ recorded s = [Exc QueueEmpty ""]).
Proof.
  split; [|vm_compute; done].
  intros sch.
  pose proof (closed_all demo raises_empty 1 (reach demo raises_empty 1 20)
    (λ s, bool_decide (finished s = None ∨ finished s = Some Returned)) sch)
    as Hall.
  apply bool_decide_eq_true in Hall; [done|by vm_compute..].
Qed.

(** C5.  [funcs] is shorter than [args_list].  The length check (line
    123) comes after the threads are started (lines 117-121): in the first
    run the worker has called [f1] before the [ValueError] is raised; in
    the second the worker has also failed on the padded triple, and the
    [finally] block raises that [AttributeError] in place of the
    [ValueError]. *)
Theorem length_check_after_start :
  (let s := exec demo too_many_args call_before_check init in
   finished s = Some (Raised length_error)
   ∧ calls s = [Call "f1" [VInt 1] []]
   ∧ threads s = [WTaskDone])
  ∧ (let s := exec demo too_many_args fail_before_check init in
     finished s
     = Some (Raised (Exc AttributeError "'dict' object has no attribute '__module__'"))
     ∧ calls s = [Call "f1" [VInt 1] []]).
Proof. vm_compute. done. Qed.

(** C10.  The first callable raises [queue.Empty] (an [Exception]), the
    second would return; one worker.  The worker stops after the failure,
    the caller swallows it (line 138) and polls an unfinished-task count
    that stays at one: under no schedule does [run_threads] end.  Under
    the round-robin schedule the worker has ended and the second task is
    still queued. *)
Theorem queue_empty_hangs :
  (∀ sch, finished (exec demo empty_then_more sch init) = None)
  ∧ (let s := run demo empty_then_more (round_robin 1) 40 in
     threads s = [WExit] ∧ exceptions s = []
     ∧ queue s = [(Func "f2", fillvalue, fillvalue)]
     ∧ unfinished_tasks s = 1).
Proof.
  split; [|vm_compute; done].
  intros sch.
  pose proof (closed_all demo empty_then_more 1 (reach demo empty_then_more 1 20)
    (λ s, bool_decide (finished s = None)) sch) as Hall.
  apply bool_decide_eq_true in Hall; [done|by vm_compute..].
Qed.

(** C9.  Two threads make the first calls of wrappers of functions with
    the same name.  Both find the name missing from [LOCKS] (line 260)
    before either stores a lock (line 261): two locks are created for the
    one name, each thread acquires its own, and both bodies run at the
    same time.  When the calls come one after the other there is one
    lock, and each call returns what its function returns. *)
Theorem locker_race :
  (let s := Locker.exec Locker.both_check_first Locker.two_first_calls in
   Locker.in_body s = [0; 1]
   ∧ Locker.locks s = [true; true]
   ∧ Locker.at_pc <$> Locker.threads s = [Locker.Body 0; Locker.Body 1])
  ∧ (let s := Locker.exec Locker.one_after_the_other Locker.two_first_calls in
     Locker.locks s = [false]
     ∧ Locker.LOCKS s !! "mount" = Some 0
     ∧ Locker.at_pc <$> Locker.threads s
       = [Locker.Done (Locker.Returns (VInt 1));
          Locker.Done (Locker.Returns (VInt 2))]).
Proof. vm_compute. done. Qed.

(** ** The general statements at concrete calls *)

Lemma stop_signal_one_way_witness :
  let s := exec demo boom_slow_extra stop_with_work_left init in
  keep_running s = false
  ∧ let s' := exec demo boom_slow_extra [Worker 0; Worker 0] s in
    keep_running s' = false
    ∧ (∀ i, threads s' !! i = Some WGet → threads s !! i = Some WGet)
    ∧ (∀ i d, threads s' !! i = Some (WRun d) →
         threads s !! i = Some (WRun d) ∨ threads s !! i = Some WGet)
    ∧ length (queue s)
      ≤ length (queue s') + sum_list_with past_test (threads s)
    ∧ (∀ i, threads s' !! i = Some WLoop →
         threads (next demo boom_slow_extra (Worker i) s') !! i = Some WExit
         ∧ queue (next demo boom_slow_extra (Worker i) s') = queue s'
         ∧ calls (next demo boom_slow_extra (Worker i) s') = calls s')
    ∧ (∀ i d, threads s' !! i = Some (WRun d) →
         (∀ a, a ≠ Worker i →
            threads (next demo boom_slow_extra a s') !! i = Some (WRun d))
         ∧ calls (next demo boom_slow_extra (Worker i) s')
           = calls s' ++ option_list (snd (invoke demo d))
         ∧ threads (next demo boom_slow_extra (Worker i) s') !! i
           = Some match fst (invoke demo d) with
                  | Return => WTaskDone
                  | Raise e => if is_Exception e then WStop e else WExit
                  end).
Proof.
  intros s.
  assert (H : keep_running s = false) by reflexivity.
  split; [exact H|].
  exact (stop_signal_one_way demo boom_slow_extra [Worker 0; Worker 0] s H).
Defined.

(** The state of that example: the stop signal is set, one worker is
    back at the head of its loop, the other is running [slow], and
    [extra] is still queued; it stays queued to the end of the run. *)
Example stop_with_work_left_state :
  let s' := exec demo boom_slow_extra
              (stop_with_work_left ++ [Worker 0; Worker 0]) init in
  keep_running s' = false
  ∧ threads s' = [WLoop; WRun (Func "slow", fillvalue, fillvalue)]
  ∧ queue s' = [(Func "extra", fillvalue, fillvalue)]
  ∧ queue (exec demo boom_slow_extra (prefix (round_robin 2) 40) s')
    = [(Func "extra", fillvalue, fillvalue)]
  ∧ (cfunc <$> calls (exec demo boom_slow_extra (prefix (round_robin 2) 40) s'))
    = ["boom"; "slow"].
Proof. vm_compute. done. Qed.

Lemma text_entry_rejected_witness :
  Exists (λ a, is_text a = true) (args_list text_args)
  ∧ let s := exec demo text_args [Main; Worker 0; Main; Timer] init in
    threads s = [] ∧ calls s = []
    ∧ Forall (λ d : task, is_text (snd (fst d)) = false) (queue s)
    ∧ (∀ r, finished s = Some r → r = Raised text_error)
    ∧ (2 ≤ caller_turns [Main; Worker 0; Main; Timer] →
       finished s = Some (Raised text_error)).
Proof.
  assert (H : Exists (λ a, is_text a = true) (args_list text_args)).
  { simpl. apply Exists_cons_tl, Exists_cons_hd. reflexivity. }
  split; [exact H|].
  exact (text_entry_rejected demo text_args H [Main; Worker 0; Main; Timer]).
Defined.

Lemma shorter_lists_padded_witness :
  1 ≤ max_workers one_arg_set
  ∧ length (args_list one_arg_set) ≤ length (funcs one_arg_set)
  ∧ length (kwargs_list one_arg_set) ≤ length (funcs one_arg_set)
  ∧ Forall (λ a, is_text a = false) (args_list one_arg_set)
  ∧ Forall (λ k, is_Some (starstar k)) (kwargs_list one_arg_set)
  ∧ Forall (λ c, demo (cfunc c) (cargs c) (ckwargs c) = Return)
      (paired_calls one_arg_set)
  ∧ fair one_arg_set (round_robin 3)
  ∧ ∃ n, ∀ m, n ≤ m →
      finished (run demo one_arg_set (round_robin 3) m) = Some Returned
      ∧ length (calls (run demo one_arg_set (round_robin 3) m))
        = length (funcs one_arg_set)
      ∧ ∀ i f, funcs one_arg_set !! i = Some f →
          (length (args_list one_arg_set) ≤ i →
             queue (next demo one_arg_set Main init) !! i
             = Some (Func f, fillvalue,
                     default fillvalue (kwargs_list one_arg_set !! i))
             ∧ ∃ kw,
                 starstar (default fillvalue (kwargs_list one_arg_set !! i))
                 = Some kw
                 ∧ Call f [] kw
                   ∈ calls (run demo one_arg_set (round_robin 3) m))
          ∧ (length (kwargs_list one_arg_set) ≤ i →
             queue (next demo one_arg_set Main init) !! i
             = Some (Func f, default fillvalue (args_list one_arg_set !! i),
                     fillvalue)
             ∧ Call f (star (default fillvalue (args_list one_arg_set !! i))) []
               ∈ calls (run demo one_arg_set (round_robin 3) m)).
Proof.
  assert (H1 : 1 ≤ max_workers one_arg_set) by (simpl; lia).
  assert (H2 : length (args_list one_arg_set) ≤ length (funcs one_arg_set))
    by (simpl; lia).
  assert (H3 : length (kwargs_list one_arg_set) ≤ length (funcs one_arg_set))
    by (simpl; lia).
  assert (H4 : Forall (λ a, is_text a = false) (args_list one_arg_set))
    by (simpl; repeat constructor).
  assert (H5 : Forall (λ k, is_Some (starstar k)) (kwargs_list one_arg_set))
    by (simpl; constructor).
  assert (H6 : Forall (λ c, demo (cfunc c) (cargs c) (ckwargs c) = Return)
                 (paired_calls one_arg_set))
    by (vm_compute; repeat constructor).
  assert (H7 : fair one_arg_set (round_robin 3))
    by apply (round_robin_fair one_arg_set).
  repeat split; try assumption.
  exact (shorter_lists_padded demo one_arg_set H1 H2 H3 H4 H5 H6
           (round_robin 3) H7).
Defined.

(** Three callables and one argument set: the run ends normally after
    the calls [f1(1)], [f2()] and [f3()]. *)
Example one_arg_set_run :
  let s := run demo one_arg_set (round_robin 3) 40 in
  finished s = Some Returned
  ∧ calls s = [Call "f1" [VInt 1] []; Call "f2" [] []; Call "f3" [] []]
  ∧ recorded s = [].
Proof. vm_compute. done. Qed.

(** ** Every run of [run_threads] *)

Section EveryRun.

Variable body : string → list pyval → list (string * pyval) → outcome.
Variable p : Parallel.

(** The first loop puts a first part of the triples, in order. *)
Lemma enqueue_prefix ds s :
  ∃ ds1 ds2 r,
    ds = ds1 ++ ds2
    ∧ enqueue ds s
      = (State (queue s ++ ds1) (unfinished_tasks s + length ds1)
               (exceptions s) (keep_running s) (threads s) (main s)
               (calls s) (recorded s) (joined s) (timed_out s), r)
    ∧ (r = None ∧ ds2 = [] ∨ r = Some text_error).
Proof.
  revert s. induction ds as [|d ds IH]; intros s.
  - exists [], [], None. simpl. rewrite app_nil_r, Nat.add_0_r.
    destruct s; auto.
  - simpl. destruct (is_text (snd (fst d))).
    + exists [], (d :: ds), (Some text_error). simpl.
      rewrite app_nil_r, Nat.add_0_r. destruct s; auto.
    + destruct (IH (queue_put d s)) as (ds1 & ds2 & r & -> & Heq & Hr).
      exists (d :: ds1), ds2, r. split; [done|]. split; [|done].
      rewrite Heq. simpl. f_equal. f_equal; [by rewrite <- app_assoc|lia].
Qed.

Lemma sound_init : sound body p init.
Proof.
  repeat split; simpl; try done.
  - unfold counted. simpl. lia.
  - unfold once. simpl. apply submseteq_nil_l.
Qed.

Lemma sound_main s : sound body p s → sound body p (next body p Main s).
Proof.
  intros (Hst & Hcnt & Honce).
  unfold next, step, run_threads.
  destruct s as [q u ex kr th m cs rc jn to].
  unfold sound, started_ok, counted, once in *; simpl in *.
  destruct m as [|[|k]| | | |e|pend|pend e|pend e i|r]; simpl; try done.
  - injection Hst as -> -> -> -> -> -> -> -> ->.
    destruct (enqueue_prefix (triples p) init)
      as (ds1 & ds2 & r & Hds & Heq & Hr).
    unfold init in Heq. simpl in Heq. rewrite Heq.
    assert (Hsub : omap (call_of body) ds1 ⊆+ due_calls body p).
    { unfold due_calls. rewrite Hds, omap_app. by apply submseteq_inserts_r. }
    destruct r as [e|]; simpl; (split; [|split]); simpl; try lia; done.
  - split; [lia|done].
  - split; [|split].
    + rewrite length_app. simpl. lia.
    + rewrite sum_list_with_app. simpl. lia.
    + rewrite bind_app. simpl. by rewrite app_nil_r.
  - by destruct (too_few_funcs p).
  - by destruct u.
  - by destruct ex.
  - by destruct (is_queue_Empty e).
  - by destruct ex.
  - destruct (th !! i) as [[]|]; simpl; try done.
Qed.

Lemma sound_worker i s :
  sound body p s → sound body p (next body p (Worker i) s).
Proof.
  intros (Hst & Hcnt & Honce).
  unfold next, step, _wrapped.
  destruct (threads s !! i) as [w|] eqn:Hi; [|done].
  assert (Hne : main s ≠ MEnqueue).
  { intros Hm. unfold started_ok in Hst. rewrite Hm in Hst.
    rewrite Hst in Hi. discriminate. }
  assert (Hst' : ∀ s', main s' = main s →
            length (threads s') = length (threads s) → started_ok p s').
  { intros s' Hm Hl. unfold started_ok in *. rewrite Hm, Hl.
    by destruct (main s). }
  unfold sound, counted, once in *.
  destruct w as [| |d|e|e| |]; simpl; try done.
  - split; [|split]; simpl.
    + apply Hst'; simpl; [done|by rewrite length_insert].
    + pose proof (sum_list_with_insert busy _ i _
                    (if keep_running s then WGet else WExit) Hi).
      destruct (keep_running s); simpl in *; lia.
    + pose proof (bind_insert_perm held _ i _
                    (if keep_running s then WGet else WExit) Hi) as Hp.
      destruct (keep_running s); simpl in Hp; by rewrite Hp.
  - destruct (queue s) as [|d q] eqn:Hq; simpl.
    + split; [|split]; simpl.
      * apply Hst'; simpl; [done|by rewrite length_insert].
      * pose proof (sum_list_with_insert busy _ i _ WExit Hi).
        rewrite Hq. simpl in *. lia.
      * pose proof (bind_insert_perm held _ i _ WExit Hi) as Hp.
        simpl in Hp. by rewrite Hq, Hp.
    + split; [|split]; simpl.
      * apply Hst'; simpl; [done|by rewrite length_insert].
      * pose proof (sum_list_with_insert busy _ i _ (WRun d) Hi).
        simpl in *. lia.
      * pose proof (bind_insert_perm held _ i _ (WRun d) Hi) as Hp.
        simpl in Hp. rewrite Hp. rewrite <- Honce.
        apply Permutation_submseteq, Permutation_app_head.
        rewrite <- app_comm_cons, !omap_app, !omap_cons_list, omap_app.
        apply Permutation_app_swap_app.
  - split; [|split]; simpl.
    + apply Hst'; simpl; [done|by rewrite length_insert].
    + match goal with |- context [<[i:=?w]> _] =>
        pose proof (sum_list_with_insert busy _ i _ w Hi) as Hs end.
      destruct (fst (invoke body d)) as [|e]; [|destruct (is_Exception e)];
        simpl in *; lia.
    + match goal with |- context [<[i:=?w]> _] =>
        pose proof (bind_insert_perm held _ i _ w Hi) as Hp;
        assert (Hw : held w = []) by
          (destruct (fst (invoke body d)) as [|e];
           [|destruct (is_Exception e)]; done)
      end.
      rewrite Hw in Hp. simpl in Hp. rewrite <- Honce, <- Hp.
      rewrite <- app_comm_cons, omap_cons_list. unfold call_of at 2.
      by rewrite app_assoc.
  - split; [|split]; simpl.
    + apply Hst'; simpl; [done|by rewrite length_insert].
    + pose proof (sum_list_with_insert busy _ i _ (WPut e) Hi).
      simpl in *. lia.
    + pose proof (bind_insert_perm held _ i _ (WPut e) Hi) as Hp.
      simpl in Hp. by rewrite Hp.
  - split; [|split]; simpl.
    + apply Hst'; simpl; [done|by rewrite length_insert].
    + pose proof (sum_list_with_insert busy _ i _ WTaskDone Hi).
      simpl in *. lia.
    + pose proof (bind_insert_perm held _ i _ WTaskDone Hi) as Hp.
      simpl in Hp. by rewrite Hp.
  - destruct (unfinished_tasks s) as [|u] eqn:Hu; simpl.
    + split; [|split]; simpl.
      * apply Hst'; simpl; [done|by rewrite length_insert].
      * pose proof (sum_list_with_insert busy _ i _ WExit Hi).
        rewrite Hu. simpl in *. lia.
      * pose proof (bind_insert_perm held _ i _ WExit Hi) as Hp.
        simpl in Hp. by rewrite Hp.
    + split; [|split]; simpl.
      * apply Hst'; simpl; [done|by rewrite length_insert].
      * pose proof (sum_list_with_insert busy _ i _ WLoop Hi).
        simpl in *. lia.
      * pose proof (bind_insert_perm held _ i _ WLoop Hi) as Hp.
        simpl in Hp. by rewrite Hp.
Qed.

Lemma sound_timer s : sound body p s → sound body p (next body p Timer s).
Proof.
  intros (Hst & Hcnt & Honce). unfold next, step, join_timeout.
  destruct s as [q u ex kr th m cs rc jn to].
  unfold sound, started_ok, counted, once in *; simpl in *.
  destruct m as [| | | | | | | |pend e i|]; simpl; try done.
  destruct (th !! i) as [[]|]; simpl; done.
Qed.

Lemma sound_exec sch s : sound body p s → sound body p (exec body p sch s).
Proof.
  revert s. induction sch as [|a sch IH]; intros s Hs; simpl; [done|].
  apply IH. destruct a; [by apply sound_main|by apply sound_worker|].
  by apply sound_timer.
Qed.

Lemma sound_run sch : sound body p (exec body p sch init).
Proof. apply sound_exec, sound_init. Qed.

Lemma held_length (l : list wpc) : length (l ≫= held) ≤ length l.
Proof.
  induction l as [|w l IH]; [done|]. rewrite bind_cons, length_app. simpl.
  destruct w; simpl; lia.
Qed.

(** X1.  However the run is scheduled, [run_threads] never has more than
    [max_workers] worker threads, so never more than [max_workers] tasks
    are dequeued and unfinished at the same time. *)
Theorem workers_bounded sch :
  length (threads (exec body p sch init)) ≤ max_workers p
  ∧ length (threads (exec body p sch init) ≫= held) ≤ max_workers p.
Proof.
  destruct (sound_run sch) as (Hst & _).
  assert (Hlen : length (threads (exec body p sch init)) ≤ max_workers p).
  { unfold started_ok in Hst.
    destruct (main (exec body p sch init)); try lia.
    rewrite Hst. simpl. lia. }
  split; [done|]. etrans; [apply held_length|done].
Qed.

Lemma imap_as_fmap {A B} (f : nat → A → B) (d : A) (l : list A) :
  imap f l = (λ i, f i (default d (l !! i))) <$> seq 0 (length l).
Proof.
  apply list_eq. intros i.
  rewrite list_lookup_imap, list_lookup_fmap.
  destruct (l !! i) as [x|] eqn:Hi; simpl.
  - rewrite lookup_seq_lt by (by eapply lookup_lt_Some). simpl. by rewrite Hi.
  - rewrite lookup_seq_ge; [done|]. by apply lookup_ge_None.
Qed.

Lemma omap_sublist_fmap {A B} (g : A → option B) (h : A → B) (l : list A) :
  Forall (λ x, g x = None ∨ g x = Some (h x)) l →
  omap g l `sublist_of` h <$> l.
Proof.
  induction 1 as [|x l [Hx|Hx] _ IH]; [done| |].
  - rewrite omap_cons_list, Hx, fmap_cons. simpl. by apply sublist_cons.
  - rewrite omap_cons_list, Hx, fmap_cons. simpl. by apply sublist_skip.
Qed.

Lemma omap_none {A B} (g : A → option B) (l : list A) :
  Forall (λ x, g x = None) l → omap g l = [].
Proof.
  induction 1 as [|x l Hx _ IH]; [done|].
  by rewrite omap_cons_list, Hx, IH.
Qed.

Lemma omap_fmap {A B C} (g : B → option C) (f : A → B) (l : list A) :
  omap g (f <$> l) = omap (g ∘ f) l.
Proof.
  induction l as [|x l IH]; [done|].
  by rewrite fmap_cons, !omap_cons_list, IH.
Qed.

(** The calls of the triples are paired calls, in the same order. *)
Lemma due_calls_paired : due_calls body p `sublist_of` paired_calls p.
Proof.
  unfold due_calls, paired_calls, triples, zip_longest.
  rewrite (imap_as_fmap _ ""), length_fmap.
  set (L := length (funcs p)).
  set (N := L `max` (length (args_list p) `max` length (kwargs_list p))).
  replace N with (L + (N - L)) by lia.
  rewrite seq_app, fmap_app, omap_app, !omap_fmap.
  rewrite (omap_none _ (seq (0 + L) (N - L))).
  - rewrite app_nil_r. apply omap_sublist_fmap, Forall_forall.
    intros i Hi%elem_of_seq. unfold compose, call_of. simpl.
    rewrite list_lookup_fmap.
    destruct (lookup_lt_is_Some_2 (funcs p) i ltac:(lia)) as [f Hf].
    rewrite Hf. simpl. unfold paired_call.
    destruct (starstar (default fillvalue (kwargs_list p !! i))); auto.
  - apply Forall_forall. intros i Hi%elem_of_seq. unfold compose, call_of.
    simpl. rewrite list_lookup_fmap, (lookup_ge_None_2 (funcs p)) by lia.
    done.
Qed.

(** X2.  However the run is scheduled and whether tasks fail or not, the
    calls made are calls of listed callables with their paired arguments,
    and no callable is called more often than it is listed: a task is
    never run twice. *)
Theorem called_at_most_once sch :
  calls (exec body p sch init) ⊆+ paired_calls p.
Proof.
  destruct (sound_run sch) as (_ & _ & Honce). unfold once in Honce.
  etrans; [|apply sublist_submseteq, due_calls_paired].
  etrans; [|exact Honce]. by apply submseteq_inserts_r.
Qed.

(** X3.  [unfinished_tasks] is never less than the number of queued
    triples plus the triples that workers have taken and not yet marked
    done.  So when a worker comes to [task_done] the count is positive:
    [task_done] never raises its "called too many times" error. *)
Theorem task_done_never_fails sch i :
  threads (exec body p sch init) !! i = Some WTaskDone →
  length (queue (exec body p sch init))
  + sum_list_with busy (threads (exec body p sch init))
  ≤ unfinished_tasks (exec body p sch init)
  ∧ ∃ n, unfinished_tasks (exec body p sch init) = S n
         ∧ next body p (Worker i) (exec body p sch init)
           = set_thread i WLoop (set_unfinished n (exec body p sch init)).
Proof.
  intros Hi. destruct (sound_run sch) as (_ & Hcnt & _).
  unfold counted in Hcnt. split; [done|].
  assert (Hpos : 1 ≤ sum_list_with busy (threads (exec body p sch init))).
  { apply (sum_list_with_in WTaskDone busy), list_elem_of_lookup. eauto. }
  destruct (unfinished_tasks (exec body p sch init)) as [|n] eqn:Hu; [lia|].
  exists n. split; [done|]. unfold next, step, _wrapped. by rewrite Hi, Hu.
Qed.

(** *** Where the caller's exception comes from *)

Lemma traced_frame s s' :
  main s' = main s → exceptions s' = exceptions s →
  recorded s' = recorded s → unfinished_tasks s' = unfinished_tasks s →
  traced s → traced s'.
Proof. unfold traced. by intros -> -> -> ->. Qed.

Lemma recorded_next a s :
  ∃ l, recorded (next body p a s) = recorded s ++ l.
Proof.
  unfold next, step. destruct a as [|i|]; simpl.
  - unfold run_threads.
    destruct (main s) as [|[|k]| | | |e|pend|pend e|pend e i|r]; simpl;
      try (by exists []; rewrite app_nil_r).
    + destruct (enqueue_prefix (triples p) s)
        as (ds1 & ds2 & r & _ & Heq & _). rewrite Heq.
      exists []. rewrite app_nil_r. by destruct r.
    + exists []. rewrite app_nil_r. by destruct (too_few_funcs p).
    + exists []. rewrite app_nil_r. by destruct (unfinished_tasks s).
    + exists []. rewrite app_nil_r. by destruct (exceptions s).
    + exists []. rewrite app_nil_r. by destruct (exceptions s).
    + exists []. rewrite app_nil_r. by destruct (threads s !! i) as [[]|].
  - unfold _wrapped.
    destruct (threads s !! i) as [[| |d|e|e| |]|]; simpl;
      try (by exists []; rewrite app_nil_r).
    + exists []. rewrite app_nil_r. by destruct (queue s).
    + by exists [e].
    + exists []. rewrite app_nil_r. by destruct (unfinished_tasks s).
  - unfold join_timeout.
    destruct (main s) as [| | | | | | | |pend e i|]; simpl;
      try (by exists []; rewrite app_nil_r).
    exists []. rewrite app_nil_r. by destruct (threads s !! i) as [[]|].
Qed.

Lemma recorded_exec sch s :
  ∃ l, recorded (exec body p sch s) = recorded s ++ l.
Proof.
  revert s. induction sch as [|a sch IH]; intros s; simpl.
  - exists []. by rewrite app_nil_r.
  - destruct (IH (next body p a s)) as [l Hl].
    destruct (recorded_next a s) as [l' Hl'].
    exists (l' ++ l). by rewrite Hl, Hl', app_assoc.
Qed.

Lemma traced_main s :
  sound body p s → no_Empty (recorded s) → traced s →
  traced (next body p Main s).
Proof.
  intros (Hst & Hcnt & _) Hne [Hsub Ht].
  unfold next, step, run_threads.
  destruct s as [q u ex kr th m cs rc jn to].
  unfold traced, started_ok, counted, no_Empty in *; simpl in *.
  destruct m as [|[|k]| | | |e|pend|pend e|pend e i|r]; simpl; try done.
  - injection Hst as -> -> -> -> -> -> -> -> ->.
    destruct (enqueue_prefix (triples p) init)
      as (ds1 & ds2 & r & Hds & Heq & Hr).
    unfold init in Heq. simpl in Heq. rewrite Heq.
    destruct Hr as [[-> _]| ->]; simpl; [done|].
    split; [done|]. right. by left.
  - destruct (too_few_funcs p); simpl; [|done].
    split; [done|]. right. by right.
  - destruct u; simpl; done.
  - subst ex. destruct rc as [|e es]; simpl; [done|]. split.
    + intros x Hx. apply elem_of_cons. by right.
    + apply elem_of_cons. by left.
  - rewrite (proj1 (Forall_forall _ _) Hne e Ht). simpl. split; [done|by left].
  - destruct ex as [|e es]; simpl.
    + split; [done|]. destruct pend as [e|]; simpl; [done|].
      by destruct Ht as [<- ->].
    + split.
      * intros x Hx. apply Hsub, elem_of_cons. by right.
      * apply Hsub, elem_of_cons. by left.
  - destruct (th !! i) as [[]|]; simpl; try done.
    rewrite (proj1 (Forall_forall _ _) Hne e Ht). split; [done|by left].
Qed.

Lemma traced_worker i s :
  sound body p s → traced s → traced (next body p (Worker i) s).
Proof.
  intros (Hst & Hcnt & _) Ht.
  unfold next, step, _wrapped.
  destruct (threads s !! i) as [w|] eqn:Hi; [|done].
  assert (Hbusy : busy w ≤ unfinished_tasks s).
  { unfold counted in Hcnt.
    pose proof (sum_list_with_in w busy (threads s)
                  (list_elem_of_lookup_2 _ _ _ Hi)). lia. }
  destruct w as [| |d|e|e| |]; simpl; try done;
    try (by eapply traced_frame; [..|exact Ht]).
  - destruct (queue s); by eapply traced_frame; [..|exact Ht].
  - destruct Ht as [Hsub Ht]. unfold traced in *. simpl in *. split.
    + intros x [Hx|Hx]%elem_of_app; apply elem_of_app; [left; auto|by right].
    + destruct (main s) as [| | | | | |[|]| | |[|]]; simpl in *;
        rewrite ?elem_of_app; try tauto; try congruence.
      * by destruct Ht as [-> ->].
      * lia.
  - destruct Ht as [Hsub Ht]. unfold traced in *.
    destruct (unfinished_tasks s) as [|u] eqn:Hu; simpl in *.
    + split; [done|]. rewrite Hu. done.
    + split; [done|].
      destruct (main s) as [| | | | | |[|]| | |[|]]; simpl in *;
        try done; destruct Ht; congruence.
Qed.

Lemma traced_timer s : traced s → traced (next body p Timer s).
Proof.
  intros Ht. unfold next, step, join_timeout.
  destruct (main s) as [| | | | | | | |pend e i|] eqn:Hm; simpl; try done.
  destruct (threads s !! i) as [[]|]; simpl; try done;
    unfold traced in *; simpl; by rewrite Hm in Ht.
Qed.

Lemma traced_exec sch : ∀ s,
  sound body p s → traced s →
  no_Empty (recorded (exec body p sch s)) → traced (exec body p sch s).
Proof.
  induction sch as [|a sch IH]; intros s Hs Ht Hne; [done|].
  simpl in *. assert (Hne' : no_Empty (recorded (next body p a s))).
  { destruct (recorded_exec sch (next body p a s)) as [l Hl].
    rewrite Hl in Hne. by apply Forall_app in Hne as [? _]. }
  assert (Hne0 : no_Empty (recorded s)).
  { destruct (recorded_next a s) as [l Hl]. rewrite Hl in Hne'.
    by apply Forall_app in Hne' as [? _]. }
  apply IH; [|  |done].
  - destruct a; [by apply sound_main|by apply sound_worker|by apply sound_timer].
  - destruct a; [by apply traced_main|by apply traced_worker|by apply traced_timer].
Qed.

(** X4.  Let no recorded task failure be a [queue.Empty].  Then when
    [run_threads] ends, it returns normally only if no failure was
    recorded at all, and what it raises is a recorded task failure or one
    of its own two validation errors: a failure is never dropped and no
    other error is ever put in its place. *)
Theorem failure_surfaces sch r :
  finished (exec body p sch init) = Some r →
  Forall (λ e, is_queue_Empty e = false) (recorded (exec body p sch init)) →
  match r with
  | Returned => recorded (exec body p sch init) = []
  | Raised e =>
      e ∈ recorded (exec body p sch init) ∨ e = text_error ∨ e = length_error
  end.
Proof.
  intros Hr Hne.
  destruct (traced_exec sch init sound_init) as [_ Ht]; [done|done|].
  unfold finished in Hr.
  destruct (main (exec body p sch init)); try discriminate.
  injection Hr as ->. destruct r as [|e]; [by destruct Ht|done].
Qed.

(** *** After the stop signal *)

Lemma still_next a s :
  keep_running s = false →
  length (calls (next body p a s))
  + sum_list_with may_still_call (threads (next body p a s))
  ≤ length (calls s) + sum_list_with may_still_call (threads s).
Proof.
  intros Hk. unfold next, step. destruct a as [|i|]; simpl.
  - unfold run_threads.
    destruct (main s) as [|[|k]| | | |e|pend|pend e|pend e i|r]; simpl; try done.
    + pose proof (enqueue_frame (triples p) s) as (Hth & _ & Hc & _).
      destruct (enqueue (triples p) s) as [s' [e|]]; simpl in *;
        by rewrite Hth, Hc.
    + rewrite sum_list_with_app. simpl. lia.
    + by destruct (too_few_funcs p).
    + by destruct (unfinished_tasks s).
    + by destruct (exceptions s).
    + by destruct (exceptions s).
    + by destruct (threads s !! i) as [[]|].
  - unfold _wrapped. destruct (threads s !! i) as [w|] eqn:Hi; [|done].
    destruct w as [| |d|e|e| |]; simpl; try done.
    + rewrite Hk.
      pose proof (sum_list_with_insert may_still_call _ i _ WExit Hi).
      simpl in *. lia.
    + destruct (queue s) as [|d q]; simpl.
      * pose proof (sum_list_with_insert may_still_call _ i _ WExit Hi).
        simpl in *. lia.
      * pose proof (sum_list_with_insert may_still_call _ i _ (WRun d) Hi).
        simpl in *. lia.
    + match goal with |- context [<[i:=?w]> _] =>
        pose proof (sum_list_with_insert may_still_call _ i _ w Hi) as Hs;
        assert (Hw : may_still_call w = 0) by
          (destruct (fst (invoke body d)) as [|e];
           [|destruct (is_Exception e)]; done)
      end.
      rewrite length_app. destruct (snd (invoke body d)); simpl in *; lia.
    + pose proof (sum_list_with_insert may_still_call _ i _ (WPut e) Hi).
      simpl in *. lia.
    + pose proof (sum_list_with_insert may_still_call _ i _ WTaskDone Hi).
      simpl in *. lia.
    + destruct (unfinished_tasks s); simpl.
      * pose proof (sum_list_with_insert may_still_call _ i _ WExit Hi).
        simpl in *. lia.
      * pose proof (sum_list_with_insert may_still_call _ i _ WLoop Hi).
        simpl in *. lia.
  - unfold join_timeout.
    destruct (main s) as [| | | | | | | |pend e i|]; simpl; try done.
    by destruct (threads s !! i) as [[]|].
Qed.

(** X6.  Once [keep_running] is false, the only calls still made are those
    of workers that were already past the test of their loop: at most one
    further call for each worker that was about to dequeue or was running
    a task, however the run goes on and however many triples are still
    queued. *)
Theorem calls_after_stop sch s :
  keep_running s = false →
  length (calls (exec body p sch s))
  ≤ length (calls s) + sum_list_with may_still_call (threads s).
Proof.
  revert s. induction sch as [|a sch IH]; intros s Hk; simpl; [lia|].
  etrans; [apply IH; by apply keep_running_next|].
  etrans; [|by apply (still_next a)]. lia.
Qed.

(** *** One worker *)

Lemma in_order_next a s :
  max_workers p = 1 → sound body p s →
  in_order body p s → in_order body p (next body p a s).
Proof.
  intros Hone (Hst & _) Hord. unfold next, step. destruct a as [|i|]; simpl.
  - unfold run_threads.
    destruct s as [q u ex kr th m cs rc jn to].
    unfold in_order, started_ok in *; simpl in *.
    destruct m as [|[|k]| | | |e|pend|pend e|pend e i|r]; simpl; try done.
    + injection Hst as -> -> -> -> -> -> -> -> ->.
      destruct (enqueue_prefix (triples p) init)
        as (ds1 & ds2 & r & Hds & Heq & Hr).
      unfold init in Heq. simpl in Heq. rewrite Heq.
      assert (Hpre : omap (call_of body) ds1 `prefix_of` due_calls body p).
      { unfold due_calls. rewrite Hds, omap_app. by apply prefix_app_r. }
      by destruct r.
    + rewrite bind_app. simpl. by rewrite app_nil_r.
    + by destruct (too_few_funcs p).
    + by destruct u.
    + by destruct ex.
    + by destruct ex.
    + by destruct (th !! i) as [[]|].
  - unfold _wrapped. destruct (threads s !! i) as [w|] eqn:Hi; [|done].
    assert (Hth : threads s = [w] ∧ i = 0).
    { unfold started_ok in Hst.
      assert (length (threads s) ≤ 1).
      { destruct (main s); try lia. rewrite Hst in Hi. discriminate. }
      destruct (threads s) as [|w' [|w'' l]]; simpl in *; [done| |lia].
      destruct i; [|done]. by injection Hi as ->. }
    destruct Hth as [Hth ->]. unfold in_order in *. rewrite Hth in Hord.
    destruct w as [| |d|e|e| |]; simpl in *; rewrite ?Hth; simpl; try done.
    + by destruct (keep_running s).
    + destruct (queue s) as [|d q] eqn:Hq; simpl; rewrite ?Hth, ?Hq; simpl;
        done.
    + assert (Hord' : calls s ++ option_list (call_of body d)
                        ++ omap (call_of body) (queue s)
                      `prefix_of` due_calls body p).
      { by destruct (call_of body d). }
      assert (Hw : ∀ w', held w' = [] →
                (calls s ++ option_list (snd (invoke body d)))
                ++ omap (call_of body) ((held w' ++ []) ++ queue s)
                `prefix_of` due_calls body p).
      { intros w' ->. simpl. by rewrite <- app_assoc. }
      destruct (fst (invoke body d)) as [|e]; [|destruct (is_Exception e)];
        by apply Hw.
    + destruct (unfinished_tasks s); simpl; rewrite ?Hth; simpl; done.
  - unfold join_timeout.
    destruct (main s) as [| | | | | | | |pend e i|] eqn:Hm; simpl; try done.
    destruct (threads s !! i) as [[]|]; simpl; done.
Qed.

(** X5.  With a single worker the callables are called in the order of
    the queue: at every moment the calls made so far are a first part of
    the calls of the triples, in their order. *)
Theorem one_worker_in_order sch :
  max_workers p = 1 →
  calls (exec body p sch init) `prefix_of` due_calls body p.
Proof.
  intros Hone.
  assert (Hord : ∀ s, sound body p s → in_order body p s →
                      in_order body p (exec body p sch s)).
  { induction sch as [|a sch IH]; intros s Hs Ho; [done|]. simpl.
    apply IH; [|by apply in_order_next].
    destruct a; [by apply sound_main|by apply sound_worker|by apply sound_timer]. }
  specialize (Hord init sound_init). unfold in_order in Hord.
  etrans; [|apply Hord].
  - by apply prefix_app_r.
  - simpl. apply prefix_nil.
Qed.

End EveryRun.

Lemma task_done_never_fails_witness :
  threads (exec demo one_task before_task_done init) !! 0 = Some WTaskDone
  ∧ length (queue (exec demo one_task before_task_done init))
    + sum_list_with busy (threads (exec demo one_task before_task_done init))
    ≤ unfinished_tasks (exec demo one_task before_task_done init)
  ∧ ∃ n, unfinished_tasks (exec demo one_task before_task_done init) = S n
         ∧ next demo one_task (Worker 0)
             (exec demo one_task before_task_done init)
           = set_thread 0 WLoop
               (set_unfinished n (exec demo one_task before_task_done init)).
Proof.
  assert (H : threads (exec demo one_task before_task_done init) !! 0
              = Some WTaskDone) by reflexivity.
  split; [exact H|].
  exact (task_done_never_fails demo one_task before_task_done 0 H).
Defined.

Lemma failure_surfaces_witness :
  finished (exec demo boom_and_slow fail_while_running init)
  = Some (Raised (Exc (OtherError "RuntimeError") "boom"))
  ∧ Forall (λ e, is_queue_Empty e = false)
      (recorded (exec demo boom_and_slow fail_while_running init))
  ∧ (Exc (OtherError "RuntimeError") "boom"
       ∈ recorded (exec demo boom_and_slow fail_while_running init)
     ∨ Exc (OtherError "RuntimeError") "boom" = text_error
     ∨ Exc (OtherError "RuntimeError") "boom" = length_error).
Proof.
  assert (H1 : finished (exec demo boom_and_slow fail_while_running init)
               = Some (Raised (Exc (OtherError "RuntimeError") "boom")))
    by reflexivity.
  assert (H2 : Forall (λ e, is_queue_Empty e = false)
                 (recorded (exec demo boom_and_slow fail_while_running init)))
    by (vm_compute; repeat constructor).
  split; [exact H1|]. split; [exact H2|].
  exact (failure_surfaces demo boom_and_slow fail_while_running _ H1 H2).
Defined.

Lemma calls_after_stop_witness :
  keep_running (exec demo boom_and_slow failure_sets_stop init) = false
  ∧ length (calls (exec demo boom_and_slow (prefix (round_robin 2) 40)
                     (exec demo boom_and_slow failure_sets_stop init)))
    ≤ length (calls (exec demo boom_and_slow failure_sets_stop init))
      + sum_list_with may_still_call
          (threads (exec demo boom_and_slow failure_sets_stop init)).
Proof.
  assert (H : keep_running (exec demo boom_and_slow failure_sets_stop init)
              = false) by reflexivity.
  split; [exact H|].
  exact (calls_after_stop demo boom_and_slow (prefix (round_robin 2) 40) _ H).
Defined.

Lemma one_worker_in_order_witness :
  max_workers serial_tasks = 1
  ∧ calls (exec demo serial_tasks (prefix (round_robin 1) 30) init)
    `prefix_of` due_calls demo serial_tasks.
Proof.
  assert (H : max_workers serial_tasks = 1) by reflexivity.
  split; [exact H|].
  exact (one_worker_in_order demo serial_tasks (prefix (round_robin 1) 30) H).
Defined.

(** ** Runs in which tasks may fail *)

Lemma elem_of_insert_other {A} (l : list A) i x y z :
  l !! i = Some y → x ≠ y → x ∈ l → x ∈ <[i:=z]> l.
Proof.
  intros Hi Hne [j Hj]%list_elem_of_lookup.
  apply list_elem_of_lookup. exists j.
  rewrite list_lookup_insert_ne; [done|]. intros ->. congruence.
Qed.

Section Ends.

Variable body : string → list pyval → list (string * pyval) → outcome.
Variable p : Parallel.

Hypothesis Hout : Forall (handled body) (triples p).

Lemma steady_init : steady body p init.
Proof.
  unfold steady, all_started. simpl. repeat split; try done.
  intros []%elem_of_nil.
Qed.

Lemma steady_main s : steady body p s → steady body p (next body p Main s).
Proof.
  intros (Hst & Hun & Hw & Hq & Hex & Hkr & Hend).
  unfold next, step, run_threads.
  destruct s as [q u ex kr th m cs rc jn to].
  unfold steady, all_started in *; simpl in *.
  destruct m as [|[|k]| | | |e|pend|pend e|pend e i|r]; simpl; try done.
  - injection Hst as -> -> -> -> -> -> -> -> ->.
    destruct (enqueue_prefix (triples p) init)
      as (ds1 & ds2 & r & Hds & Heq & Hr).
    unfold init in Heq. simpl in Heq. rewrite Heq.
    assert (Hds1 : Forall (handled body) ds1).
    { rewrite Hds in Hout. by apply Forall_app in Hout as [? _]. }
    destruct r as [e|]; simpl; repeat split; simpl; try done; try lia;
      by intros []%elem_of_nil.
  - repeat split; try done. lia.
  - rewrite length_app, sum_list_with_app. simpl.
    repeat split; try done; try lia.
    + apply Forall_app. split; [done|]. by repeat constructor.
    + intros Hk _. destruct (Hkr Hk I) as [?|[e He]]; [by left|].
      right. exists e. apply elem_of_app. by left.
    + intros [Hin|Hin]%elem_of_app; [by apply Hend|].
      by apply list_elem_of_singleton in Hin.
  - destruct (too_few_funcs p); simpl; repeat split; try done. lia.
  - destruct u; simpl; repeat split; try done; lia.
  - destruct ex as [|e es]; simpl; [done|].
    apply Forall_cons in Hex as [He Hes].
    repeat split; try done. lia.
  - destruct Hst as [He Hlen]. rewrite He. simpl.
    repeat split; try done. by right.
  - destruct ex as [|e es]; simpl.
    + by destruct pend.
    + apply Forall_cons in Hex as [He Hes].
      repeat split; try done. destruct pend; lia.
  - destruct Hst as [He Hlen]. repeat split; try done. by right.
  - destruct Hst as [He Hlen].
    destruct (th !! i) as [[]|]; simpl; rewrite ?He; try done.
Qed.

Lemma started_frame s s' :
  main s' = main s → length (threads s') = length (threads s) →
  unfinished_tasks s' ≤ unfinished_tasks s →
  main s ≠ MEnqueue → all_started p s → all_started p s'.
Proof.
  unfold all_started. intros -> -> Hu Hne.
  destruct (main s) as [| | | | | |[e|]|pend e|pend e i|[|e]]; try done; lia.
Qed.

Lemma steady_worker i s :
  steady body p s → steady body p (next body p (Worker i) s).
Proof.
  intros (Hst & Hun & Hw & Hq & Hex & Hkr & Hend).
  unfold next, step, _wrapped.
  destruct (threads s !! i) as [w|] eqn:Hi; [|done].
  assert (Hne : main s ≠ MEnqueue).
  { intros Hm. unfold all_started in Hst. rewrite Hm in Hst.
    rewrite Hst in Hi. discriminate. }
  assert (Hwi : worker_handled body w).
  { eapply (proj1 (Forall_forall _ _) Hw), list_elem_of_lookup; eauto. }
  assert (Hst' : ∀ s', main s' = main s →
            length (threads s') = length (threads s) →
            unfinished_tasks s' ≤ unfinished_tasks s → all_started p s').
  { intros s' Hm Hl Hu. by eapply started_frame. }
  assert (Hput : ∀ w', (∀ e, w ≠ WPut e) →
            (exceptions s ≠ [] ∨ ∃ e, WPut e ∈ threads s) →
            exceptions s ≠ [] ∨ ∃ e, WPut e ∈ <[i:=w']> (threads s)).
  { intros w' Hno [?|[e He]]; [by left|]. right. exists e.
    eapply elem_of_insert_other; eauto. }
  assert (Hexit : ∀ w', w' ≠ WExit → WExit ∈ <[i:=w']> (threads s) →
            WExit ∈ threads s).
  { intros w' Hw' [?|?]%elem_of_insert_inv; [congruence|done]. }
  unfold steady.
  destruct w as [| |d|e|e| |]; simpl; try done.
  - pose proof (sum_list_with_insert busy _ i _
                  (if keep_running s then WGet else WExit) Hi) as Hs.
    split; [|split; [|split; [|split; [|split; [|split]]]]]; simpl; try done.
    + apply Hst'; simpl; [done|by rewrite length_insert|lia].
    + destruct (keep_running s); simpl in *; lia.
    + apply Forall_insert; [done|]. by destruct (keep_running s).
    + intros Hk Hp. apply Hput; [done|]. by apply Hkr.
    + destruct (keep_running s) eqn:Hk; [|by right].
      intros Hin. apply Hend. by apply (Hexit WGet).
  - destruct (queue s) as [|d q] eqn:Hqueue; simpl.
    + pose proof (sum_list_with_insert busy _ i _ WExit Hi) as Hs.
      split; [|split; [|split; [|split; [|split; [|split]]]]]; simpl;
        rewrite ?Hqueue; try done.
      * apply Hst'; simpl; [done|by rewrite length_insert|lia].
      * simpl in *. lia.
      * by apply Forall_insert.
      * intros Hk Hp. apply Hput; [done|]. by apply Hkr.
      * by left.
    + pose proof (sum_list_with_insert busy _ i _ (WRun d) Hi) as Hs.
      apply Forall_cons in Hq as [Hd Hq].
      split; [|split; [|split; [|split; [|split; [|split]]]]]; simpl; try done.
      * apply Hst'; simpl; [done|by rewrite length_insert|lia].
      * simpl in *. lia.
      * by apply Forall_insert.
      * intros Hk Hp. apply Hput; [done|]. by apply Hkr.
      * intros Hin. right. apply (Hexit (WRun d)) in Hin; [|done].
        by destruct (Hend Hin).
  - unfold worker_handled, handled in Hwi.
    assert (Hnext : ∃ w',
      match fst (invoke body d) with
      | Return => WTaskDone
      | Raise e => if is_Exception e then WStop e else WExit
      end = w' ∧ busy w' = 1 ∧ worker_handled body w' ∧ w' ≠ WExit).
    { destruct (fst (invoke body d)) as [|e]; [by eexists|].
      destruct Hwi as [-> He]. by eexists. }
    destruct Hnext as (w' & -> & Hb & Hh & Hx).
    pose proof (sum_list_with_insert busy _ i _ w' Hi) as Hs.
    split; [|split; [|split; [|split; [|split; [|split]]]]]; simpl; try done.
    + apply Hst'; simpl; [done|by rewrite length_insert|lia].
    + simpl in *. lia.
    + by apply Forall_insert.
    + intros Hk Hp. apply Hput; [done|]. by apply Hkr.
    + intros Hin. apply Hend. by apply (Hexit w').
  - pose proof (sum_list_with_insert busy _ i _ (WPut e) Hi) as Hs.
    split; [|split; [|split; [|split; [|split; [|split]]]]]; simpl; try done.
    + apply Hst'; simpl; [done|by rewrite length_insert|lia].
    + simpl in *. lia.
    + by apply Forall_insert.
    + intros _ _. right. exists e. apply list_elem_of_lookup. exists i.
      apply list_lookup_insert_eq. by eapply lookup_lt_Some.
    + intros _. by right.
  - pose proof (sum_list_with_insert busy _ i _ WTaskDone Hi) as Hs.
    split; [|split; [|split; [|split; [|split; [|split]]]]]; simpl; try done.
    + apply Hst'; simpl; [done|by rewrite length_insert|lia].
    + simpl in *. lia.
    + by apply Forall_insert.
    + apply Forall_app. split; [done|]. by repeat constructor.
    + intros _ _. left. by destruct (exceptions s).
    + intros Hin. apply Hend. by apply (Hexit WTaskDone).
  - assert (Hpos : 1 ≤ sum_list_with busy (threads s)).
    { apply (sum_list_with_in WTaskDone busy), list_elem_of_lookup. eauto. }
    destruct (unfinished_tasks s) as [|u] eqn:Hu; [lia|]. simpl.
    pose proof (sum_list_with_insert busy _ i _ WLoop Hi) as Hs.
    split; [|split; [|split; [|split; [|split; [|split]]]]]; simpl; try done.
    + apply Hst'; simpl; [done|by rewrite length_insert|lia].
    + simpl in *. lia.
    + by apply Forall_insert.
    + intros Hk Hp. apply Hput; [done|]. by apply Hkr.
    + intros Hin. apply Hend. by apply (Hexit WLoop).
Qed.

Lemma steady_timer s : steady body p s → steady body p (next body p Timer s).
Proof.
  intros (Hst & Hun & Hw & Hq & Hex & Hkr & Hend).
  unfold next, step, join_timeout.
  destruct s as [q u ex kr th m cs rc jn to].
  unfold steady, all_started in *; simpl in *.
  destruct m as [| | | | | | | |pend e i|]; simpl; try done.
  destruct (th !! i) as [[]|]; simpl; done.
Qed.

Lemma steady_next a s : steady body p s → steady body p (next body p a s).
Proof.
  destruct a; [apply steady_main|apply steady_worker|apply steady_timer].
Qed.

Lemma steady_run sch n : steady body p (run body p sch n).
Proof.
  induction n as [|n IH]; [apply steady_init|].
  rewrite run_S. by apply steady_next.
Qed.

(** *** Progress *)

(** What a worker's step can add to the caller's way. *)
Lemma caller_steps_frame s s' :
  main s' = main s → unfinished_tasks s' ≤ unfinished_tasks s →
  exceptions s' = exceptions s →
  caller_steps p s' ≤ caller_steps p s.
Proof.
  unfold caller_steps. intros -> Hu ->. destruct (main s); try lia.
  destruct (unfinished_tasks s'), (unfinished_tasks s), (exceptions s); lia.
Qed.

Lemma caller_steps_put s s' e :
  main s' = main s → unfinished_tasks s' = unfinished_tasks s →
  exceptions s' = exceptions s ++ [e] →
  caller_steps p s' ≤ caller_steps p s + 1.
Proof.
  unfold caller_steps. intros -> -> ->. destruct (main s); try lia.
  destruct (unfinished_tasks s), (exceptions s); simpl; lia.
Qed.

(** A worker that has not ended can always move, and its move brings the
    run closer to its end. *)
Lemma worker_onward i s :
  steady body p s → can_help (Worker i) s →
  steps_left p (next body p (Worker i) s) < steps_left p s.
Proof.
  intros (Hst & Hun & Hw & Hq & Hex & Hkr & Hend) (w & Hi & Hne).
  assert (Hwi : worker_handled body w).
  { eapply (proj1 (Forall_forall _ _) Hw), list_elem_of_lookup; eauto. }
  unfold next, step, _wrapped. rewrite Hi.
  destruct w as [| |d|e|e| |]; simpl; try done.
  - pose proof (sum_list_with_insert steps _ i _
                  (if keep_running s then WGet else WExit) Hi) as Hs.
    pose proof (caller_steps_frame s
      (set_thread i (if keep_running s then WGet else WExit) s)
      eq_refl (le_n _) eq_refl).
    unfold steps_left. destruct (keep_running s); simpl in *; lia.
  - destruct (queue s) as [|d q] eqn:Hqueue; simpl.
    + pose proof (sum_list_with_insert steps _ i _ WExit Hi) as Hs.
      pose proof (caller_steps_frame s (set_thread i WExit s)
                    eq_refl (le_n _) eq_refl).
      unfold steps_left. simpl. rewrite ?Hqueue. simpl in *. lia.
    + pose proof (sum_list_with_insert steps _ i _ (WRun d) Hi) as Hs.
      pose proof (caller_steps_frame s
        (set_thread i (WRun d) (set_queue q s)) eq_refl (le_n _) eq_refl).
      unfold steps_left. simpl. rewrite ?Hqueue. simpl in *. lia.
  - match goal with |- context [set_thread i ?w _] =>
      pose proof (sum_list_with_insert steps _ i _ w Hi) as Hs;
      pose proof (caller_steps_frame s
        (set_thread i w (log_call (snd (invoke body d)) s))
        eq_refl (le_n _) eq_refl);
      assert (steps w < 7)
        by (destruct (fst (invoke body d)) as [|e];
            [|destruct (is_Exception e)]; simpl; lia)
    end.
    unfold steps_left. simpl in *. lia.
  - pose proof (sum_list_with_insert steps _ i _ (WPut e) Hi) as Hs.
    pose proof (caller_steps_frame s
      (set_thread i (WPut e) (set_keep_running false s))
      eq_refl (le_n _) eq_refl).
    unfold steps_left. simpl in *. lia.
  - pose proof (sum_list_with_insert steps _ i _ WTaskDone Hi) as Hs.
    pose proof (caller_steps_put s
      (set_thread i WTaskDone (exceptions_put e s)) e
      eq_refl eq_refl eq_refl).
    unfold steps_left. simpl in *. lia.
  - destruct (unfinished_tasks s) as [|u] eqn:Hu; simpl.
    + pose proof (sum_list_with_insert steps _ i _ WExit Hi) as Hs.
      pose proof (caller_steps_frame s (set_thread i WExit s)
                    eq_refl (le_n _) eq_refl).
      unfold steps_left. simpl in *. lia.
    + pose proof (sum_list_with_insert steps _ i _ WLoop Hi) as Hs.
      assert (caller_steps p (set_thread i WLoop (set_unfinished u s))
              ≤ caller_steps p s).
      { apply caller_steps_frame; simpl; [done|lia|done]. }
      unfold steps_left. simpl in *. lia.
Qed.

Lemma worker_waits i s :
  ¬ can_help (Worker i) s → next body p (Worker i) s = s.
Proof.
  intros Hn. unfold next, step, _wrapped.
  destruct (threads s !! i) as [w|] eqn:Hi; [|done].
  destruct (decide (w = WExit)) as [->|Hne]; [done|].
  exfalso. apply Hn. by exists w.
Qed.

Lemma caller_onward s :
  steady body p s → can_help Main s →
  steps_left p (next body p Main s) < steps_left p s.
Proof.
  intros (Hst & Hun & Hw & Hq & Hex & Hkr & Hend) Hh.
  unfold next, step, run_threads.
  destruct s as [q u ex kr th m cs rc jn to].
  unfold all_started, steps_left, caller_steps in *; simpl in *.
  destruct m as [|[|k]| | | |e|pend|pend e|pend e i|r]; simpl; try done.
  - injection Hst as -> -> -> -> -> -> -> -> ->.
    destruct (enqueue_prefix (triples p) init)
      as (ds1 & ds2 & r & Hds & Heq & Hr).
    unfold init in Heq. simpl in Heq. rewrite Heq, Hds, length_app.
    destruct r as [e|]; simpl; lia.
  - lia.
  - rewrite sum_list_with_app. simpl. lia.
  - destruct (too_few_funcs p); simpl; [lia|]. destruct u, ex; lia.
  - destruct u as [|u]; simpl; [lia|].
    destruct ex as [|e es]; [by destruct Hh|]. lia.
  - destruct ex as [|e es]; simpl; [|lia].
    destruct Hh as [->|?]; [lia|done].
  - destruct Hst as [-> _]. simpl. lia.
  - destruct ex; simpl; lia.
  - lia.
  - destruct Hh as [Hi|Hi]; rewrite Hi; simpl; [lia|].
    apply lookup_lt_Some in Hi. lia.
Qed.

(** The caller's turns in vain leave everything but its own place as it
    is. *)
Lemma caller_waits s :
  steady body p s → ¬ can_help Main s →
  steps_left p (next body p Main s) = steps_left p s
  ∧ threads (next body p Main s) = threads s.
Proof.
  intros (Hst & Hun & Hw & Hq & Hex & Hkr & Hend) Hh.
  unfold next, step, run_threads.
  destruct s as [q u ex kr th m cs rc jn to].
  unfold all_started, steps_left, caller_steps in *; simpl in *.
  destruct m as [|[|k]| | | |e|pend|pend e|pend e i|r]; simpl in *; try done.
  - destruct u as [|u]; [by destruct Hh; left|].
    destruct ex as [|e es]; [done|]. destruct Hh. by right.
  - destruct ex as [|e es]; [|destruct Hh; by right].
    destruct u as [|u]; [by destruct Hh; left|]. done.
  - destruct (th !! i) as [[]|]; simpl; try done; destruct Hh; auto.
Qed.

Lemma timer_onward s :
  steady body p s →
  steps_left p (next body p Timer s) < steps_left p s
  ∨ next body p Timer s = s.
Proof.
  intros (Hst & _). unfold next, step, join_timeout.
  destruct s as [q u ex kr th m cs rc jn to].
  unfold all_started, steps_left, caller_steps in *; simpl in *.
  destruct m as [| | | | | | | |pend e i|]; simpl; auto.
  destruct (th !! i) as [w|] eqn:Hi; simpl; [|auto].
  apply lookup_lt_Some in Hi.
  destruct w; simpl; auto; left; lia.
Qed.

Lemma can_help_dec a s : can_help a s ∨ ¬ can_help a s.
Proof.
  destruct a as [|i|]; simpl.
  - destruct (main s) as [| | | | | | | |pend e i|]; auto.
    + destruct (decide (unfinished_tasks s = 0)); [by left; left|].
      destruct (exceptions s); [|by left; right]. right. by intros [].
    + destruct (decide (unfinished_tasks s = 0)); [by left; left|].
      destruct (exceptions s); [|by left; right]. right. by intros [].
    + destruct (threads s !! i) as [w|]; [|by left; left].
      destruct (decide (w = WExit)) as [->|]; [by left; right|].
      right. intros [|]; congruence.
  - destruct (threads s !! i) as [w|] eqn:Hi.
    + destruct (decide (w = WExit)) as [->|Hne].
      * right. intros (w & Hw & Hne). congruence.
      * left. eauto.
    + right. intros (w & Hw & _). congruence.
  - auto.
Qed.

(** One turn of any actor: either the run gets closer to its end, or
    nothing is lost and whoever could help still can. *)
Lemma any_turn a s :
  steady body p s →
  (can_help a s → steps_left p (next body p a s) < steps_left p s)
  ∧ (steps_left p (next body p a s) < steps_left p s
     ∨ (steps_left p (next body p a s) = steps_left p s
        ∧ ∀ b, can_help b s → can_help b (next body p a s))).
Proof.
  intros Hs. destruct a as [|i|].
  - split; [by apply caller_onward|].
    destruct (can_help_dec Main s) as [Hh|Hn]; [left; by apply caller_onward|].
    right. destruct (caller_waits s Hs Hn) as [Heq Hth]. split; [done|].
    intros [|j|] Hb; [done| |done]. simpl in *. by rewrite Hth.
  - split; [by apply worker_onward|].
    destruct (can_help_dec (Worker i) s) as [Hh|Hn];
      [left; by apply worker_onward|].
    right. by rewrite worker_waits.
  - split; [done|].
    destruct (timer_onward s Hs) as [?|Heq]; [by left|]. right.
    by rewrite Heq.
Qed.

(** While the caller is not done, some live actor can help. *)
Lemma someone_can_help s :
  1 ≤ max_workers p → steady body p s → finished s = None →
  ∃ a, live p a ∧ can_help a s.
Proof.
  intros Hworkers (Hst & Hun & Hw & Hq & Hex & Hkr & Hend) Hfin.
  destruct (can_help_dec Main s) as [Hh|Hn]; [by exists Main|].
  unfold finished in Hfin. unfold all_started in Hst. simpl in Hn.
  destruct (main s) as [| | | | | | | |pend e i|] eqn:Hm; try done.
  - (* polling in vain at the head of the loop *)
    assert (Hu : unfinished_tasks s ≠ 0) by (intros ?; apply Hn; by left).
    assert (Hno : exceptions s = []).
    { destruct (exceptions s); [done|]. destruct Hn. by right. }
    destruct (decide (Forall (λ w, w = WExit) (threads s))) as [Hall|Hsome].
    + exfalso.
      assert (Hbusy : sum_list_with busy (threads s) = 0).
      { clear -Hall. induction Hall as [|w l -> _ IH]; [done|]. done. }
      assert (Hin : WExit ∈ threads s).
      { destruct (threads s) as [|w l] eqn:Hth; [simpl in Hst; lia|].
        apply Forall_cons in Hall as [-> _]. apply elem_of_cons. by left. }
      destruct (Hend Hin) as [Hqueue|Hk].
      * rewrite Hqueue in Hun. simpl in Hun. lia.
      * destruct (Hkr Hk I) as [?|[e He]]; [done|].
        by apply (proj1 (Forall_forall _ _) Hall) in He.
    + apply not_Forall_Exists in Hsome; [|apply _].
      apply Exists_exists in Hsome as (w & Hin & Hne').
      apply list_elem_of_lookup in Hin as [i Hi].
      exists (Worker i). split; [|simpl; eauto].
      simpl. rewrite <- Hst. by eapply lookup_lt_Some.
  - assert (Hu : unfinished_tasks s ≠ 0) by (intros ?; apply Hn; by left).
    assert (Hno : exceptions s = []).
    { destruct (exceptions s); [done|]. destruct Hn. by right. }
    destruct (decide (Forall (λ w, w = WExit) (threads s))) as [Hall|Hsome].
    + exfalso.
      assert (Hbusy : sum_list_with busy (threads s) = 0).
      { clear -Hall. induction Hall as [|w l -> _ IH]; [done|]. done. }
      assert (Hin : WExit ∈ threads s).
      { destruct (threads s) as [|w l] eqn:Hth; [simpl in Hst; lia|].
        apply Forall_cons in Hall as [-> _]. apply elem_of_cons. by left. }
      destruct (Hend Hin) as [Hqueue|Hk].
      * rewrite Hqueue in Hun. simpl in Hun. lia.
      * destruct (Hkr Hk I) as [?|[e He]]; [done|].
        by apply (proj1 (Forall_forall _ _) Hall) in He.
    + apply not_Forall_Exists in Hsome; [|apply _].
      apply Exists_exists in Hsome as (w & Hin & Hne').
      apply list_elem_of_lookup in Hin as [i Hi].
      exists (Worker i). split; [|simpl; eauto].
      simpl. rewrite <- Hst. by eapply lookup_lt_Some.
  - (* waiting in [join] *)
    destruct (threads s !! i) as [w|] eqn:Hi; [|destruct Hn; by left].
    exists (Worker i). split.
    + simpl. apply lookup_lt_Some in Hi. lia.
    + exists w. split; [done|]. intros ->. destruct Hn. by right.
Qed.

Section FairEnds.

Variable sch : nat → actor.
Hypothesis Hfair : fair p sch.
Hypothesis Hworkers : 1 ≤ max_workers p.

Lemma closer a d : ∀ n,
  sch (n + d) = a → can_help a (run body p sch n) →
  ∃ n', n < n'
        ∧ steps_left p (run body p sch n') < steps_left p (run body p sch n).
Proof.
  induction d as [|d IH]; intros n Hsch Hh.
  - rewrite Nat.add_0_r in Hsch. exists (S n). split; [lia|].
    rewrite run_S, Hsch.
    by apply (any_turn a _ (steady_run sch n)).
  - destruct (any_turn (sch n) _ (steady_run sch n))
      as [_ [Hlt|(Heq & Hkeep)]].
    + exists (S n). split; [lia|]. by rewrite run_S.
    + destruct (IH (S n)) as (n' & Hn' & Hlt).
      * by replace (S n + d) with (n + S d) by lia.
      * rewrite run_S. by apply Hkeep.
      * exists n'. split; [lia|]. rewrite run_S, Heq in Hlt. done.
Qed.

Lemma eventually_ends k : ∀ n,
  steps_left p (run body p sch n) < k →
  ∃ m, n ≤ m ∧ is_Some (finished (run body p sch m)).
Proof.
  induction k as [|k IH]; intros n Hk; [lia|].
  destruct (finished (run body p sch n)) as [r|] eqn:Hfin.
  { exists n. split; [done|]. rewrite Hfin. eauto. }
  destruct (someone_can_help _ Hworkers (steady_run sch n) Hfin)
    as (a & Hlive & Hh).
  destruct (Hfair a n Hlive) as (m & Hm & Hsch).
  destruct (closer a (m - n) n) as (n' & Hn' & Hlt); [|done|].
  { by replace (n + (m - n)) with m by lia. }
  destruct (IH n') as (m' & Hm' & Hdone); [lia|].
  exists m'. split; [lia|done].
Qed.

(** X16.  When every queued triple, once run, returns or raises an
    [Exception] other than [queue.Empty], and there is at least one
    worker, then under every fair schedule [run_threads] ends: after some
    number of steps it has returned or raised, and the outcome stays.
    This holds whatever the lists are, also when they fail the checks of
    [run_threads], and with any number of failing tasks.  When it has
    returned normally, no triple is left on the queue and no worker is in
    the middle of a task. *)
Theorem ends_when_failures_are_handled :
  ∃ n r, ∀ m, n ≤ m →
    finished (run body p sch m) = Some r
    ∧ (r = Returned →
       queue (run body p sch m) = []
       ∧ Forall (λ w, busy w = 0) (threads (run body p sch m))).
Proof.
  destruct (eventually_ends (S (steps_left p (run body p sch 0))) 0)
    as (n & _ & [r Hr]); [lia|].
  exists n, r. intros m Hm.
  assert (Hfin : finished (run body p sch m) = Some r).
  { replace m with (n + (m - n)) by lia. rewrite run_add.
    by apply exec_finished. }
  split; [done|]. intros ->.
  destruct (steady_run sch m) as (Hst & Hun & _).
  unfold finished in Hfin. unfold all_started in Hst.
  destruct (main (run body p sch m)) as [| | | | | | | | |[|e]]; try done.
  destruct Hst as [Hz _]. rewrite Hz in Hun. split.
  - apply nil_length_inv. lia.
  - apply Forall_forall. intros w Hw.
    apply (sum_list_with_zero busy (threads (run body p sch m))); [lia|done].
Qed.

End FairEnds.

End Ends.

Lemma ends_when_failures_are_handled_witness :
  Forall (handled demo) (triples boom_and_slow)
  ∧ fair boom_and_slow (round_robin 2)
  ∧ 1 ≤ max_workers boom_and_slow
  ∧ ∃ n r, ∀ m, n ≤ m →
      finished (run demo boom_and_slow (round_robin 2) m) = Some r
      ∧ (r = Returned →
         queue (run demo boom_and_slow (round_robin 2) m) = []
         ∧ Forall (λ w, busy w = 0)
             (threads (run demo boom_and_slow (round_robin 2) m))).
Proof.
  assert (H1 : Forall (handled demo) (triples boom_and_slow))
    by (vm_compute; repeat constructor).
  assert (H2 : fair boom_and_slow (round_robin 2))
    by apply (round_robin_fair boom_and_slow).
  assert (H3 : 1 ≤ max_workers boom_and_slow) by (simpl; lia).
  repeat split; try assumption.
  exact (ends_when_failures_are_handled demo boom_and_slow H1
           (round_robin 2) H2 H3).
Defined.

(** ** Every run through [locker] *)

Lemma holds_zero_free (l : nat) (ts : list Locker.thread) :
  Forall at_rest ts → sum_list_with (holds l) ts = 0.
Proof.
  induction 1 as [|t ts Ht _ IH]; [done|]. simpl. rewrite IH.
  unfold holds. by destruct Ht as [-> | ->].
Qed.

Lemma locker_inv_start s : between_calls s → locker_inv s.
Proof.
  intros (Hrest & Hfree & Hreg). split; [done|]. split.
  - intros l b Hl.
    rewrite (proj1 (Forall_forall _ _) Hfree b (list_elem_of_lookup_2 _ _ _ Hl)).
    by apply holds_zero_free.
  - eapply Forall_impl; [exact Hrest|]. intros t Ht. unfold thread_ok.
    by destruct Ht as [-> | ->].
Qed.

Lemma thread_ok_grow s s' t :
  (∀ n, is_Some (Locker.LOCKS s !! n) → is_Some (Locker.LOCKS s' !! n)) →
  length (Locker.locks s) ≤ length (Locker.locks s') →
  thread_ok s t → thread_ok s' t.
Proof.
  intros Hsub Hlen. unfold thread_ok.
  destruct (Locker.at_pc t); try done; try lia.
  - apply Hsub.
  - intros [? ?]. split; [lia|done].
Qed.

Lemma holds_insert l i t t' (ts : list Locker.thread) :
  ts !! i = Some t →
  sum_list_with (holds l) (<[i:=t']> ts) + holds l t
  = sum_list_with (holds l) ts + holds l t'.
Proof. apply sum_list_with_insert. Qed.

Lemma holds_beyond s l :
  Forall (thread_ok s) (Locker.threads s) → length (Locker.locks s) ≤ l →
  sum_list_with (holds l) (Locker.threads s) = 0.
Proof.
  intros Hok Hl. induction Hok as [|t ts Ht _ IH]; [done|]. simpl.
  rewrite IH. unfold thread_ok, holds in *.
  destruct (Locker.at_pc t); try done; case_decide; try done; lia.
Qed.

Lemma locker_inv_step i s s' :
  locker_inv s → Locker._wrapper i s = Some s' → locker_inv s'.
Proof.
  intros (Hreg & Hheld & Hok) Hstep. unfold Locker._wrapper in Hstep.
  destruct (Locker.threads s !! i) as [t|] eqn:Hi; [|done].
  assert (Ht : thread_ok s t).
  { eapply (proj1 (Forall_forall _ _) Hok), list_elem_of_lookup; eauto. }
  destruct t as [n r pc]. unfold thread_ok in Ht. simpl in *.
  destruct pc as [| | |l|l|l r'|r']; simpl in *.
  - (* Check *)
    assert (∃ to, (to = Locker.Create ∨ to = Locker.Lookup
                   ∧ is_Some (Locker.LOCKS s !! n))
                  ∧ s' = Locker.move i (Locker.Thread n r Locker.Check) to s)
      as (to & Hto & ->).
    { destruct (Locker.LOCKS s !! n) eqn:Hn; injection Hstep as <-; eauto 6. }
    split; [done|]. split; simpl.
    + intros l b Hl.
      pose proof (holds_insert l i _ (Locker.Thread n r to) _ Hi) as Hs.
      rewrite <- (Hheld l b Hl).
      destruct Hto as [-> | [-> _]]; cbn in Hs; lia.
    + apply Forall_insert; [done|]. unfold thread_ok. simpl.
      by destruct Hto as [-> | [-> ?]].
  - (* Create *)
    injection Hstep as <-. split; [|split]; simpl.
    + intros n' l'. rewrite length_app. simpl.
      destruct (decide (n = n')) as [->|Hne].
      * rewrite lookup_insert_eq. intros [= <-]. lia.
      * rewrite lookup_insert_ne by done. intros Hl'%Hreg. lia.
    + intros l' b Hl'.
      pose proof (holds_insert l' i _ (Locker.Thread n r Locker.Lookup) _ Hi)
        as Hs. cbn in Hs.
      apply lookup_app_Some in Hl' as [Hl'|[Hge Hl']].
      * rewrite <- (Hheld l' b Hl'). lia.
      * apply list_lookup_singleton_Some in Hl' as [_ <-].
        rewrite (holds_beyond s l') in Hs by done. lia.
    + apply Forall_insert.
      * eapply Forall_impl; [exact Hok|]. intros t'. apply thread_ok_grow; simpl.
        -- intros n' Hn'. destruct (decide (n = n')) as [->|Hne].
           ++ rewrite lookup_insert_eq. eauto.
           ++ by rewrite lookup_insert_ne.
        -- rewrite length_app. lia.
      * unfold thread_ok. simpl. rewrite lookup_insert_eq. eauto.
  - (* Lookup *)
    destruct Ht as [l Hl]. rewrite Hl in Hstep. injection Hstep as <-.
    split; [done|]. split; simpl.
    + intros l' b Hl'.
      pose proof (holds_insert l' i _ (Locker.Thread n r (Locker.Acquire l)) _ Hi)
        as Hs. cbn in Hs.
      rewrite <- (Hheld l' b Hl'). lia.
    + apply Forall_insert; [done|]. unfold thread_ok. simpl. by eapply Hreg.
  - (* Acquire *)
    destruct (Locker.locks s !! l) as [[|]|] eqn:Hl; try done.
    injection Hstep as <-. split; [|split]; simpl.
    + intros n' l'. rewrite length_insert. apply Hreg.
    + intros l' b Hl'.
      pose proof (holds_insert l' i _ (Locker.Thread n r (Locker.Body l)) _ Hi)
        as Hs. cbn in Hs.
      destruct (decide (l = l')) as [<-|Hne].
      * rewrite list_lookup_insert_eq in Hl' by done. injection Hl' as <-.
        specialize (Hheld l false Hl). simpl in Hheld. lia.
      * rewrite list_lookup_insert_ne in Hl' by done.
        rewrite <- (Hheld l' b Hl'). lia.
    + apply Forall_insert.
      * eapply Forall_impl; [exact Hok|]. intros t'. apply thread_ok_grow; simpl;
          [done|by rewrite length_insert].
      * unfold thread_ok. simpl. by rewrite length_insert.
  - (* Body *)
    injection Hstep as <-. split; [done|]. split; simpl.
    + intros l' b Hl'.
      pose proof (holds_insert l' i _
        (Locker.Thread n r (Locker.Release l r)) _ Hi) as Hs.
      cbn in Hs.
      rewrite <- (Hheld l' b Hl'). lia.
    + apply Forall_insert; [done|]. unfold thread_ok. simpl. done.
  - (* Release *)
    injection Hstep as <-. destruct Ht as [Hlt ->]. split; [|split]; simpl.
    + intros n' l'. rewrite length_insert. apply Hreg.
    + intros l' b Hl'.
      pose proof (holds_insert l' i _ (Locker.Thread n r (Locker.Done r)) _ Hi)
        as Hs. cbn in Hs.
      destruct (decide (l = l')) as [<-|Hne].
      * rewrite list_lookup_insert_eq in Hl' by done. injection Hl' as <-.
        destruct (lookup_lt_is_Some_2 _ _ Hlt) as [b0 Hb0].
        specialize (Hheld l b0 Hb0). destruct b0; lia.
      * rewrite list_lookup_insert_ne in Hl' by done.
        rewrite <- (Hheld l' b Hl'). lia.
    + apply Forall_insert.
      * eapply Forall_impl; [exact Hok|]. intros t'. apply thread_ok_grow; simpl;
          [done|by rewrite length_insert].
      * unfold thread_ok. simpl. done.
  - done.
Qed.

Lemma locker_inv_exec sch s :
  locker_inv s → locker_inv (Locker.exec sch s).
Proof.
  revert s. induction sch as [|i sch IH]; intros s Hinv; simpl; [done|].
  apply IH. destruct (Locker._wrapper i s) as [s'|] eqn:Hs; simpl; [|done].
  by eapply locker_inv_step.
Qed.

Lemma sum_list_with_two {A} (f : A → nat) (l : list A) i j x y :
  i ≠ j → l !! i = Some x → l !! j = Some y →
  f x + f y ≤ sum_list_with f l.
Proof.
  revert i j. induction l as [|z l IH]; intros i j Hne Hi Hj; [done|].
  destruct i as [|i], j as [|j]; simpl in *; try done.
  - injection Hi as ->.
    pose proof (sum_list_with_in y f l (list_elem_of_lookup_2 _ _ _ Hj)). lia.
  - injection Hj as ->.
    pose proof (sum_list_with_in x f l (list_elem_of_lookup_2 _ _ _ Hi)). lia.
  - assert (Hij : i ≠ j) by congruence. specialize (IH i j Hij Hi Hj). lia.
Qed.

Lemma held_at_most_once s l :
  locker_inv s → sum_list_with (holds l) (Locker.threads s) ≤ 1.
Proof.
  intros (_ & Hheld & Hok).
  destruct (Locker.locks s !! l) as [b|] eqn:Hl.
  - rewrite (Hheld l b Hl). destruct b; lia.
  - rewrite holds_beyond; [lia|done|by apply lookup_ge_None].
Qed.

Lemma no_two_in_lock s i j ti tj l :
  locker_inv s → i ≠ j →
  Locker.threads s !! i = Some ti → Locker.threads s !! j = Some tj →
  Locker.at_pc ti = Locker.Body l → Locker.at_pc tj = Locker.Body l → False.
Proof.
  intros Hinv Hne Hi Hj Hti Htj.
  pose proof (held_at_most_once _ l Hinv) as Hone.
  pose proof (sum_list_with_two (holds l) _ i j ti tj Hne Hi Hj) as Htwo.
  unfold holds in Htwo at 1 2. rewrite Hti, Htj in Htwo.
  rewrite decide_True in Htwo by done. lia.
Qed.

(** X7.  Start between calls, with any registry.  However the threads
    are scheduled, no lock is ever held by two threads at once: two
    threads are never inside the [with] block of the same lock.  And a
    thread that has left [_wrapper] has left it with exactly what its
    function returned or raised: the lookup [LOCKS[n]] never fails. *)
Theorem one_holder_per_lock sch s :
  between_calls s →
  (∀ i j ti tj l,
     i ≠ j →
     Locker.threads (Locker.exec sch s) !! i = Some ti →
     Locker.threads (Locker.exec sch s) !! j = Some tj →
     Locker.at_pc ti = Locker.Body l → Locker.at_pc tj = Locker.Body l →
     False)
  ∧ (∀ i t r,
       Locker.threads (Locker.exec sch s) !! i = Some t →
       Locker.at_pc t = Locker.Done r → r = Locker.fends t).
Proof.
  intros Hstart.
  pose proof (locker_inv_exec sch s (locker_inv_start s Hstart)) as Hinv.
  split.
  - intros i j ti tj l Hne Hi Hj Hti Htj. by eapply no_two_in_lock.
  - intros i t r Hi Hr. destruct Hinv as (_ & _ & Hok).
    pose proof (proj1 (Forall_forall _ _) Hok t
                  (list_elem_of_lookup_2 _ _ _ Hi)) as Ht.
    unfold thread_ok in Ht. by rewrite Hr in Ht.
Qed.

Lemma registry_kept_step reg n i s s' :
  registry_kept reg n s → Locker._wrapper i s = Some s' →
  registry_kept reg n s'.
Proof.
  intros (Hreg & Hlen & Huse) Hstep. unfold Locker._wrapper in Hstep.
  destruct (Locker.threads s !! i) as [t|] eqn:Hi; [|done].
  assert (Ht : uses_registry reg t).
  { eapply (proj1 (Forall_forall _ _) Huse), list_elem_of_lookup; eauto. }
  destruct t as [f r pc]. destruct Ht as [[l0 Hf] Hpc]. simpl in *.
  rewrite Hreg in Hstep.
  destruct pc as [| | |l|l|l r'|r']; simpl in *; try done.
  - rewrite Hf in Hstep. injection Hstep as <-.
    split; [done|]. split; [done|]. simpl.
    apply Forall_insert; [done|]. split; simpl; eauto.
  - rewrite Hf in Hstep. injection Hstep as <-.
    split; [done|]. split; [done|]. simpl.
    apply Forall_insert; [done|]. split; simpl; eauto.
  - destruct (Locker.locks s !! l) as [[|]|]; try done.
    injection Hstep as <-. split; [done|]. split; [simpl; by rewrite length_insert|].
    simpl. apply Forall_insert; [done|]. split; simpl; eauto.
  - injection Hstep as <-. split; [done|]. split; [done|]. simpl.
    apply Forall_insert; [done|]. split; simpl; eauto.
  - injection Hstep as <-. split; [done|]. split; [simpl; by rewrite length_insert|].
    simpl. apply Forall_insert; [done|]. split; simpl; eauto.
Qed.

Lemma registry_kept_exec reg n sch s :
  registry_kept reg n s → registry_kept reg n (Locker.exec sch s).
Proof.
  revert s. induction sch as [|i sch IH]; intros s Hinv; simpl; [done|].
  apply IH. destruct (Locker._wrapper i s) as [s'|] eqn:Hs; simpl; [|done].
  by eapply registry_kept_step.
Qed.

(** X8.  Start between calls with the name of every thread's function
    already in [LOCKS].  Then however the threads are scheduled no lock
    is created, [LOCKS] stays as it is, and two threads whose functions
    have the same name never run their bodies at the same time. *)
Theorem same_name_excluded sch s :
  between_calls s →
  Forall (λ t, is_Some (Locker.LOCKS s !! Locker.fname t)) (Locker.threads s) →
  Locker.LOCKS (Locker.exec sch s) = Locker.LOCKS s
  ∧ length (Locker.locks (Locker.exec sch s)) = length (Locker.locks s)
  ∧ ∀ i j ti tj,
      i ≠ j →
      Locker.threads (Locker.exec sch s) !! i = Some ti →
      Locker.threads (Locker.exec sch s) !! j = Some tj →
      Locker.fname ti = Locker.fname tj →
      in_its_body ti → in_its_body tj → False.
Proof.
  intros Hstart Hnames.
  assert (Hkept : registry_kept (Locker.LOCKS s) (length (Locker.locks s)) s).
  { split; [done|]. split; [done|]. destruct Hstart as (Hrest & _).
    apply Forall_forall. intros t Ht. split.
    - by apply (proj1 (Forall_forall _ _) Hnames).
    - by destruct (proj1 (Forall_forall _ _) Hrest t Ht) as [-> | ->]. }
  destruct (registry_kept_exec _ _ sch s Hkept) as (Hreg & Hlen & Huse).
  split; [done|]. split; [done|].
  intros i j ti tj Hne Hi Hj Hname [li Hti] [lj Htj].
  destruct (proj1 (Forall_forall _ _) Huse ti
              (list_elem_of_lookup_2 _ _ _ Hi)) as [_ Hui].
  destruct (proj1 (Forall_forall _ _) Huse tj
              (list_elem_of_lookup_2 _ _ _ Hj)) as [_ Huj].
  rewrite Hti in Hui. rewrite Htj in Huj. rewrite Hname in Hui.
  assert (li = lj) as -> by congruence.
  eapply (no_two_in_lock _ i j ti tj lj); eauto.
  by apply locker_inv_exec, locker_inv_start.
Qed.

Lemma one_holder_per_lock_witness :
  between_calls Locker.two_first_calls
  ∧ (∀ i j ti tj l,
       i ≠ j →
       Locker.threads (Locker.exec Locker.both_check_first
                         Locker.two_first_calls) !! i = Some ti →
       Locker.threads (Locker.exec Locker.both_check_first
                         Locker.two_first_calls) !! j = Some tj →
       Locker.at_pc ti = Locker.Body l → Locker.at_pc tj = Locker.Body l →
       False)
  ∧ (∀ i t r,
       Locker.threads (Locker.exec Locker.both_check_first
                         Locker.two_first_calls) !! i = Some t →
       Locker.at_pc t = Locker.Done r → r = Locker.fends t).
Proof.
  assert (H : between_calls Locker.two_first_calls).
  { split; [|split].
    - repeat constructor.
    - constructor.
    - intros n l Hl. simpl in Hl. by rewrite lookup_empty in Hl. }
  split; [exact H|].
  exact (one_holder_per_lock Locker.both_check_first Locker.two_first_calls H).
Defined.

Lemma same_name_excluded_witness :
  between_calls registry_filled
  ∧ Forall (λ t, is_Some (Locker.LOCKS registry_filled !! Locker.fname t))
      (Locker.threads registry_filled)
  ∧ Locker.LOCKS (Locker.exec Locker.both_check_first registry_filled)
    = Locker.LOCKS registry_filled
  ∧ length (Locker.locks (Locker.exec Locker.both_check_first registry_filled))
    = length (Locker.locks registry_filled)
  ∧ ∀ i j ti tj,
      i ≠ j →
      Locker.threads (Locker.exec Locker.both_check_first registry_filled) !! i
      = Some ti →
      Locker.threads (Locker.exec Locker.both_check_first registry_filled) !! j
      = Some tj →
      Locker.fname ti = Locker.fname tj →
      in_its_body ti → in_its_body tj → False.
Proof.
  assert (H1 : between_calls registry_filled).
  { split; [|split].
    - repeat constructor.
    - repeat constructor.
    - intros n l Hl. simpl in *.
      apply lookup_singleton_Some in Hl as [_ <-]. lia. }
  assert (H2 : Forall (λ t, is_Some (Locker.LOCKS registry_filled
                                       !! Locker.fname t))
                 (Locker.threads registry_filled)).
  { repeat constructor; simpl; rewrite lookup_singleton_eq; eauto. }
  split; [exact H1|]. split; [exact H2|].
  exact (same_name_excluded Locker.both_check_first registry_filled H1 H2).
Defined.

(** ** Thread names *)

Lemma last_field_no_dash s : has_dash s = false → last_field s = s.
Proof.
  destruct s as [|c s]; [done|]. simpl. intros [Hc Hs]%orb_false_elim.
  by rewrite Hs, Hc.
Qed.

Lemma has_dash_last_field s : has_dash (last_field s) = false.
Proof.
  induction s as [|c s IH]; [done|]. simpl.
  destruct (has_dash s) eqn:Hs; [done|].
  destruct (Ascii.eqb c "-"%char) eqn:Hc; [done|]. simpl. by rewrite Hc, Hs.
Qed.

Lemma has_dash_app a b : has_dash (String.append a (String "-"%char b)) = true.
Proof. induction a as [|c a IH]; simpl; [done|]. by rewrite IH, orb_true_r. Qed.

Lemma last_field_app a b :
  last_field (String.append a (String "-"%char b)) = last_field b.
Proof.
  induction a as [|c a IH]; simpl.
  - destruct (has_dash b) eqn:Hb; [done|]. by rewrite last_field_no_dash.
  - by rewrite has_dash_app.
Qed.

Lemma string_app_assoc a b c :
  String.append (String.append a b) c = String.append a (String.append b c).
Proof.
  induction a as [|x a IH]; [done|].
  change (String x (String.append (String.append a b) c)
          = String x (String.append a (String.append b c))).
  by rewrite IH.
Qed.

Lemma last_field_renamed modl fname current :
  last_field (_set_current_thread_name_from_func_name modl fname current)
  = last_field current.
Proof.
  unfold _set_current_thread_name_from_func_name.
  replace (String.append "Parallel-"
             (String.append modl
                (String.append "."
                   (String.append fname
                      (String.append "-" (last_field current))))))
    with (String.append
            (String.append "Parallel-"
               (String.append modl (String.append "." fname)))
            (String "-"%char (last_field current))).
  - rewrite last_field_app. apply last_field_no_dash, has_dash_last_field.
  - rewrite !string_app_assoc. reflexivity.
Qed.

Lemma last_field_worker current :
  last_field (worker_name current) = last_field current.
Proof. apply (last_field_app "Parallel-Worker"). Qed.

Section NamesOfAWorker.

Variable body : string → list pyval → list (string * pyval) → outcome.
Variable modl : string → string.

Lemma renamed_number d name :
  last_field (renamed modl d name) = last_field name.
Proof. destruct d as [[[f|o] a] k]; [apply last_field_renamed|done]. Qed.

Lemma names_in_loop_number name ds :
  Forall (λ n, last_field n = last_field name) (names_in_loop body modl name ds).
Proof.
  induction ds as [|d ds IH]; simpl; [done|].
  destruct (fst (invoke body d)) as [|e].
  - apply Forall_cons_2; [apply renamed_number|]. by apply Forall_cons_2.
  - apply Forall_cons_2; [apply renamed_number|]. apply Forall_nil_2.
Qed.

(** The names around the [k]-th triple, when the earlier ones returned. *)
Lemma names_at name : ∀ k ds d,
  ds !! k = Some d →
  Forall (λ d', fst (invoke body d') = Return) (take k ds) →
  (name :: names_in_loop body modl name ds) !! (2 * k) = Some name
  ∧ (name :: names_in_loop body modl name ds) !! (2 * k + 1)
    = Some (renamed modl d name)
  ∧ (∀ e, fst (invoke body d) = Raise e →
       last (name :: names_in_loop body modl name ds)
       = Some (renamed modl d name)).
Proof.
  induction k as [|k IH]; intros [|d0 ds] d Hd Hret; try done.
  - injection Hd as ->. simpl.
    split; [done|]. split; [by destruct (fst (invoke body d))|].
    by intros e ->.
  - simpl in Hd, Hret. apply Forall_cons in Hret as [Hd0 Hret].
    destruct (IH ds d Hd Hret) as (H1 & H2 & H3).
    replace (2 * S k) with (S (S (2 * k))) by lia.
    replace (S (S (2 * k)) + 1) with (S (S (2 * k + 1))) by lia.
    simpl names_in_loop. rewrite Hd0. split; [exact H1|]. split; [exact H2|].
    intros e He. rewrite !last_cons_cons. by apply (H3 e).
Qed.

Lemma names_at_rest name ds :
  Forall (λ d, fst (invoke body d) = Return) ds →
  last (name :: names_in_loop body modl name ds) = Some name.
Proof.
  induction 1 as [|d ds Hd _ IH]; [done|]. simpl names_in_loop. rewrite Hd.
  by rewrite !last_cons_cons.
Qed.

(** X9.  Through [_wrapped] a thread keeps its number: every name it
    ever has ends in the text after the last ["-"] of the name it started
    with, whatever the module and function names contain.  Before each
    triple its name is the worker name of line 76; while it runs the
    function [f] of a triple its name is ["Parallel-"], the module, ["."],
    [f], ["-"] and that number, the same as if the original name had been
    renamed; when all its triples have returned it has the worker name
    again; and when one has raised, the name of that function is the one
    it is left with. *)
Theorem thread_number_kept current ds :
  Forall (λ n, last_field n = last_field current)
    (_wrapped_names body modl current ds)
  ∧ (∀ k f a kw,
       ds !! k = Some (Func f, a, kw) →
       Forall (λ d, fst (invoke body d) = Return) (take k ds) →
       _wrapped_names body modl current ds !! (2 * k)
       = Some (String.append "Parallel-Worker-" current)
       ∧ _wrapped_names body modl current ds !! (2 * k + 1)
         = Some (_set_current_thread_name_from_func_name (modl f) f current)
       ∧ (∀ e, fst (invoke body (Func f, a, kw)) = Raise e →
            last (_wrapped_names body modl current ds)
            = Some (_set_current_thread_name_from_func_name
                      (modl f) f current)))
  ∧ (Forall (λ d, fst (invoke body d) = Return) ds →
     last (_wrapped_names body modl current ds)
     = Some (String.append "Parallel-Worker-" current)).
Proof.
  unfold _wrapped_names. split; [|split].
  - constructor; [apply last_field_worker|].
    eapply Forall_impl; [apply names_in_loop_number|].
    intros n ->. apply last_field_worker.
  - intros k f a kw Hk Hret.
    destruct (names_at (worker_name current) k ds _ Hk Hret) as (H1 & H2 & H3).
    assert (Hn : renamed modl (Func f, a, kw) (worker_name current)
                 = _set_current_thread_name_from_func_name (modl f) f current).
    { simpl. unfold _set_current_thread_name_from_func_name.
      by rewrite last_field_worker. }
    rewrite Hn in H2, H3. done.
  - apply names_at_rest.
Qed.

End NamesOfAWorker.

(** A thread that starts as [Thread-7] and dequeues [slow] and then
    [boom]. *)
Example names_of_thread_7 :
  _wrapped_names demo (λ _, "jobs") "Thread-7"
    [(Func "slow", fillvalue, fillvalue); (Func "boom", fillvalue, fillvalue);
     (Func "extra", fillvalue, fillvalue)]
  = ["Parallel-Worker-Thread-7"; "Parallel-jobs.slow-7";
     "Parallel-Worker-Thread-7"; "Parallel-jobs.boom-7"].
Proof. reflexivity. Qed.

(** ** The command line *)

Section Health.

Variable w : Cli.world.

Lemma exe_shells cmd fail_ok :
  Cli.shells (fst (Cli.exe w cmd fail_ok)) = [Cli.wrapped cmd].
Proof.
  unfold Cli.exe, Cli.dprint.
  destruct (Cli.sh w (Cli.wrapped cmd)), fail_ok, (Cli.verbose w); done.
Qed.

Lemma exe_result cmd :
  (∃ out, Cli.sh w (Cli.wrapped cmd) = inl out
          ∧ snd (Cli.exe w cmd false) = inl (Some out))
  ∨ (∃ err e, Cli.sh w (Cli.wrapped cmd) = inr err
              ∧ snd (Cli.exe w cmd false) = inr e).
Proof.
  unfold Cli.exe. destruct (Cli.sh w (Cli.wrapped cmd)) as [out|err]; eauto.
Qed.

Lemma shells_app ev1 ev2 :
  Cli.shells (ev1 ++ ev2) = Cli.shells ev1 ++ Cli.shells ev2.
Proof. apply omap_app. Qed.

Lemma check_path_spec np :
  Cli.shells (fst (Cli.check_path w np))
  = option_list (if Cli.truthy (Cli.pip np) then Cli.pip np else None)
      ≫= (λ ip, [Cli.wrapped (Cli.ping ip)])
  ∧ (snd (Cli.check_path w np) = true
     ↔ (Cli.truthy (Cli.pip np) = true →
        Cli.reachable w (default EmptyString (Cli.pip np)))).
Proof.
  unfold Cli.check_path.
  destruct (Cli.truthy (Cli.pip np)) eqn:Ht; simpl; [|by split].
  destruct (Cli.pip np) as [ip|] eqn:Hip; [|done]. simpl.
  pose proof (exe_shells (Cli.ping ip) false) as Hs.
  destruct (exe_result (Cli.ping ip)) as [(out & Hsh & Hr)|(err & e & Hsh & Hr)];
    destruct (Cli.exe w (Cli.ping ip) false) as [ev [o|e']]; simpl in *;
    try discriminate.
  - split; [by rewrite Hs|]. split; [|done]. intros _ _. by exists out.
  - rewrite shells_app, Hs. split; [done|]. split; [done|].
    intros Hreach. destruct (Hreach eq_refl) as [out Hout]. congruence.
Qed.

Lemma check_paths_spec nps npass :
  Cli.shells (fst (Cli.check_paths w nps npass))
  = (λ ip, Cli.wrapped (Cli.ping ip))
      <$> omap (λ np, if Cli.truthy (Cli.pip np) then Cli.pip np else None) nps
  ∧ (snd (Cli.check_paths w nps npass) = true
     ↔ npass = true
       ∧ Forall (λ ip, Cli.reachable w ip)
           (omap (λ np, if Cli.truthy (Cli.pip np) then Cli.pip np else None)
                 nps)).
Proof.
  revert npass. induction nps as [|np nps IH]; intros npass; simpl.
  - split; [done|]. split; [by intros ->|by intros [-> _]].
  - destruct (check_path_spec np) as [Hs Hok].
    destruct (Cli.check_path w np) as [ev ok]. simpl in *.
    specialize (IH (npass && ok)). destruct IH as [IHs IHok].
    destruct (Cli.check_paths w nps (npass && ok)) as [ev' r]. simpl in *.
    rewrite shells_app, Hs, IHs.
    destruct (Cli.truthy (Cli.pip np)) eqn:Ht.
    + destruct (Cli.pip np) as [ip|] eqn:Hip; [|done]. simpl in *.
      split; [done|]. rewrite IHok, andb_true_iff, Forall_cons, Hok. tauto.
    + simpl. split; [done|]. rewrite IHok, andb_true_iff, Hok.
      split; [intros [[-> _] ?]|intros [-> ?]]; [done|].
      split; [|done]. split; [done|]. discriminate.
Qed.

(** X10.  [run_health] answers [True] exactly when the management
    address answers the ping, the API call succeeds and every network
    path that has an address answers its ping.  When the first two
    succeed, every such address is pinged, once and in order, also after
    one of them has failed. *)
Theorem health_checks_every_path :
  (snd (Cli.run_health w) = true
   ↔ Cli.reachable w (Cli.mgmt_ip w) ∧ Cli.api_list w = None
     ∧ Forall (Cli.reachable w) (Cli.path_ips w))
  ∧ (Cli.reachable w (Cli.mgmt_ip w) → Cli.api_list w = None →
     Cli.shells (fst (Cli.run_health w))
     = Cli.wrapped (Cli.ping (Cli.mgmt_ip w))
       :: ((λ ip, Cli.wrapped (Cli.ping ip)) <$> Cli.path_ips w)).
Proof.
  unfold Cli.run_health, Cli.path_ips.
  pose proof (exe_shells (Cli.ping (Cli.mgmt_ip w)) false) as Hs.
  destruct (check_paths_spec (Cli.network_paths w) true) as [Hps Hpok].
  destruct (exe_result (Cli.ping (Cli.mgmt_ip w)))
    as [(out & Hsh & Hr)|(err & e & Hsh & Hr)];
    destruct (Cli.exe w (Cli.ping (Cli.mgmt_ip w)) false) as [ev1 [o|e']];
    simpl in *; try discriminate.
  - destruct (Cli.api_list w) as [err|] eqn:Hapi; simpl.
    + split; [|done]. split; [done|]. by intros (_ & ? & _).
    + destruct (Cli.check_paths w (Cli.network_paths w) true) as [ev2 npass].
      simpl in *. split.
      * destruct npass; simpl.
        -- split; [|done]. intros _. split; [by exists out|]. split; [done|].
           by apply Hpok.
        -- split; [done|]. intros (_ & _ & Hall).
           by apply Hpok.
      * intros _ _.
        assert (Hskip : Cli.shells
                  (Cli.ApiListAppInstances :: Cli.ApiGetAccessVip :: ev2)
                = Cli.shells ev2) by reflexivity.
        destruct npass; simpl; rewrite !shells_app, Hskip, Hs, Hps; simpl;
          by rewrite ?app_nil_r.
  - split.
    + split; [done|]. intros ([out Hout] & _). congruence.
    + intros [out Hout]. congruence.
Qed.

End Health.

Section Main.

Variable w : Cli.world.
Variable a : Cli.args.

Lemma exe_events cmd fail_ok e :
  e ∈ fst (Cli.exe w cmd fail_ok) → ∃ s, e = Cli.Print s ∨ e = Cli.Shell s.
Proof.
  unfold Cli.exe, Cli.dprint.
  destruct (Cli.sh w (Cli.wrapped cmd)), fail_ok, (Cli.verbose w); simpl;
    rewrite ?elem_of_cons, ?elem_of_nil; intros He;
    repeat (destruct He as [->|He]; [eauto|]); done.
Qed.

(** What the [--metrics] part does. *)
Lemma metrics_part_events m e :
  e ∈ fst (Cli.metrics_part w a m) →
  (∃ s, e = Cli.Print s)
  ∨ (∃ si st i t,
       Cli.split_comma m = [si; st]
       ∧ Cli.int_of w si = Some i ∧ Cli.int_of w st = Some t
       ∧ (1 ≤ i)%Z ∧ (1 ≤ t)%Z
       ∧ (e = Cli.GetMetrics
                (match Cli.metrics_type a with [] => ["iops_write"] | ts => ts end)
                (Cli.volume a) i t (Cli.metrics_op a)
          ∨ ∃ data,
              Cli.get_metrics w
                (match Cli.metrics_type a with [] => ["iops_write"] | ts => ts end)
                (Cli.volume a) i t (Cli.metrics_op a) = Some data
              ∧ e = Cli.WriteMetrics data (Cli.metrics_out_file a)
              ∧ snd (Cli.metrics_part w a m) = Cli.Exit Cli.SUCCESS)).
Proof.
  unfold Cli.metrics_part.
  destruct (Cli.split_comma m) as [|si [|st [|x l]]] eqn:Hsplit; simpl;
    try (intros ->%list_elem_of_singleton; eauto).
  - destruct (Cli.int_of w si); intros ->%list_elem_of_singleton; eauto.
  - destruct (Cli.int_of w si) as [i|] eqn:Hi;
      [|intros ->%list_elem_of_singleton; eauto].
    destruct (Cli.int_of w st) as [t|] eqn:Ht;
      [|intros ->%list_elem_of_singleton; eauto].
    destruct (i <? 1)%Z eqn:Hi1; simpl;
      [intros ->%list_elem_of_singleton; eauto|].
    destruct (t <? 1)%Z eqn:Ht1; simpl;
      [intros ->%list_elem_of_singleton; eauto|].
    apply Z.ltb_ge in Hi1, Ht1.
    destruct (Cli.get_metrics w _ (Cli.volume a) i t (Cli.metrics_op a))
      as [data|] eqn:Hdata; simpl;
      rewrite elem_of_cons, list_elem_of_singleton; intros [-> | ->]; eauto;
      right; exists si, st, i, t; repeat (split; [done|]); eauto 6.
  - destruct (Cli.int_of w si) as [i|];
      [|intros ->%list_elem_of_singleton; eauto].
    destruct (Cli.int_of w st) as [t|];
      intros ->%list_elem_of_singleton; eauto.
Qed.

Lemma metrics_part_exit m :
  snd (Cli.metrics_part w a m) = Cli.Exit Cli.SUCCESS
  ∨ snd (Cli.metrics_part w a m) = Cli.Exit Cli.FAILURE.
Proof.
  unfold Cli.metrics_part.
  destruct (Cli.int_of w <$> Cli.split_comma m) as [|[i|] [|[t|] [|x l]]];
    simpl; auto.
  destruct ((i <? 1)%Z || (t <? 1)%Z); auto.
  destruct (Cli.get_metrics w _ _ _ _ _); auto.
Qed.

Lemma metrics_part_prints m e :
  e ∈ fst (Cli.metrics_part w a m) →
  (∃ s, e = Cli.Print s)
  ∨ (∃ mt vs i t op, e = Cli.GetMetrics mt vs i t op)
  ∨ (∃ d f, e = Cli.WriteMetrics d f).
Proof.
  intros [[s ->]|(si & st & i & t & _ & _ & _ & _ & _ & [-> | (d & _ & -> & _)])]
    %metrics_part_events; eauto 10.
Qed.

Lemma exe_talk cmd fail_ok :
  Forall (λ e, Cli.is_talk e = true) (fst (Cli.exe w cmd fail_ok)).
Proof.
  apply Forall_forall. intros e [s [-> | ->]]%exe_events; done.
Qed.

Lemma check_paths_talk nps npass :
  Forall (λ e, Cli.is_talk e = true) (fst (Cli.check_paths w nps npass)).
Proof.
  revert npass. induction nps as [|np nps IH]; intros npass; simpl; [done|].
  assert (Hp : Forall (λ e, Cli.is_talk e = true) (fst (Cli.check_path w np))).
  { unfold Cli.check_path. destruct (Cli.truthy (Cli.pip np)); [|done].
    pose proof (exe_talk (Cli.ping (default "" (Cli.pip np))) false) as He.
    destruct (Cli.exe w _ false) as [ev [o|e]]; simpl in *; [done|].
    apply Forall_app. split; [done|]. by repeat constructor. }
  destruct (Cli.check_path w np) as [ev ok]. specialize (IH (npass && ok)).
  destruct (Cli.check_paths w nps (npass && ok)) as [ev' r]. simpl in *.
  by apply Forall_app.
Qed.

Lemma run_health_talk :
  Forall (λ e, Cli.is_talk e = true) (fst (Cli.run_health w)).
Proof.
  unfold Cli.run_health.
  pose proof (exe_talk (Cli.ping (Cli.mgmt_ip w)) false) as He.
  pose proof (check_paths_talk (Cli.network_paths w) true) as Hp.
  destruct (Cli.exe w _ false) as [ev1 [o|e]]; simpl in *.
  - destruct (Cli.api_list w).
    + simpl. apply Forall_app. split; [done|]. by repeat constructor.
    + destruct (Cli.check_paths w _ true) as [ev2 [|]]; simpl in *;
        repeat (apply Forall_app; split); try done; by repeat constructor.
  - apply Forall_app. split; [done|]. by repeat constructor.
Qed.

Lemma clean_mounts_kind v :
  Cli.is_work (Cli.clean_mounts_of a v) = false
  ∧ Cli.is_clean_mounts (Cli.clean_mounts_of a v) = true.
Proof. unfold Cli.clean_mounts_of. by destruct (String.eqb _ _). Qed.

Local Ltac plain_events :=
  repeat first
    [ assumption
    | apply Forall_nil_2
    | apply Forall_cons_2; [done|]
    | apply Forall_app_2
    | (apply Forall_fmap, Forall_forall; intros ? _; simpl; done) ].

(** When [main] returns early: what it has done is plain talk and
    listing, then the unmounting, then the deleting. *)
Lemma main_early :
  Cli.stops_early a = true →
  ∃ evq evm evv,
    fst (Cli.main w a) = evq ++ evm ++ evv
    ∧ Forall (λ e, Cli.is_work e = false ∧ Cli.is_clean_mounts e = false) evq
    ∧ Forall (λ e, Cli.is_work e = false ∧ Cli.is_clean_mounts e = false) evv
    ∧ (evm = []
       ∨ (Cli.unmount a = true
          ∧ ∃ v vs, Cli.volume a = v :: vs ∧ evm = [Cli.clean_mounts_of a v])
       ∨ (Cli.unmount a = false
          ∧ evm = Cli.clean_mounts_of a <$> Cli.volume a))
    ∧ (snd (Cli.main w a) = Cli.Exit Cli.SUCCESS
       ∨ snd (Cli.main w a) = Cli.Exit Cli.FAILURE).
Proof.
  unfold Cli.stops_early, Cli.main, Cli.clean_part. intros Hearly.
  destruct (Cli.health a); simpl in *.
  { pose proof run_health_talk as Ht.
    destruct (Cli.run_health w) as [ev ok]. simpl in *.
    exists (Cli.Print "Using Config:" :: Cli.PrintConfig :: ev), [], [].
    rewrite !app_nil_r. split; [done|]. split; [|split; [done|split; [by left|]]].
    - do 2 (apply Forall_cons_2; [done|]). eapply Forall_impl; [exact Ht|].
      by intros [] ?.
    - destruct ok; auto. }
  destruct (Cli.contains "volumes" (Cli.list_ a)); simpl in *.
  { eexists _, [], []. rewrite !app_nil_r. split; [done|].
    split; [plain_events|]. split; [done|]. split; by left. }
  assert (Hclean :
    Cli.unmount a && negb (bool_decide (Cli.volume a = []))
    || Cli.clean a || Cli.logout a = true →
    ∃ evm evv,
      match
        (if Cli.unmount a || Cli.logout a || Cli.clean a
         then if Cli.unmount a
              then match Cli.volume a with
                   | [] => ([], false)
                   | vol :: _ => ([Cli.clean_mounts_of a vol], true)
                   end
              else (Cli.clean_mounts_of a <$> Cli.volume a, false)
         else ([], false))
      with
      | (ev, true) => (ev, Cli.Exit Cli.SUCCESS)
      | (ev, false) =>
          if Cli.clean a
          then (ev ++ ((λ vol, Cli.CleanVolumes vol (Cli.workers a))
                         <$> Cli.volume a), Cli.Exit Cli.SUCCESS)
          else if Cli.logout a then (ev, Cli.Exit Cli.SUCCESS)
          else let '(ev', r) := Cli.work_part w a in (ev ++ ev', r)
      end = (evm ++ evv, Cli.Exit Cli.SUCCESS)
      ∧ Forall (λ e, Cli.is_work e = false ∧ Cli.is_clean_mounts e = false) evv
      ∧ (evm = []
         ∨ (Cli.unmount a = true
            ∧ ∃ v vs, Cli.volume a = v :: vs
                      ∧ evm = [Cli.clean_mounts_of a v])
         ∨ (Cli.unmount a = false
            ∧ evm = Cli.clean_mounts_of a <$> Cli.volume a))).
  { intros Hc.
    destruct (Cli.unmount a); simpl in *.
    - destruct (Cli.volume a) as [|v vs]; simpl in *.
      + destruct (Cli.clean a); simpl in *.
        * exists [], []. split; [done|]. split; [done|]. by left.
        * destruct (Cli.logout a); [|done].
          exists [], []. split; [done|]. split; [done|]. by left.
      + exists [Cli.clean_mounts_of a v], []. split; [done|]. split; [done|].
        right. left. eauto.
    - destruct (Cli.logout a); simpl in *.
      + destruct (Cli.clean a); simpl.
        * eexists _, _. split; [done|]. split; [plain_events|]. right. by right.
        * eexists _, []. rewrite app_nil_r. split; [done|]. split; [done|].
          right. by right.
      + destruct (Cli.clean a); [|done]. simpl.
        eexists _, _. split; [done|]. split; [plain_events|]. right. by right. }
  destruct (Cli.contains "templates" (Cli.list_ a)) eqn:Htemp; simpl in *.
  - destruct (Hclean Hearly) as (evm & evv & Heq & Hvv & Hm). rewrite Heq.
    eexists [_; _; _], evm, evv. split; [done|]. split; [plain_events|].
    split; [done|]. split; [done|by left].
  - destruct (Cli.contains "mounts" (Cli.list_ a)); simpl in *.
    { eexists _, [], []. rewrite !app_nil_r. split; [done|].
      split; [plain_events|]. split; [done|]. split; by left. }
    destruct (Hclean Hearly) as (evm & evv & Heq & Hvv & Hm). rewrite Heq.
    eexists [_; _], evm, evv. split; [done|]. split; [plain_events|].
    split; [done|]. split; [done|by left].
Qed.

(** When it does not. *)
Lemma main_work :
  Cli.stops_early a = false →
  Cli.main w a
  = (Cli.events_before_work a ++ fst (Cli.work_part w a),
     snd (Cli.work_part w a)).
Proof.
  unfold Cli.stops_early, Cli.main, Cli.clean_part, Cli.events_before_work.
  intros Hearly.
  destruct (Cli.health a); [done|]. simpl in *.
  destruct (Cli.contains "volumes" (Cli.list_ a)); [done|]. simpl in *.
  destruct (Cli.clean a); [by rewrite !orb_true_r in Hearly|].
  destruct (Cli.logout a); [by rewrite !orb_true_r in Hearly|].
  rewrite !orb_false_r in Hearly. simpl.
  destruct (Cli.work_part w a) as [evw rw]. simpl.
  destruct (Cli.contains "templates" (Cli.list_ a)); simpl in *.
  - destruct (Cli.unmount a); simpl in *; [|done].
    destruct (Cli.volume a); [done|]. done.
  - destruct (Cli.contains "mounts" (Cli.list_ a)); [done|]. simpl in *.
    destruct (Cli.unmount a); simpl in *; [|done].
    destruct (Cli.volume a); [done|]. done.
Qed.

Lemma filter_none {A} (P : A → Prop) `{!∀ x, Decision (P x)} (l : list A) :
  Forall (λ x, ¬ P x) l → filter P l = [].
Proof.
  induction 1 as [|x l Hx _ IH]; [done|]. by rewrite filter_cons_False.
Qed.

Lemma filter_every {A} (P : A → Prop) `{!∀ x, Decision (P x)} (l : list A) :
  Forall P l → filter P l = l.
Proof.
  induction 1 as [|x l Hx _ IH]; [done|]. rewrite filter_cons_True by done.
  by rewrite IH.
Qed.

Lemma which_talk :
  Forall (λ e, Cli.is_talk e = true) (Cli.which_events w a).
Proof.
  unfold Cli.which_events. destruct (Cli.fio a); [|done].
  pose proof (exe_talk "which fio" false) as He.
  destruct (Cli.exe w _ false) as [ev [o|e]]; simpl in *; [done|].
  apply Forall_app. split; [done|]. by repeat constructor.
Qed.

(** A property of the events of creating, mounting, fio and metrics that
    all talk has is a property of everything that part does. *)
Lemma work_part_forall (P : Cli.event → Prop) :
  (∀ e, Cli.is_talk e = true → P e) →
  Forall P (Cli.create_events a) →
  Forall P (Cli.mount_events w a) →
  Forall P (fst (Cli.fio_stage w a)) →
  Forall P (fst (Cli.metrics_stage w a)) →
  Forall P (fst (Cli.work_part w a)).
Proof.
  intros Htalk Hc Hm Hf Hx. unfold Cli.work_part.
  assert (Hw : Forall P (Cli.which_events w a)).
  { eapply Forall_impl; [apply which_talk|done]. }
  destruct (Cli.fio_stage w a) as [ev [e|]]; simpl in *;
    repeat (apply Forall_app; split); done.
Qed.

Lemma main_early_no_work :
  Cli.stops_early a = true →
  Forall (λ e, Cli.is_work e = false) (fst (Cli.main w a)).
Proof.
  intros (evq & evm & evv & -> & Hq & Hv & Hm & _)%main_early.
  repeat (apply Forall_app; split).
  - eapply Forall_impl; [exact Hq|]. by intros e [? _].
  - destruct Hm as [-> | [(_ & v & vs & _ & ->) | (_ & ->)]]; [done| |].
    + repeat constructor. apply clean_mounts_kind.
    + apply Forall_fmap, Forall_forall. intros v _. apply clean_mounts_kind.
  - eapply Forall_impl; [exact Hv|]. by intros e [? _].
Qed.

(** The same for the whole of [main]. *)
Lemma main_forall (P : Cli.event → Prop) :
  (∀ e, Cli.is_work e = false → P e) →
  Forall P (Cli.create_events a) →
  Forall P (Cli.mount_events w a) →
  Forall P (fst (Cli.fio_stage w a)) →
  Forall P (fst (Cli.metrics_stage w a)) →
  Forall P (fst (Cli.main w a)).
Proof.
  intros Hquiet Hc Hm Hf Hx.
  destruct (Cli.stops_early a) eqn:Hearly.
  - eapply Forall_impl; [by apply main_early_no_work|]. done.
  - rewrite main_work by done. cbn [fst]. apply Forall_app. split.
    + unfold Cli.events_before_work.
      destruct (Cli.contains "templates" (Cli.list_ a));
        repeat constructor; by apply Hquiet.
    + apply work_part_forall; try done.
      intros e He. apply Hquiet. by destruct e.
Qed.

Lemma metrics_stage_exit :
  snd (Cli.metrics_stage w a) = Cli.Exit Cli.SUCCESS
  ∨ snd (Cli.metrics_stage w a) = Cli.Exit Cli.FAILURE.
Proof.
  unfold Cli.metrics_stage. destruct (Cli.truthy (Cli.metrics a)); [|by left].
  apply metrics_part_exit.
Qed.

Lemma fio_stage_unbound :
  (snd (Cli.fio_stage w a) = None ∨ snd (Cli.fio_stage w a) = Some Cli.unbound)
  ∧ (snd (Cli.fio_stage w a) = Some Cli.unbound
     ↔ Cli.fio a = true ∧ Cli.mount a || Cli.login a = true
       ∧ Cli.created w a = []).
Proof.
  unfold Cli.fio_stage, Cli.dev_or_folders, Cli.wanted.
  destruct (Cli.fio a); simpl; [|split; [by left|]; split; [done|by intros []]].
  destruct (Cli.mount a), (Cli.login a); simpl;
    try (split; [by left|]; split; [done|by intros (_ & ? & _)]);
    case_bool_decide as Hcr; simpl;
    try (split; [by right|]; by split);
    destruct (Cli.is_local a); simpl;
    (split; [by left|]; split; [done|by intros (_ & _ & ?)]).
Qed.

(** X11.  [main] ends with exit code 0 or 1, or with the
    [UnboundLocalError] of [dev_or_folders]; the latter exactly when it
    comes to the fio part with [--fio] and one of [--mount] and [--login]
    while [create_volumes] has given no volume to mount (no [--volume] at
    all, or a falsy answer for the last one). *)
Theorem main_ends :
  (snd (Cli.main w a) = Cli.Exit Cli.SUCCESS
   ∨ snd (Cli.main w a) = Cli.Exit Cli.FAILURE
   ∨ snd (Cli.main w a) = Cli.Crash Cli.unbound)
  ∧ ((∃ e, snd (Cli.main w a) = Cli.Crash e)
     ↔ Cli.stops_early a = false ∧ Cli.fio a = true
       ∧ Cli.mount a || Cli.login a = true ∧ Cli.created w a = []).
Proof.
  destruct (Cli.stops_early a) eqn:Hearly.
  - destruct (main_early Hearly) as (_ & _ & _ & _ & _ & _ & _ & Hr).
    split; [tauto|]. split; [|by intros []].
    intros [e He]. destruct Hr as [Hr|Hr]; congruence.
  - rewrite main_work by done. simpl. unfold Cli.work_part.
    destruct fio_stage_unbound as [Hcases Hiff].
    destruct metrics_stage_exit as [Hx|Hx];
      destruct (Cli.fio_stage w a) as [ev [e|]]; simpl in *;
      destruct Hcases as [Hc|Hc]; try discriminate; simplify_eq;
      rewrite ?Hx;
      (split; [tauto|]); rewrite <- Hiff;
      (split; [try (intros [e He]; discriminate); eauto
              |try (intros [_ ?]; discriminate); eauto]).
Qed.

(** X12.  When [main] returns early (after the health check, after
    listing volumes or mounts, after unmounting, cleaning or logging out)
    it has created, mounted, run and measured nothing, and its exit code
    is 0 or 1. *)
Theorem early_return_does_no_work :
  Cli.stops_early a = true →
  Forall (λ e, Cli.is_work e = false) (fst (Cli.main w a))
  ∧ (snd (Cli.main w a) = Cli.Exit Cli.SUCCESS
     ∨ snd (Cli.main w a) = Cli.Exit Cli.FAILURE).
Proof.
  intros Hearly. split; [by apply main_early_no_work|].
  by destruct (main_early Hearly) as (_ & _ & _ & _ & _ & _ & _ & Hr).
Qed.

Lemma work_part_no_cleaning :
  filter (λ e, Cli.cleaning e = true) (fst (Cli.work_part w a)) = [].
Proof.
  apply filter_none.
  apply (work_part_forall (λ e, ¬ Cli.cleaning e = true)).
  - by intros [] ?.
  - unfold Cli.create_events. apply Forall_fmap, Forall_forall. by intros ? _.
  - unfold Cli.mount_events.
    destruct (Cli.wanted w a), (Cli.is_local a); by repeat constructor.
  - unfold Cli.fio_stage.
    destruct (Cli.fio a), (negb (Cli.mount a) && negb (Cli.login a)),
      (Cli.dev_or_folders w a), (Cli.is_local a); by repeat constructor.
  - unfold Cli.metrics_stage.
    destruct (Cli.truthy (Cli.metrics a)); [|done].
    apply Forall_forall.
    intros e [[s ->]|[(?&?&?&?&?&->)|(?&?&->)]]%metrics_part_prints; done.
Qed.

Lemma clean_mounts_cleaning (vols : list string) :
  filter (λ e, Cli.cleaning e = true) (Cli.clean_mounts_of a <$> vols)
  = Cli.clean_mounts_of a <$> vols.
Proof.
  apply filter_every, Forall_fmap, Forall_forall. intros v _. simpl.
  unfold Cli.cleaning. by destruct (clean_mounts_kind v) as [_ ->].
Qed.

Lemma clean_volumes_cleaning (vols : list string) :
  filter (λ e, Cli.cleaning e = true)
    ((λ vol, Cli.CleanVolumes vol (Cli.workers a)) <$> vols)
  = (λ vol, Cli.CleanVolumes vol (Cli.workers a)) <$> vols.
Proof. apply filter_every, Forall_fmap, Forall_forall. by intros v _. Qed.

Lemma clean_part_cleaning :
  filter (λ e, Cli.cleaning e = true) (fst (Cli.clean_part w a))
  = if Cli.unmount a then Cli.clean_mounts_of a <$> take 1 (Cli.volume a)
    else if Cli.clean a
    then (Cli.clean_mounts_of a <$> Cli.volume a)
         ++ ((λ vol, Cli.CleanVolumes vol (Cli.workers a)) <$> Cli.volume a)
    else if Cli.logout a then Cli.clean_mounts_of a <$> Cli.volume a
    else [].
Proof.
  unfold Cli.clean_part.
  pose proof work_part_no_cleaning as Hw.
  destruct (Cli.work_part w a) as [evw rw]. simpl in Hw.
  destruct (Cli.unmount a); simpl.
  - destruct (Cli.volume a) as [|v vs]; simpl.
    + destruct (Cli.clean a); [done|]. by destruct (Cli.logout a).
    + apply (clean_mounts_cleaning [v]).
  - destruct (Cli.logout a); simpl.
    + destruct (Cli.clean a); simpl.
      * by rewrite filter_app, clean_mounts_cleaning, clean_volumes_cleaning.
      * apply clean_mounts_cleaning.
    + destruct (Cli.clean a); simpl.
      * by rewrite filter_app, clean_mounts_cleaning, clean_volumes_cleaning.
      * done.
Qed.

(** X13.  What [main] unmounts and deletes, in order: nothing when it
    returns after the health check or a listing; with [--unmount] the
    mounts of the first [--volume] only, and no volume is deleted even
    with [--clean]; otherwise with [--clean] the mounts of every volume
    and then, after all of them, every volume; otherwise with [--logout]
    the mounts of every volume. *)
Theorem cleaning_done :
  filter (λ e, Cli.cleaning e = true) (fst (Cli.main w a))
  = if Cli.stops_before_clean a then []
    else if Cli.unmount a then Cli.clean_mounts_of a <$> take 1 (Cli.volume a)
    else if Cli.clean a
    then (Cli.clean_mounts_of a <$> Cli.volume a)
         ++ ((λ vol, Cli.CleanVolumes vol (Cli.workers a)) <$> Cli.volume a)
    else if Cli.logout a then Cli.clean_mounts_of a <$> Cli.volume a
    else [].
Proof.
  rewrite <- clean_part_cleaning.
  unfold Cli.main, Cli.stops_before_clean.
  destruct (Cli.health a); simpl.
  { pose proof run_health_talk as Ht.
    destruct (Cli.run_health w) as [ev ok]. simpl in *.
    apply filter_none. do 2 (apply Forall_cons_2; [done|]).
    eapply Forall_impl; [exact Ht|]. by intros []. }
  destruct (Cli.contains "volumes" (Cli.list_ a)); simpl.
  { apply filter_none. do 2 (apply Forall_cons_2; [done|]).
    apply Forall_fmap, Forall_forall. by intros ? _. }
  destruct (Cli.clean_part w a) as [evc rc]. simpl.
  destruct (Cli.contains "templates" (Cli.list_ a)); simpl.
  { by rewrite !filter_cons_False by done. }
  destruct (Cli.contains "mounts" (Cli.list_ a)); simpl.
  - apply filter_none. do 2 (apply Forall_cons_2; [done|]).
    apply Forall_fmap, Forall_forall. by intros ? _.
  - by rewrite !filter_cons_False by done.
Qed.

Lemma truthy_some o :
  Cli.truthy o = true → o = Some (default EmptyString o).
Proof. by destruct o. Qed.

(** X14.  Whatever the arguments, metrics are asked for only with an
    interval and a timeout of at least 1 that are the two comma-separated
    fields of [--metrics], for the volumes and the operation of the
    arguments and at least one metric type; and what is written, to
    [--metrics-out-file], is data that [get_metrics] returned. *)
Theorem metrics_guarded :
  Forall (Cli.metrics_ok w a) (fst (Cli.main w a)).
Proof.
  apply main_forall.
  - by intros [] ?.
  - unfold Cli.create_events. apply Forall_fmap, Forall_forall. by intros ? _.
  - unfold Cli.mount_events.
    destruct (Cli.wanted w a), (Cli.is_local a); by repeat constructor.
  - unfold Cli.fio_stage.
    destruct (Cli.fio a), (negb (Cli.mount a) && negb (Cli.login a)),
      (Cli.dev_or_folders w a), (Cli.is_local a); by repeat constructor.
  - unfold Cli.metrics_stage.
    destruct (Cli.truthy (Cli.metrics a)) eqn:Hm; [|done].
    apply truthy_some in Hm. apply Forall_forall.
    intros e [[s ->]|(si & st & i & t & Hsplit & Hi & Ht & Hi1 & Ht1 & He)]
      %metrics_part_events; [done|].
    destruct He as [-> | (d & Hd & -> & _)]; simpl.
    + repeat (split; [done|]). split; [by destruct (Cli.metrics_type a)|].
      eauto 10.
    + split; [done|]. eauto.
Qed.

Lemma is_local_spec :
  if Cli.is_local a then Cli.run_host a = "local"
  else Cli.run_host a ≠ "local".
Proof.
  unfold Cli.is_local.
  destruct (String.eqb (Cli.run_host a) "local") eqn:He.
  - by apply String.eqb_eq.
  - by apply String.eqb_neq.
Qed.

(** X15.  Whatever the arguments, what is mounted or logged in is the
    non-empty list of volumes that [create_volumes] returned for the last
    [--volume] (those of the earlier ones are created and not mounted),
    locally exactly when the run host is ['local']; and fio runs on what
    that mounting returned, so never without it. *)
Theorem mounts_last_volume :
  Forall (Cli.mount_ok w a) (fst (Cli.main w a)).
Proof.
  pose proof is_local_spec as Hloc.
  apply main_forall.
  - by intros [] ?.
  - unfold Cli.create_events. apply Forall_fmap, Forall_forall. by intros ? _.
  - unfold Cli.mount_events, Cli.wanted.
    destruct (Cli.mount a || Cli.login a); simpl; [|done].
    case_bool_decide as Hcr; simpl; [done|].
    destruct (Cli.is_local a); by repeat constructor.
  - unfold Cli.fio_stage, Cli.dev_or_folders, Cli.mount_events, Cli.wanted.
    destruct (Cli.fio a); [|done].
    destruct (negb (Cli.mount a) && negb (Cli.login a)) eqn:Hml;
      [by repeat constructor|].
    assert (Hor : Cli.mount a || Cli.login a = true)
      by (by destruct (Cli.mount a), (Cli.login a)).
    rewrite Hor. simpl. case_bool_decide as Hcr; simpl; [done|].
    destruct (Cli.is_local a) eqn:Hl; repeat constructor; simpl; try done.
    unfold Cli.mount_events, Cli.wanted.
    rewrite Hor, Hl, bool_decide_false by done. simpl.
    by apply list_elem_of_singleton.
  - unfold Cli.metrics_stage.
    destruct (Cli.truthy (Cli.metrics a)); [|done].
    apply Forall_forall.
    intros e [[s ->]|[(?&?&?&?&?&->)|(?&?&->)]]%metrics_part_prints; done.
Qed.

End Main.

Lemma early_return_does_no_work_witness :
  Cli.stops_early unmount_and_clean = true
  ∧ Forall (λ e, Cli.is_work e = false) (fst (Cli.main calm unmount_and_clean))
  ∧ (snd (Cli.main calm unmount_and_clean) = Cli.Exit Cli.SUCCESS
     ∨ snd (Cli.main calm unmount_and_clean) = Cli.Exit Cli.FAILURE).
Proof.
  split; [reflexivity|].
  apply (early_return_does_no_work calm unmount_and_clean). reflexivity.
Defined.

(** [--unmount --clean] with two volumes unmounts the first and deletes
    nothing; [--mount --fio] without a volume ends in the
    [UnboundLocalError]. *)
Example unmount_and_clean_run :
  Cli.main calm unmount_and_clean
  = ([Cli.Print "Using Config:"; Cli.PrintConfig;
      Cli.CleanMounts "prefix=a" "/mnt" 5], Cli.Exit Cli.SUCCESS).
Proof. reflexivity. Qed.

Example fio_without_volume_run :
  Cli.main calm fio_without_volume
  = ([Cli.Print "Using Config:"; Cli.PrintConfig;
      Cli.Shell "{ which fio; } 2>/dev/null"], Cli.Crash Cli.unbound).
Proof. reflexivity. Qed.
